(** * HTMLInstrumentation: incremental synchronisation of the HTML tree

    A shallow embedding of [src/HTMLInstrumentation.js].  The JavaScript
    objects of the source (tree nodes with [parent] back references,
    [children] arrays and [nodeMap] dictionaries) live in an explicit heap:
    a finite map from object addresses to node records.  Every function of
    the source that mutates a node becomes a function from heaps to heaps;
    a function that may throw a [TypeError] returns an [option].  Recursion
    of the source over the heap is driven by a fuel argument, and the
    theorems below show that the height of the tree is always enough. *)

From Stdlib Require Import Ascii String ZArith Lia.
From stdpp Require Import gmap strings list fin_maps pretty.
Open Scope Z_scope.
#[global] Set Warnings "-register-all,-clear-no-such-hyp".

(** ** JavaScript values that occur as tag identifiers and attribute values *)

Inductive jsval :=
| JUndefined
| JNum (n : Z)
| JStr (s : string).

#[global] Instance jsval_eq_dec : EqDecision jsval.
Proof. solve_decision. Defined.

(** Truthiness, as tested by [if (x)] and [!x]. *)
Definition truthy (v : jsval) : bool :=
  match v with
  | JUndefined => false
  | JNum n => negb (n =? 0)
  | JStr s => negb (String.eqb s "")
  end.

(** The strict equality [===]. *)
Definition strict_eq (a b : jsval) : bool := bool_decide (a = b).

(** Property keys: [obj[v]] converts [v] to a string. *)
Definition key_of (v : jsval) : string :=
  match v with
  | JUndefined => "undefined"
  | JNum n => pretty n
  | JStr s => s
  end.

(** ** Positions, ranges and deltas (the editor's data) *)

Record pos := Pos { row : Z; column : Z }.

#[global] Instance pos_eq_dec : EqDecision pos.
Proof. solve_decision. Defined.

(** [Range.comparePoints] of the editor:
    [p1.row - p2.row || p1.column - p2.column]. *)
Definition comparePoints (p1 p2 : pos) : Z :=
  if row p1 - row p2 =? 0 then column p1 - column p2 else row p1 - row p2.

Record range := Range { start : pos; end_ : pos }.

Record delta := Delta {
  d_range : range;
  action : string;
  d_text : option string;          (* [None]: [typeof text != "string"] *)
  d_lines : option (list string)
}.

(** ** Nodes and the heap *)

Abbreviation addr := positive (only parsing).

(** A node object.  [children] is [None] for a text run: the source tests
    [!node.children] to tell the two kinds apart. *)
Record node := Node {
  tagID : jsval;
  tag : string;
  attributes : gmap string jsval;
  content : string;
  startPos : pos;
  endPos : pos;
  children : option (list addr);
  parent : option addr;
  nodeMap : option (gmap string addr);
  signature : Z;
  errors : option (list string)
}.

Abbreviation heap := (gmap positive node) (only parsing).

Definition set_tagID (v : jsval) (n : node) : node :=
  Node v (tag n) (attributes n) (content n) (startPos n) (endPos n)
       (children n) (parent n) (nodeMap n) (signature n) (errors n).
Definition set_attributes (m : gmap string jsval) (n : node) : node :=
  Node (tagID n) (tag n) m (content n) (startPos n) (endPos n)
       (children n) (parent n) (nodeMap n) (signature n) (errors n).
Definition set_startPos (p : pos) (n : node) : node :=
  Node (tagID n) (tag n) (attributes n) (content n) p (endPos n)
       (children n) (parent n) (nodeMap n) (signature n) (errors n).
Definition set_endPos (p : pos) (n : node) : node :=
  Node (tagID n) (tag n) (attributes n) (content n) (startPos n) p
       (children n) (parent n) (nodeMap n) (signature n) (errors n).
Definition set_children (c : option (list addr)) (n : node) : node :=
  Node (tagID n) (tag n) (attributes n) (content n) (startPos n) (endPos n)
       c (parent n) (nodeMap n) (signature n) (errors n).
Definition set_parent (p : option addr) (n : node) : node :=
  Node (tagID n) (tag n) (attributes n) (content n) (startPos n) (endPos n)
       (children n) p (nodeMap n) (signature n) (errors n).
Definition set_nodeMap (m : option (gmap string addr)) (n : node) : node :=
  Node (tagID n) (tag n) (attributes n) (content n) (startPos n) (endPos n)
       (children n) (parent n) m (signature n) (errors n).
Definition set_signature (s : Z) (n : node) : node :=
  Node (tagID n) (tag n) (attributes n) (content n) (startPos n) (endPos n)
       (children n) (parent n) (nodeMap n) s (errors n).
Definition set_errors (e : option (list string)) (n : node) : node :=
  Node (tagID n) (tag n) (attributes n) (content n) (startPos n) (endPos n)
       (children n) (parent n) (nodeMap n) (signature n) e.

(** [node.isElement()] and [node.isText()] of the tree library. *)
Definition isElement (n : node) : bool :=
  match children n with Some _ => true | None => false end.
Definition isText (n : node) : bool := negb (isElement n).

(** [Array.prototype.some] with a callback that threads the heap: stops at
    the first truthy answer. *)
Fixpoint js_some {A S : Type} (f : A -> S -> option (bool * S))
    (l : list A) (s : S) : option (bool * S) :=
  match l with
  | [] => Some (false, s)
  | x :: l' =>
      match f x s with
      | None => None
      | Some (true, s') => Some (true, s')
      | Some (false, s') => js_some f l' s'
      end
  end.

(** ** The position tracker: [updatePositions] *)

Module PositionTracker.

Section Delta.
Variable d : delta.

Definition d_start : pos := start (d_range d).
Definition d_end : pos := end_ (d_range d).

(** [delta.action[0] == "i" ? 1 : -1] *)
Definition sign : Z :=
  match action d with
  | String "i"%char _ => 1
  | _ => -1
  end.
Definition rowChange : Z := sign * (row d_end - row d_start).
Definition columnChange : Z := sign * (column d_end - column d_start).

(** The inner [update(pos)]; the mutated object is returned. *)
Definition update (p : pos) : pos :=
  let p1 :=
    if row p =? (if sign =? -1 then row d_end else row d_start)
    then Pos (row p) (column p + columnChange)
    else p in
  if rowChange =? 0 then p1 else Pos (row p1 + rowChange) (column p1).

(** The inner [walk(node)].  The boolean is the truthiness of the value
    the source returns, which [some] inspects. *)
Fixpoint walk (fuel : nat) (a : addr) (h : heap) : option (bool * heap) :=
  match fuel with
  | O => None
  | S fuel' =>
    match h !! a with
    | None => None
    | Some n =>
      match children n with
      | None => Some (false, h)
      | Some ch =>
        let sp := startPos n in
        let ep := endPos n in
        if sign =? 1 then
          if comparePoints d_start sp <? 0 then
            let sp' := update sp in
            let h' := <[a := set_endPos (update ep) (set_startPos sp' n)]> h in
            if (rowChange =? 0) && (row sp' >? row d_start)
            then Some (false, h')
            else js_some (walk fuel') ch h'
          else
            if comparePoints d_start ep <? 0 then
              js_some (walk fuel') ch (<[a := set_endPos (update ep) n]> h)
            else Some (false, h)
        else
          if comparePoints d_end sp <=? 0 then
            let sp' := update sp in
            let h' := <[a := set_endPos (update ep) (set_startPos sp' n)]> h in
            if (rowChange =? 0) && (row sp' >? row d_end)
            then Some (false, h')
            else js_some (walk fuel') ch h'
          else
            if comparePoints d_start ep <=? 0 then
              js_some (walk fuel') ch (<[a := set_endPos (update ep) n]> h)
            else Some (false, h)
      end
    end
  end.

Definition updatePositions (fuel : nat) (dom : addr) (h : heap) : option heap :=
  snd <$> walk fuel dom h.
End Delta.

End PositionTracker.

(** ** Looking a position up in the cached tree *)

(** The session object of the editor, reduced to the field this module
    reads and writes: the cached tree [session.dom]. *)
Record session := Session { sdom : option addr }.

(** The loop of [findNode] over [children]; [rec] is the recursive call. *)
Fixpoint findNode_loop (rec : addr -> option (option addr)) (h : heap)
    (node : option addr) (p : pos) (preferParent : bool)
    (l : list addr) : option (option addr) :=
  match l with
  | [] => Some node
  | c :: l' =>
    match h !! c with
    | None => None
    | Some ch =>
      match children ch with
      | None => findNode_loop rec h node p preferParent l'
      | Some _ =>
        let cmp := comparePoints p (endPos ch) in
        if cmp <? 0 then
          if comparePoints p (startPos ch) >? 0 then rec c else Some node
        else if preferParent && (cmp =? 0) then Some node
        else findNode_loop rec h node p preferParent l'
      end
    end
  end.

(** [findNode(node, pos, preferParent)]; [node] may be [null]. *)
Fixpoint findNode (fuel : nat) (h : heap) (node : option addr) (p : pos)
    (preferParent : bool) : option (option addr) :=
  match fuel with
  | O => None
  | S fuel' =>
    match node with
    | None => Some None
    | Some a =>
      match h !! a with
      | None => None
      | Some n =>
        findNode_loop (fun c => findNode fuel' h (Some c) p preferParent)
          h node p preferParent (default [] (children n))
      end
    end
  end.

Definition _getNodeAtDocumentPos (fuel : nat) (s : session) (p : pos)
    (preferParent : bool) (h : heap) : option (option addr) :=
  findNode fuel h (sdom s) p preferParent.

(** [(match) ? match.tagID : -1] *)
Definition _getTagIDAtDocumentPos (fuel : nat) (s : session) (p : pos)
    (h : heap) : option jsval :=
  match _getNodeAtDocumentPos fuel s p false h with
  | None => None
  | Some None => Some (JNum (-1))
  | Some (Some a) => tagID <$> h !! a
  end.

(** ** The edit classifier *)

Definition dangerous_char (c : ascii) : bool :=
  (Ascii.eqb c "<" || Ascii.eqb c ">" || Ascii.eqb c "/" || Ascii.eqb c "="
   || Ascii.eqb c "034" || Ascii.eqb c "'")%char.

(** The regular expression test of [isDangerousEdit]: a character class
    of the six characters less-than, greater-than, slash, equals, double
    quote and single quote. *)
Fixpoint isDangerousEdit (text : string) : bool :=
  match text with
  | EmptyString => false
  | String c rest => dangerous_char c || isDangerousEdit rest
  end.

(** ** The updater *)

(** The fields of a [DOMUpdater] object that this module sets and reads.
    [u_text], [startOffset] and [startOffsetPos] are what the constructor
    hands to the builder. *)
Record DOMUpdater := MkDOMUpdater {
  isIncremental : bool;
  changedTagID : jsval;
  u_text : string;
  startOffset : Z;
  startOffsetPos : option pos;
  previousDOM : option addr
}.

(** The value [update] returns when it does not return [null]. *)
Record update_result := MkResult {
  newDOM : addr;
  oldSubtree : option addr;
  newSubtree : addr
}.

(** The collaborators of this module that live in other files: the editor
    session's text access, the tree builder and node methods of
    [HTMLSimpleDOM], and the differ [HTMLDOMDiff]. *)
Class Env := {
  (** [session.getValue()] *)
  getValue : string;
  (** [session.getTextRange(Range.fromPoints(from, to))] *)
  getTextRange : pos -> pos -> string;
  (** [session.doc.positionToIndex(pos)] *)
  positionToIndex : pos -> Z;
  (** [HTMLSimpleDOM._offsetPos(pos, offset)] *)
  _offsetPos : pos -> Z -> pos;
  (** The identifier generator behind [this.getNewID()]. *)
  idgen : Type;
  getNewID : idgen -> jsval * idgen;
  (** [this.build(strict, markCache)]: the root of the parsed tree, or
      [null]; the second component is [this.errors] afterwards. *)
  build : DOMUpdater -> session -> heap ->
          option addr * option (list string) * heap;
  (** Modelled from the spec: the builder is missing from the sources;
      when it yields no tree it yields a non-empty error list. *)
  build_failure :
    forall u s h errs h', build u s h = (None, errs, h') ->
    exists e es, errs = Some (e :: es);
  (** Modelled from the spec: [SimpleNode.prototype.update] is missing
      from the sources; it recomputes the node's signature, an opaque
      fingerprint of the content of the subtree. *)
  signature_of : heap -> addr -> Z;
  (** Modelled from the spec: [HTMLSimpleDOM.getTextNodeID] is missing
      from the sources; the identifier of a text run derives from its
      position in its parent.  The arguments are the parent's identifier
      and the identifiers of the preceding siblings. *)
  getTextNodeID : jsval -> list jsval -> jsval;
  (** [HTMLDOMDiff.domdiff(oldNode, newNode)] *)
  edit : Type;
  domdiff : heap -> option addr -> addr -> list edit
}.

(** [obj.field = value] on the heap; [None] when there is no such object. *)
Definition modify (a : addr) (f : node -> node) (h : heap) : option heap :=
  match h !! a with
  | Some n => Some (<[a := f n]> h)
  | None => None
  end.

(** [node.update()] *)
Definition node_update `{Env} (a : addr) (h : heap) : option heap :=
  modify a (set_signature (signature_of h a)) h.

(** [lines.join("\n")] *)
Definition join_lines (lines : list string) : string :=
  String.concat (String "010"%char EmptyString) lines.

Definition nonempty (t : string) : bool := negb (String.eqb t "").

(** [text = delta.text; if (typeof text != "string") text =
    delta.lines.join("\n");] *)
Definition delta_text (d : delta) : option string :=
  match d_text d with
  | Some t => Some t
  | None => join_lines <$> d_lines d
  end.

(** [new DOMUpdater(previousDOM, session, delta)] *)
Definition new_DOMUpdater `{Env} (fuel : nat) (previousDOM : option addr)
    (s : session) (dl : option delta) (h : heap)
    : option (DOMUpdater * heap) :=
  (* if (delta) { ... } *)
  '(text, h1) ←
    match dl with
    | None => Some (None, h)
    | Some d =>
      text ← delta_text d;
      h1 ← match previousDOM with
           | Some prev => PositionTracker.updatePositions d fuel prev h
           | None => Some h
           end;
      Some (Some text, h1)
    end;
  (* if (text && !isDangerousEdit(text)) { ... } *)
  let full := MkDOMUpdater false JUndefined getValue 0 None previousDOM in
  match text, dl with
  | Some t, Some d =>
    if nonempty t && negb (isDangerousEdit t) then
      startNode ← _getNodeAtDocumentPos fuel s (start (d_range d)) true h1;
      match startNode with
      | None => Some (full, h1)
      | Some a =>
        n ← h1 !! a;
        let text' := getTextRange (startPos n) (endPos n) in
        (* if (!this.changedTagID) text = session.getValue(); *)
        Some (MkDOMUpdater true (tagID n)
                (if truthy (tagID n) then text' else getValue)
                (positionToIndex (startPos n)) (Some (startPos n))
                previousDOM, h1)
      end
    else Some (full, h1)
  | _, _ => Some (full, h1)
  end.

(** [_hasAncestorWithID(node, id)]: the loop up the [parent] links. *)
Fixpoint hasAncestor_loop (fuel : nat) (h : heap) (ancestor : option addr)
    (id : jsval) : option bool :=
  match fuel with
  | O => None
  | S fuel' =>
    match ancestor with
    | None => Some false
    | Some a =>
      n ← h !! a;
      if negb (strict_eq (tagID n) id)
      then hasAncestor_loop fuel' h (parent n) id
      else Some true
    end
  end.

Definition _hasAncestorWithID (fuel : nat) (h : heap) (nd : addr)
    (id : jsval) : option bool :=
  n ← h !! nd; hasAncestor_loop fuel h (parent n) id.

(** [DOMUpdater.prototype.getID(newTag, markCache)] *)
Definition getID `{Env} (fuel : nat) (u : DOMUpdater) (s : session)
    (newTag : addr) (g : idgen) (h : heap) : option (jsval * idgen) :=
  nt ← h !! newTag;
  currentTagID ← _getTagIDAtDocumentPos fuel s (_offsetPos (startPos nt) 1) h;
  if strict_eq currentTagID (JNum (-1)) then Some (getNewID g)
  else
    anc ← _hasAncestorWithID fuel h newTag currentTagID;
    if anc : bool then Some (getNewID g)
    else
      prev ← previousDOM u;
      pn ← h !! prev;
      m ← nodeMap pn;
      match m !! key_of currentTagID with
      | None => Some (getNewID g)
      | Some o =>
        oldNode ← h !! o;
        if negb (String.eqb (tag oldNode) (tag nt)) then Some (getNewID g)
        else Some (currentTagID, g)
      end.

(** The inner [walk] of [_buildNodeMap]. *)
Fixpoint buildNodeMap_walk (fuel : nat) (h : heap) (a : addr)
    (m : gmap string addr) : option (gmap string addr) :=
  match fuel with
  | O => None
  | S fuel' =>
    n ← h !! a;
    let m1 := if truthy (tagID n) then <[key_of (tagID n) := a]> m else m in
    match children n with
    | None => Some m1
    | Some ch =>
      foldl (fun acc c => m' ← acc; buildNodeMap_walk fuel' h c m')
            (Some m1) ch
    end
  end.

(** [DOMUpdater.prototype._buildNodeMap(root)] *)
Definition _buildNodeMap (fuel : nat) (r : addr) (h : heap) : option heap :=
  m ← buildNodeMap_walk fuel h r ∅;
  modify r (set_nodeMap (Some m)) h.

(** [DOMUpdater.prototype._handleDeletions]: the resulting [nodeMap]. *)
Definition _handleDeletions (nodeMap oldSubtreeMap newSubtreeMap :
    gmap string addr) : gmap string addr :=
  foldl (fun m key =>
           match newSubtreeMap !! key with
           | Some _ => m
           | None => delete key m
           end)
        nodeMap (map fst (map_to_list oldSubtreeMap)).

(** [array.indexOf(x)] on addresses. *)
Fixpoint indexOf (l : list addr) (x : addr) : option nat :=
  match l with
  | [] => None
  | y :: l' => if decide (y = x) then Some O else S <$> indexOf l' x
  end.

(** [while (curParent) { curParent.update(); curParent = curParent.parent; }] *)
Fixpoint update_signatures `{Env} (fuel : nat) (curParent : option addr)
    (h : heap) : option heap :=
  match fuel with
  | O => None
  | S fuel' =>
    match curParent with
    | None => Some h
    | Some a =>
      h' ← node_update a h;
      n ← h' !! a;
      update_signatures fuel' (parent n) h'
    end
  end.

(** The swap of the new subtree for the old one inside [update]. *)
Definition splice `{Env} (fuel : nat) (prev old new p : addr)
    (childIndex : nat) (h : heap) : option heap :=
  (* oldSubtree.parent = null; newSubtree.parent = parent; *)
  h ← modify old (set_parent None) h;
  h ← modify new (set_parent (Some p)) h;
  (* parent.children[childIndex] = newSubtree; *)
  pn ← h !! p;
  ch ← children pn;
  let h := <[p := set_children (Some (<[childIndex := new]> ch)) pn]> h in
  (* extend(this.previousDOM.nodeMap, newSubtree.nodeMap); *)
  prevn ← h !! prev;
  prevMap ← nodeMap prevn;
  newn ← h !! new;
  let h := <[prev := set_nodeMap
                       (Some (default ∅ (nodeMap newn) ∪ prevMap)) prevn]> h in
  (* this._buildNodeMap(oldSubtree); *)
  h ← _buildNodeMap fuel old h;
  (* this._handleDeletions(this.previousDOM.nodeMap, oldSubtree.nodeMap,
                           newSubtree.nodeMap); *)
  prevn ← h !! prev;
  prevMap ← nodeMap prevn;
  oldn ← h !! old;
  oldMap ← nodeMap oldn;
  newn ← h !! new;
  newMap ← match nodeMap newn with
           | Some m => Some m
           | None => if decide (oldMap = ∅) then Some ∅ else None
           end;
  let h := <[prev := set_nodeMap
                       (Some (_handleDeletions prevMap oldMap newMap)) prevn]> h in
  update_signatures fuel (Some p) h.

(** [DOMUpdater.prototype.update()]: the result ([None] for [null]),
    [this.errors], the session and the heap. *)
Definition update `{Env} (fuel : nat) (u : DOMUpdater) (s : session)
    (h : heap)
    : option (option update_result * option (list string) * session * heap) :=
  let '(built, errs, h) := build u s h in
  match built with
  | None => Some (None, errs, s, h)
  | Some new =>
    let result := MkResult new (previousDOM u) new in
    if truthy (changedTagID u) then
      prev ← previousDOM u;
      prevn ← h !! prev;
      prevMap ← nodeMap prevn;
      old ← prevMap !! key_of (changedTagID u);
      oldn ← h !! old;
      match parent oldn with
      | None => Some (Some result, errs, s, h)
      | Some p =>
        pn ← h !! p;
        ch ← children pn;
        match indexOf ch old with
        | None => Some (Some result, errs, s, h)
        | Some childIndex =>
          h ← splice fuel prev old new p childIndex h;
          Some (Some (MkResult prev (Some old) new), errs, s, h)
        end
      end
    else Some (Some result, errs, Session (Some new), h)
  end.

(** The object [_updateDOM] returns; a field that is absent is [None]. *)
Record updateDOM_result `{Env} := MkUpdate {
  r_errors : option (list string);
  r_dom : option addr;
  r_edits : option (list edit);
  _wasIncremental : option bool
}.
Arguments MkUpdate {_} _ _ _ _.

Definition _updateDOM `{Env} (fuel : nat) (previousDOM : option addr)
    (s : session) (dl : option delta) (h : heap)
    : option (updateDOM_result * session * heap) :=
  '(updater, h) ← new_DOMUpdater fuel previousDOM s dl h;
  '(result, errs, s, h) ← update fuel updater s h;
  match result with
  | None => Some (MkUpdate errs None None None, s, h)
  | Some r =>
    let edits := domdiff h (oldSubtree r) (newSubtree r) in
    (* delete result.newSubtree.nodeMap *)
    h ← (if decide (newSubtree r = newDOM r) then Some h
         else modify (newSubtree r) (set_nodeMap None) h);
    Some (MkUpdate errs (Some (newDOM r)) (Some edits)
            (Some (isIncremental updater)), s, h)
  end.

Definition getUnappliedEditList `{Env} (fuel : nat) (s : session)
    (dl : option delta) (h : heap)
    : option (updateDOM_result * session * heap) :=
  let dom := sdom s in
  '(result, s, h) ← _updateDOM fuel dom s dl h;
  (* if (dom && result.errors) dom.errors = result.errors; *)
  h ← match dom, r_errors result with
      | Some d, Some e => modify d (set_errors (Some e)) h
      | _, _ => Some h
      end;
  (* if (result.dom) session.dom = result.dom; *)
  let s := match r_dom result with
           | Some d => Session (Some d)
           | None => s
           end in
  Some (result, s, h).

(** ** The reconciler *)

Definition reserved_attribute : string := "data-cloud9-id".

(** The local variables [nodeMap] and [root] of
    [_processBrowserSimpleDOM], threaded with the heap. *)
Record process_state := MkProcess {
  p_heap : gmap positive node;
  p_nodeMap : gmap string addr;
  p_root : option addr
}.

(** The loop [elem.children.forEach(...)]; [done] holds the children
    already visited, [rec] is the recursive call of [_processElement]. *)
Fixpoint processChildren `{Env}
    (rec : addr -> process_state -> option process_state)
    (elem : addr) (done todo : list addr) (st : process_state)
    : option process_state :=
  match todo with
  | [] => Some st
  | c :: todo' =>
    (* child.parent = elem; *)
    h ← modify c (set_parent (Some elem)) (p_heap st);
    child ← h !! c;
    st' ←
      (if isElement child then rec c (MkProcess h (p_nodeMap st) (p_root st))
       else
         (* child.update(); child.tagID = getTextNodeID(child); *)
         h ← node_update c h;
         en ← h !! elem;
         ids ← mapM (fun a => tagID <$> h !! a) done;
         let id := getTextNodeID (tagID en) ids in
         h ← modify c (set_tagID id) h;
         (* nodeMap[child.tagID] = child; *)
         Some (MkProcess h (<[key_of id := c]> (p_nodeMap st)) (p_root st)));
    processChildren rec elem (done ++ [c]) todo' st'
  end.

(** The inner [_processElement(elem)]. *)
Fixpoint _processElement `{Env} (fuel : nat) (sessionRootTagID : jsval)
    (elem : addr) (st : process_state) : option process_state :=
  match fuel with
  | O => None
  | S fuel' =>
    n ← p_heap st !! elem;
    (* elem.tagID = elem.attributes["data-cloud9-id"];
       delete elem.attributes["data-cloud9-id"]; *)
    let id := default JUndefined (attributes n !! reserved_attribute) in
    let n' := set_attributes (delete reserved_attribute (attributes n))
                (set_tagID id n) in
    let st := MkProcess (<[elem := n']> (p_heap st)) (p_nodeMap st) (p_root st) in
    ch ← children n';
    st ← processChildren (_processElement fuel' sessionRootTagID) elem [] ch st;
    (* elem.update(); nodeMap[elem.tagID] = elem; *)
    h ← node_update elem (p_heap st);
    en ← h !! elem;
    let nm := <[key_of (tagID en) := elem]> (p_nodeMap st) in
    (* if (elem.tagID === sessionRootTagID) root = elem; *)
    Some (MkProcess h nm
            (if strict_eq (tagID en) sessionRootTagID then Some elem
             else p_root st))
  end.

Definition _processBrowserSimpleDOM `{Env} (fuel : nat) (browserRoot : addr)
    (sessionRootTagID : jsval) (h : heap) : option (addr * heap) :=
  st ← _processElement fuel sessionRootTagID browserRoot (MkProcess h ∅ None);
  (* root = root || browserRoot; root.nodeMap = nodeMap; *)
  let r := default browserRoot (p_root st) in
  h ← modify r (set_nodeMap (Some (p_nodeMap st))) (p_heap st);
  Some (r, h).

(** The object [_getBrowserDiff] returns. *)
Record browser_diff `{Env} := MkDiff {
  diff : list edit;
  browser : addr;
  bd_session : addr
}.
Arguments MkDiff {_} _ _ _.

Definition _getBrowserDiff `{Env} (fuel : nat) (s : session)
    (browserSimpleDOM : addr) (h : heap) : option (browser_diff * heap) :=
  sessionRoot ← sdom s;
  rn ← h !! sessionRoot;
  '(browserRoot, h) ←
    _processBrowserSimpleDOM fuel browserSimpleDOM (tagID rn) h;
  Some (MkDiff (domdiff h (Some sessionRoot) browserRoot) browserRoot
          sessionRoot, h).

(** ** Shapes: the tree of addresses a heap holds below a node *)

Inductive shape := Shape { root : addr; kids : list shape }.

Fixpoint height (s : shape) : nat :=
  match s with
  | Shape _ ks => S (foldr (fun k m => Nat.max (height k) m) O ks)
  end.

Fixpoint addrs (s : shape) : list addr :=
  match s with
  | Shape a ks => a :: concat (map addrs ks)
  end.

(** [repr h s]: the [children] arrays of [h] draw the tree [s]. *)
Inductive repr (h : gmap positive node) : shape -> Prop :=
| repr_text a n :
    h !! a = Some n -> children n = None -> repr h (Shape a [])
| repr_elem a n ks :
    h !! a = Some n -> children n = Some (map root ks) ->
    Forall (repr h) ks -> repr h (Shape a ks).

(** * Theorems *)

(** ** Shapes and heaps *)

Lemma shape_ind' (P : shape -> Prop) :
  (forall a ks, Forall P ks -> P (Shape a ks)) -> forall s, P s.
Proof.
  intros IH. fix F 1. intros [a ks]. apply IH.
  induction ks as [|k ks IHks]; constructor; [apply F | exact IHks].
Qed.

(** Two heaps with the same objects and the same [children] arrays. *)
Definition links_eq (h h' : gmap positive node) : Prop :=
  forall a, children <$> (h !! a) = children <$> (h' !! a).

Lemma links_eq_refl h : links_eq h h.
Proof. intros a. reflexivity. Qed.

Lemma links_eq_trans h1 h2 h3 :
  links_eq h1 h2 -> links_eq h2 h3 -> links_eq h1 h3.
Proof. intros H1 H2 a. rewrite H1. apply H2. Qed.

Lemma links_eq_insert h a n n' :
  h !! a = Some n -> children n' = children n ->
  links_eq h (<[a := n']> h).
Proof.
  intros Ha Hc b. destruct (decide (a = b)) as [->|Hne].
  - rewrite lookup_insert_eq, Ha. simpl. congruence.
  - rewrite lookup_insert_ne by done. reflexivity.
Qed.

Lemma repr_inv h a ks :
  repr h (Shape a ks) ->
  exists n, h !! a = Some n /\ default [] (children n) = map root ks /\
            (children n = None -> ks = []) /\ Forall (repr h) ks.
Proof.
  inversion 1; subst; eexists; split; eauto.
  - repeat split; auto. match goal with H : children _ = None |- _ => rewrite H end. done.
  - repeat split; auto. all: match goal with H : children _ = Some _ |- _ => rewrite H end; done.
Qed.

Lemma repr_links h h' s : links_eq h h' -> repr h s -> repr h' s.
Proof.
  intros Hl. induction s as [a ks IH] using shape_ind'. intros Hr.
  assert (Hks : Forall (repr h') ks).
  { apply repr_inv in Hr as (n & _ & _ & _ & Hall).
    rewrite Forall_forall in *. intros k Hk. apply IH; auto. }
  pose proof (Hl a) as Ha.
  inversion Hr as [a0 n Hn Hc|a0 n ks0 Hn Hc _]; subst;
    rewrite Hn in Ha; simpl in Ha; destruct (h' !! a) as [n'|] eqn:Hn';
    simpl in Ha; try discriminate; injection Ha as Ha.
  - eapply repr_text; eauto. congruence.
  - eapply repr_elem; eauto. congruence.
Qed.

Lemma height_kid k ks :
  k ∈ ks -> (height k <= foldr (fun k m => Nat.max (height k) m) O ks)%nat.
Proof.
  induction 1; simpl; lia.
Qed.

Lemma root_in_addrs s : root s ∈ addrs s.
Proof. destruct s; simpl. left. Qed.

Lemma elem_of_concat_addrs b ks :
  b ∈ concat (map addrs ks) <-> exists k, k ∈ ks /\ b ∈ addrs k.
Proof.
  rewrite list_elem_of_In, in_concat. split.
  - intros (l & Hl & Hb). apply in_map_iff in Hl as (k & <- & Hk).
    exists k. by rewrite !list_elem_of_In.
  - intros (k & Hk & Hb). exists (addrs k).
    rewrite <- !list_elem_of_In. split; [|done].
    apply list_elem_of_In, in_map, list_elem_of_In, Hk.
Qed.

Lemma kid_addrs a ks k b : k ∈ ks -> b ∈ addrs k -> b ∈ addrs (Shape a ks).
Proof.
  intros Hk Hb. simpl. right. apply elem_of_concat_addrs. eauto.
Qed.

(** ** The position tracker *)

Section PositionTrackerFacts.
Import PositionTracker.
Variable d : delta.

(** What the tracker may change in a node: its two positions. *)
Definition same_but_pos (n n' : node) : Prop :=
  n' = set_endPos (endPos n') (set_startPos (startPos n') n).

Definition pos_frame (h h' : gmap positive node) : Prop :=
  forall a, match h !! a, h' !! a with
            | Some n, Some n' => same_but_pos n n'
            | None, None => True
            | _, _ => False
            end.

Lemma same_but_pos_refl n : same_but_pos n n.
Proof. destruct n; reflexivity. Qed.

Lemma same_but_pos_trans n1 n2 n3 :
  same_but_pos n1 n2 -> same_but_pos n2 n3 -> same_but_pos n1 n3.
Proof.
  unfold same_but_pos. intros H1 H2. rewrite H2 at 1. rewrite H1 at 1.
  destruct n1; reflexivity.
Qed.

Lemma pos_frame_refl h : pos_frame h h.
Proof. intros a. destruct (h !! a); auto using same_but_pos_refl. Qed.

Lemma pos_frame_trans h1 h2 h3 :
  pos_frame h1 h2 -> pos_frame h2 h3 -> pos_frame h1 h3.
Proof.
  intros H1 H2 a. specialize (H1 a). specialize (H2 a).
  destruct (h1 !! a), (h2 !! a), (h3 !! a); try tauto.
  eauto using same_but_pos_trans.
Qed.

Lemma pos_frame_insert h a n n' :
  h !! a = Some n -> same_but_pos n n' -> pos_frame h (<[a := n']> h).
Proof.
  intros Ha Hs b. destruct (decide (a = b)) as [->|Hne].
  - rewrite lookup_insert_eq, Ha. exact Hs.
  - rewrite lookup_insert_ne by done. destruct (h !! b); auto using same_but_pos_refl.
Qed.

Lemma pos_frame_links h h' : pos_frame h h' -> links_eq h h'.
Proof.
  intros Hf a. specialize (Hf a).
  destruct (h !! a) as [n|], (h' !! a) as [n'|]; simpl; try tauto.
  rewrite Hf. reflexivity.
Qed.

Lemma js_some_frame {A} (f : A -> gmap positive node -> option (bool * gmap positive node)) l :
  (forall x h b h', x ∈ l -> f x h = Some (b, h') -> b = false /\ pos_frame h h') ->
  forall h b h', js_some f l h = Some (b, h') -> b = false /\ pos_frame h h'.
Proof.
  induction l as [|x l IH]; intros Hf h b h' Hs; simpl in Hs.
  - injection Hs as <- <-. split; auto using pos_frame_refl.
  - destruct (f x h) as [[[] h1]|] eqn:Hx; try discriminate.
    + apply Hf in Hx as [? _]; [discriminate | left].
    + apply Hf in Hx as [_ Hx]; [|left].
      apply IH in Hs as [-> Hs]; [|intros; eapply Hf; eauto; by right].
      split; eauto using pos_frame_trans.
Qed.

Lemma walk_frame fuel : forall a h b h',
  walk d fuel a h = Some (b, h') -> b = false /\ pos_frame h h'.
Proof.
  induction fuel as [|fuel IH]; intros a h b h' Hw; simpl in Hw; [discriminate|].
  destruct (h !! a) as [n|] eqn:Hn; [|discriminate].
  destruct (children n) as [ch|] eqn:Hc.
  2:{ injection Hw as <- <-. split; auto using pos_frame_refl. }
  assert (Hboth : pos_frame h
            (<[a := set_endPos (update d (endPos n))
                      (set_startPos (update d (startPos n)) n)]> h)).
  { eapply pos_frame_insert; eauto. destruct n; reflexivity. }
  assert (Hend : pos_frame h (<[a := set_endPos (update d (endPos n)) n]> h)).
  { eapply pos_frame_insert; eauto. destruct n; reflexivity. }
  assert (Hrec : forall h0 b h', js_some (walk d fuel) ch h0 = Some (b, h') ->
                   b = false /\ pos_frame h0 h').
  { apply js_some_frame. intros; eapply IH; eauto. }
  repeat match type of Hw with
         | (if ?c then _ else _) = _ => destruct c
         end;
    first [ injection Hw as <- <-; split; auto using pos_frame_refl
          | apply Hrec in Hw as [-> Hw]; split; eauto using pos_frame_trans ].
Qed.

Lemma js_some_walk_total fuel ks :
  Forall (fun k => forall fuel h, repr h k -> (height k < fuel)%nat ->
            exists h', walk d fuel (root k) h = Some (false, h')) ks ->
  forall h, Forall (repr h) ks ->
    Forall (fun k => (height k < fuel)%nat) ks ->
    exists h', js_some (walk d fuel) (map root ks) h = Some (false, h').
Proof.
  induction 1 as [|k ks Hk _ IH]; intros h Hr Hh; simpl.
  - eauto.
  - inversion Hr as [|? ? Hr1 Hr2]; subst.
    inversion Hh as [|? ? Hh1 Hh2]; subst.
    destruct (Hk fuel h) as [h1 Hw]; auto. rewrite Hw.
    apply IH; auto.
    apply walk_frame in Hw as [_ Hw].
    eapply Forall_impl; [exact Hr2|]. intros s. apply repr_links.
    by apply pos_frame_links.
Qed.

Lemma walk_total s : forall fuel h,
  repr h s -> (height s < fuel)%nat ->
  exists h', walk d fuel (root s) h = Some (false, h').
Proof.
  induction s as [a ks IH] using shape_ind'. intros fuel h Hr Hfuel.
  destruct fuel as [|fuel]; [lia|]. simpl in Hfuel. simpl.
  apply repr_inv in Hr as (n & Hn & Hch & Hnil & Hks). rewrite Hn.
  destruct (children n) as [ch|] eqn:Hc; [|eauto]. simpl in Hch. subst ch.
  assert (Hh : Forall (fun k => (height k < fuel)%nat) ks).
  { rewrite Forall_forall. intros k Hk. apply height_kid in Hk. lia. }
  assert (Hgo : forall n', children n' = children n ->
            exists h', js_some (walk d fuel) (map root ks) (<[a := n']> h)
                       = Some (false, h')).
  { intros n' Hn'. apply js_some_walk_total; auto.
    eapply Forall_impl; [exact Hks|]. intros s. apply repr_links.
    eapply links_eq_insert; eauto. }
  repeat match goal with
         | |- exists _, (if ?c then _ else _) = _ => destruct c
         end; eauto; apply Hgo; destruct n; reflexivity.
Qed.

(** *** The exact effect of the walk on a well-nested tree *)

(** The document order of positions. *)
Definition pos_lt (p q : pos) : Prop :=
  row p < row q \/ (row p = row q /\ column p < column q).
Definition pos_le (p q : pos) : Prop :=
  row p < row q \/ (row p = row q /\ column p <= column q).

Lemma cmp_lt p q : (comparePoints p q <? 0) = true <-> pos_lt p q.
Proof.
  unfold comparePoints, pos_lt. rewrite Z.ltb_lt.
  destruct (Z.eqb_spec (row p - row q) 0); lia.
Qed.

Lemma cmp_le p q : (comparePoints p q <=? 0) = true <-> pos_le p q.
Proof.
  unfold comparePoints, pos_le. rewrite Z.leb_le.
  destruct (Z.eqb_spec (row p - row q) 0); lia.
Qed.

Lemma cmp_lt_false p q : (comparePoints p q <? 0) = false <-> pos_le q p.
Proof.
  unfold comparePoints, pos_le. rewrite Z.ltb_ge.
  destruct (Z.eqb_spec (row p - row q) 0); lia.
Qed.

Lemma cmp_le_false p q : (comparePoints p q <=? 0) = false <-> pos_lt q p.
Proof.
  unfold comparePoints, pos_lt. rewrite Z.leb_gt.
  destruct (Z.eqb_spec (row p - row q) 0); lia.
Qed.

(** Every element starts no later than it ends and lies within the span
    of its parent. *)
Inductive nested (h : gmap positive node) : shape -> Prop :=
| nested_intro a n ks :
    h !! a = Some n ->
    (isElement n = true -> pos_le (startPos n) (endPos n)) ->
    Forall (fun k => forall nk, h !! root k = Some nk -> isElement nk = true ->
              pos_le (startPos n) (startPos nk) /\
              pos_le (endPos nk) (endPos n)) ks ->
    Forall (nested h) ks ->
    nested h (Shape a ks).

(** The positions the walk leaves in an element it reaches. *)
Definition new_start (n : node) : pos :=
  if sign d =? 1
  then (if comparePoints (d_start d) (startPos n) <? 0
        then update d (startPos n) else startPos n)
  else (if comparePoints (d_end d) (startPos n) <=? 0
        then update d (startPos n) else startPos n).

Definition new_end (n : node) : pos :=
  if sign d =? 1
  then (if comparePoints (d_start d) (endPos n) <? 0
        then update d (endPos n) else endPos n)
  else (if comparePoints (d_start d) (endPos n) <=? 0
        then update d (endPos n) else endPos n).

Definition shift_node (n : node) : node :=
  if isElement n then set_endPos (new_end n) (set_startPos (new_start n) n)
  else n.

(** The heap in which the nodes at the addresses [l] are shifted. *)
Definition shift_heap (l : list addr) (h : gmap positive node)
    : gmap positive node :=
  map_imap (fun a n => Some (if decide (a ∈ l) then shift_node n else n)) h.

Lemma lookup_shift_heap l h a :
  shift_heap l h !! a =
  (fun n => if decide (a ∈ l) then shift_node n else n) <$> h !! a.
Proof.
  unfold shift_heap. rewrite map_lookup_imap. by destruct (h !! a).
Qed.

Lemma shift_heap_links l h : links_eq h (shift_heap l h).
Proof.
  intros a. rewrite lookup_shift_heap. destruct (h !! a) as [n|]; simpl; [|done].
  case_decide; [|done]. unfold shift_node. destruct (isElement n); by destruct n.
Qed.

Lemma nested_agree h h' s :
  (forall b, b ∈ addrs s -> h !! b = h' !! b) -> nested h s -> nested h' s.
Proof.
  induction s as [a ks IH] using shape_ind'. intros Hag Hn.
  inversion Hn as [a0 n ks0 Ha Hse Hk Hks]; subst.
  econstructor.
  - rewrite <- (Hag a); [exact Ha | apply (root_in_addrs (Shape a ks))].
  - exact Hse.
  - rewrite Forall_forall in *. intros k Hk' nk Hnk. apply (Hk k Hk').
    rewrite (Hag (root k)); auto. eapply kid_addrs; eauto using root_in_addrs.
  - rewrite Forall_forall in *. intros k Hk'. apply IH; auto.
    intros b Hb. apply Hag. eapply kid_addrs; eauto.
Qed.

(** All elements below a node lie within its span. *)
Lemma nested_bounds h s : repr h s -> nested h s ->
  forall n, h !! root s = Some n -> isElement n = true ->
  forall b nb, b ∈ addrs s -> h !! b = Some nb -> isElement nb = true ->
    pos_le (startPos n) (startPos nb) /\ pos_le (startPos nb) (endPos nb) /\
    pos_le (endPos nb) (endPos n).
Proof.
  induction s as [a ks IH] using shape_ind'. intros Hr Hn n Ha He b nb Hb Hnb Heb.
  inversion Hn as [a0 n0 ks0 Ha0 Hse Hk Hks]; subst. simpl in Ha.
  rewrite Ha in Ha0. injection Ha0 as <-.
  apply repr_inv in Hr as (n' & _ & _ & _ & Hrks).
  simpl in Hb. apply elem_of_cons in Hb as [->|Hb].
  - rewrite Ha in Hnb. injection Hnb as <-. specialize (Hse He).
    unfold pos_le in *. lia.
  - apply elem_of_concat_addrs in Hb as (k & Hk' & Hb).
    rewrite Forall_forall in *.
    specialize (Hks k Hk'). specialize (Hrks k Hk').
    destruct k as [c cks]. 
    apply repr_inv in Hrks as Hinv. destruct Hinv as (nk & Hrk & _ & Hnil & _).
    destruct (isElement nk) eqn:Hek.
    + destruct (Hk _ Hk' nk Hrk Hek) as [H1 H2].
      destruct (IH _ Hk' Hrks Hks nk Hrk Hek b nb Hb Hnb Heb) as (H3 & H4 & H5).
      unfold pos_le in *. lia.
    + unfold isElement in Hek. destruct (children nk) eqn:Hcn; [discriminate|].
      rewrite Hnil in Hb by done. simpl in Hb.
      assert (b = c) as -> by (inversion Hb as [|? ? ? Hb']; [done | inversion Hb']).
      rewrite Hrk in Hnb. injection Hnb as <-.
      unfold isElement in Heb. rewrite Hcn in Heb. discriminate.
Qed.

Lemma set_pos_id n : set_endPos (endPos n) (set_startPos (startPos n) n) = n.
Proof. by destruct n. Qed.

Lemma update_id_later_row p :
  rowChange d = 0 ->
  row p ≠ (if sign d =? -1 then row (d_end d) else row (d_start d)) ->
  update d p = p.
Proof.
  intros HR Hp. unfold update. rewrite HR. simpl.
  destruct (Z.eqb_spec (row p) (if sign d =? -1 then row (d_end d) else row (d_start d))); [done|].
  done.
Qed.

Lemma sign_cases : sign d = 1 \/ sign d = -1.
Proof. unfold sign. destruct (action d) as [|c ?]; auto. 
  destruct c as [[] [] [] [] [] [] [] []]; auto. Qed.


Lemma shift_heap_app l1 l2 h :
  (forall b, b ∈ l1 -> b ∈ l2 -> False) ->
  shift_heap l2 (shift_heap l1 h) = shift_heap (l1 ++ l2) h.
Proof.
  intros Hdisj. apply map_eq. intros b. rewrite !lookup_shift_heap.
  destruct (h !! b) as [n|]; simpl; [|done]. f_equal.
  repeat case_decide; try done; exfalso; set_solver.
Qed.

Lemma shift_heap_cons a l h n :
  a ∉ l -> h !! a = Some n ->
  shift_heap l (<[a := shift_node n]> h) = shift_heap (a :: l) h.
Proof.
  intros Hnot Ha. apply map_eq. intros b. rewrite !lookup_shift_heap.
  destruct (decide (a = b)) as [<-|Hne].
  - rewrite lookup_insert_eq, Ha. simpl. f_equal.
    rewrite decide_False by done. rewrite decide_True by left. done.
  - rewrite lookup_insert_ne by done. destruct (h !! b) as [nb|]; simpl; [|done].
    f_equal. repeat case_decide; try done; exfalso; set_solver.
Qed.

Lemma shift_heap_fixed a l h n :
  h !! a = Some n ->
  (forall b nb, b ∈ l -> h !! b = Some nb -> shift_node nb = nb) ->
  <[a := shift_node n]> h = shift_heap (a :: l) h.
Proof.
  intros Ha Hfix. apply map_eq. intros b. rewrite lookup_shift_heap.
  destruct (decide (a = b)) as [<-|Hne].
  - rewrite lookup_insert_eq, Ha. simpl. by rewrite decide_True by left.
  - rewrite lookup_insert_ne by done. destruct (h !! b) as [nb|] eqn:Hb; simpl; [|done].
    f_equal. case_decide as Hin; [|done].
    apply elem_of_cons in Hin as [->|Hin]; [done|]. symmetry. eauto.
Qed.

Definition walk_spec (s : shape) : Prop :=
  forall fuel h, repr h s -> NoDup (addrs s) -> nested h s ->
    (height s < fuel)%nat ->
    walk d fuel (root s) h = Some (false, shift_heap (addrs s) h).

Lemma js_some_walk_correct fuel ks :
  Forall walk_spec ks ->
  forall h, Forall (repr h) ks -> NoDup (concat (map addrs ks)) ->
    Forall (nested h) ks -> Forall (fun k => (height k < fuel)%nat) ks ->
    js_some (walk d fuel) (map root ks) h
    = Some (false, shift_heap (concat (map addrs ks)) h).
Proof.
  induction 1 as [|k ks Hk _ IH]; intros h Hr Hnd Hne Hh; simpl.
  - f_equal. f_equal. apply map_eq. intros b. rewrite lookup_shift_heap.
    by destruct (h !! b).
  - inversion Hr as [|? ? Hr1 Hr2]; subst.
    inversion Hne as [|? ? Hn1 Hn2]; subst.
    inversion Hh as [|? ? Hh1 Hh2]; subst.
    simpl in Hnd. apply NoDup_app in Hnd as (Hnd1 & Hdisj & Hnd2).
    rewrite (Hk fuel h) by done.
    rewrite IH; auto.
    + by rewrite shift_heap_app.
    + eapply Forall_impl; [exact Hr2|]. intros s. apply repr_links, shift_heap_links.
    + rewrite Forall_forall in *. intros k' Hk'. eapply nested_agree; [|by apply Hn2].
      intros b Hb. rewrite lookup_shift_heap.
      destruct (h !! b); simpl; [|done]. rewrite decide_False; [done|].
      intros Hbk. eapply Hdisj; [exact Hbk|]. apply elem_of_concat_addrs. eauto.
Qed.


Hypothesis Hrange : pos_le (d_start d) (d_end d).

Lemma row_update_same p : rowChange d = 0 -> row (update d p) = row p.
Proof.
  intros HR. unfold update. rewrite HR. simpl. by case_match.
Qed.

Lemma walk_correct s : walk_spec s.
Proof.
  induction s as [a ks IH] using shape_ind'.
  intros fuel h Hr Hnd Hne Hfuel.
  destruct fuel as [|fuel]; [lia|]. simpl in Hfuel. simpl.
  pose proof Hr as Hr0. pose proof Hne as Hne0.
  apply repr_inv in Hr as (n & Hn & Hch & Hnil & Hks). rewrite Hn.
  inversion Hne as [a0 n0 ks0 Hn0 Hse Hkb Hnks]; subst.
  rewrite Hn in Hn0. injection Hn0 as <-.
  apply NoDup_cons in Hnd as [Hnotin Hnd].
  destruct (children n) as [ch|] eqn:Hc.
  2:{ rewrite Hnil by done. simpl. f_equal. f_equal.
      rewrite <- (shift_heap_fixed a [] h n Hn) by (intros ? ? Hb; inversion Hb).
      unfold shift_node, isElement. rewrite Hc. by rewrite insert_id. }
  simpl in Hch. subst ch.
  assert (Hel : isElement n = true) by (unfold isElement; by rewrite Hc).
  specialize (Hse Hel).
  assert (Hh : Forall (fun k => (height k < fuel)%nat) ks).
  { rewrite Forall_forall. intros k Hk. apply height_kid in Hk. lia. }
  assert (Hgo : forall n', n' = shift_node n ->
            js_some (walk d fuel) (map root ks) (<[a := n']> h)
            = Some (false, shift_heap (a :: concat (map addrs ks)) h)).
  { intros n' ->. rewrite js_some_walk_correct; auto.
    - by rewrite shift_heap_cons.
    - eapply Forall_impl; [exact Hks|]. intros s. apply repr_links.
      eapply links_eq_insert; eauto. unfold shift_node. rewrite Hel. by destruct n.
    - rewrite Forall_forall in *. intros k Hk. eapply nested_agree; [|by apply Hnks].
      intros b Hb. rewrite lookup_insert_ne; [done|]. intros ->.
      apply Hnotin. apply elem_of_concat_addrs. eauto. }
  assert (Hstop : forall n', n' = shift_node n ->
            (forall b nb, b ∈ concat (map addrs ks) -> h !! b = Some nb ->
                          isElement nb = true ->
               pos_le (startPos n) (startPos nb) ->
               pos_le (startPos nb) (endPos nb) ->
               pos_le (endPos nb) (endPos n) ->
               new_start nb = startPos nb /\ new_end nb = endPos nb) ->
            Some (false, <[a := n']> h)
            = Some (false, shift_heap (a :: concat (map addrs ks)) h)).
  { intros n' -> Hfix. f_equal. f_equal. apply shift_heap_fixed; [done|].
    intros b nb Hb Hnb. unfold shift_node. destruct (isElement nb) eqn:Heb; [|done].
    destruct (nested_bounds h _ Hr0 Hne0 n Hn Hel b nb) as (H1 & H2 & H3); auto.
    { simpl. by right. }
    destruct (Hfix b nb) as [-> ->]; auto. apply set_pos_id. }
  destruct sign_cases as [Hs|Hs].
  - rewrite Hs. simpl.
    destruct (comparePoints (d_start d) (startPos n) <? 0) eqn:C1.
    + assert (C2 : (comparePoints (d_start d) (endPos n) <? 0) = true).
      { apply cmp_lt. apply cmp_lt in C1. unfold pos_lt, pos_le in *. lia. }
      assert (Hown : set_endPos (update d (endPos n))
                       (set_startPos (update d (startPos n)) n) = shift_node n).
      { unfold shift_node, new_start, new_end. rewrite Hel, Hs. simpl.
        rewrite C1, C2. by destruct n. }
      destruct (Z.eqb_spec (rowChange d) 0) as [HR|HR]; simpl; [|by apply Hgo].
      destruct (row (update d (startPos n)) >? row (d_start d)) eqn:C3; [|by apply Hgo].
      apply Hstop; [done|]. intros b nb _ _ _ B1 B2 B3.
      rewrite row_update_same in C3 by done. apply Z.gtb_lt in C3.
      unfold new_start, new_end. rewrite Hs. simpl.
      rewrite !update_id_later_row; try done.
      * split; by case_match.
      * rewrite Hs. simpl. unfold pos_le in *. lia.
      * rewrite Hs. simpl. unfold pos_le in *. lia.
    + destruct (comparePoints (d_start d) (endPos n) <? 0) eqn:C2.
      * apply Hgo. unfold shift_node, new_start, new_end. rewrite Hel, Hs. simpl.
        rewrite C1, C2. by destruct n.
      * rewrite <- (insert_id h a n) at 1 by done.
        apply Hstop.
        { unfold shift_node, new_start, new_end. rewrite Hel, Hs. simpl.
          rewrite C1, C2. by destruct n. }
        intros b nb _ _ _ B1 B2 B3. apply cmp_lt_false in C2.
        unfold new_start, new_end. rewrite Hs. simpl.
        assert ((comparePoints (d_start d) (startPos nb) <? 0) = false) as ->.
        { apply cmp_lt_false. unfold pos_le in *. lia. }
        assert ((comparePoints (d_start d) (endPos nb) <? 0) = false) as ->.
        { apply cmp_lt_false. unfold pos_le in *. lia. }
        done.
  - rewrite Hs. simpl.
    destruct (comparePoints (d_end d) (startPos n) <=? 0) eqn:C1.
    + assert (C2 : (comparePoints (d_start d) (endPos n) <=? 0) = true).
      { apply cmp_le. apply cmp_le in C1. unfold pos_lt, pos_le in *. lia. }
      assert (Hown : set_endPos (update d (endPos n))
                       (set_startPos (update d (startPos n)) n) = shift_node n).
      { unfold shift_node, new_start, new_end. rewrite Hel, Hs. simpl.
        rewrite C1, C2. by destruct n. }
      destruct (Z.eqb_spec (rowChange d) 0) as [HR|HR]; simpl; [|by apply Hgo].
      destruct (row (update d (startPos n)) >? row (d_end d)) eqn:C3; [|by apply Hgo].
      apply Hstop; [done|]. intros b nb _ _ _ B1 B2 B3.
      rewrite row_update_same in C3 by done. apply Z.gtb_lt in C3.
      unfold new_start, new_end. rewrite Hs. simpl.
      rewrite !update_id_later_row; try done.
      * split; by case_match.
      * rewrite Hs. simpl. unfold pos_le in *. lia.
      * rewrite Hs. simpl. unfold pos_le in *. lia.
    + destruct (comparePoints (d_start d) (endPos n) <=? 0) eqn:C2.
      * apply Hgo. unfold shift_node, new_start, new_end. rewrite Hel, Hs. simpl.
        rewrite C1, C2. by destruct n.
      * rewrite <- (insert_id h a n) at 1 by done.
        apply Hstop.
        { unfold shift_node, new_start, new_end. rewrite Hel, Hs. simpl.
          rewrite C1, C2. by destruct n. }
        intros b nb _ _ _ B1 B2 B3. apply cmp_le_false in C2.
        unfold new_start, new_end. rewrite Hs. simpl.
        assert ((comparePoints (d_end d) (startPos nb) <=? 0) = false) as ->.
        { apply cmp_le_false. unfold pos_lt, pos_le in *. lia. }
        assert ((comparePoints (d_start d) (endPos nb) <=? 0) = false) as ->.
        { apply cmp_le_false. unfold pos_lt, pos_le in *. lia. }
        done.
Qed.

End PositionTrackerFacts.

(** *** The shift in the words of the specification *)

(** An insertion of [R] rows and [C] trailing columns at [P] moves a
    boundary strictly after [P]: its row by [R], and its column by [C] when
    it is on the row of [P]. *)
Definition ins_shift (P : pos) (R C : Z) (p : pos) : pos :=
  if comparePoints P p <? 0
  then Pos (row p + R) (if row p =? row P then column p + C else column p)
  else p.

(** A deletion of [R] rows and [C] trailing columns that ends at [E] moves
    a boundary at or after [E] back. *)
Definition del_shift (E : pos) (R C : Z) (p : pos) : pos :=
  if comparePoints E p <=? 0
  then Pos (row p - R) (if row p =? row E then column p - C else column p)
  else p.

(** What the tracker does to one node of the tree. *)
Definition shifted (d : delta) (n n' : node) : Prop :=
  let P := PositionTracker.d_start d in
  let E := PositionTracker.d_end d in
  let R := row E - row P in
  let C := column E - column P in
  same_but_pos n n' /\
  (isElement n = false -> n' = n) /\
  (isElement n = true ->
     (PositionTracker.sign d = 1 ->
        startPos n' = ins_shift P R C (startPos n) /\
        endPos n' = ins_shift P R C (endPos n)) /\
     (PositionTracker.sign d = -1 ->
        startPos n' = del_shift E R C (startPos n) /\
        (pos_le E (endPos n) -> endPos n' = del_shift E R C (endPos n)) /\
        (pos_lt (endPos n) P -> endPos n' = endPos n))).

Lemma update_ins d p :
  PositionTracker.sign d = 1 ->
  PositionTracker.update d p =
  Pos (row p + (row (PositionTracker.d_end d) - row (PositionTracker.d_start d)))
      (if row p =? row (PositionTracker.d_start d)
       then column p + (column (PositionTracker.d_end d)
                        - column (PositionTracker.d_start d))
       else column p).
Proof.
  intros Hs. unfold PositionTracker.update, PositionTracker.rowChange,
    PositionTracker.columnChange. rewrite Hs. simpl.
  destruct p as [r c]; simpl.
  destruct (Z.eqb_spec r (row (PositionTracker.d_start d)));
    destruct (Z.eqb_spec (1 * (row (PositionTracker.d_end d)
                               - row (PositionTracker.d_start d))) 0);
    simpl; f_equal; lia.
Qed.

Lemma update_del d p :
  PositionTracker.sign d = -1 ->
  PositionTracker.update d p =
  Pos (row p - (row (PositionTracker.d_end d) - row (PositionTracker.d_start d)))
      (if row p =? row (PositionTracker.d_end d)
       then column p - (column (PositionTracker.d_end d)
                        - column (PositionTracker.d_start d))
       else column p).
Proof.
  intros Hs. unfold PositionTracker.update, PositionTracker.rowChange,
    PositionTracker.columnChange. rewrite Hs. simpl.
  destruct p as [r c]; simpl.
  destruct (Z.eqb_spec r (row (PositionTracker.d_end d)));
    destruct (Z.eqb_spec (-1 * (row (PositionTracker.d_end d)
                                - row (PositionTracker.d_start d))) 0);
    simpl; f_equal; lia.
Qed.

Lemma shift_node_shifted d n :
  pos_le (PositionTracker.d_start d) (PositionTracker.d_end d) ->
  shifted d n (shift_node d n).
Proof.
  intros Hrange. unfold shifted, shift_node.
  destruct (isElement n) eqn:He.
  2:{ split; [apply same_but_pos_refl|]. split; [done|discriminate]. }
  split; [by destruct n|]. split; [discriminate|]. intros _. split; intros Hs.
  - unfold new_start, new_end, ins_shift. rewrite Hs. simpl.
    split; case_match; try done; by rewrite update_ins.
  - unfold new_start, new_end, del_shift. rewrite Hs. simpl.
    split; [case_match; try done; by rewrite update_del|]. split.
    + intros Hle. apply cmp_le in Hle as Hle'. rewrite Hle'.
      assert ((comparePoints (PositionTracker.d_start d) (endPos n) <=? 0) = true) as ->.
      { apply cmp_le. unfold pos_le in *. lia. }
      by rewrite update_del.
    + intros Hlt. apply cmp_le_false in Hlt. by rewrite Hlt.
Qed.

(** C1 (as amended).  On a tree whose elements are nested, the position
    tracker terminates and shifts exactly the boundaries of elements: for
    an insertion of [R] rows and [C] trailing columns at [P], a boundary
    strictly after [P] moves its row by [R] and, when it is on the row of
    [P], its column by [C], and a boundary at or before [P] stays; for a
    deletion, a boundary at or after the end of the removed range moves by
    the inverse, a start before that end and an end before the start of the
    range stay.  Text runs and nodes outside the tree are untouched. *)
Theorem position_shift (d : delta) (h : gmap positive node) (s : shape)
    (fuel : nat) :
  repr h s -> NoDup (addrs s) -> nested h s ->
  pos_le (PositionTracker.d_start d) (PositionTracker.d_end d) ->
  (height s < fuel)%nat ->
  exists h', PositionTracker.updatePositions d fuel (root s) h = Some h' /\
    (forall a, a ∉ addrs s -> h' !! a = h !! a) /\
    (forall a n, a ∈ addrs s -> h !! a = Some n ->
       exists n', h' !! a = Some n' /\ shifted d n n').
Proof.
  intros Hr Hnd Hne Hrange Hfuel.
  exists (shift_heap d (addrs s) h). split; [|split].
  - unfold PositionTracker.updatePositions.
    by rewrite (walk_correct d Hrange s fuel h).
  - intros a Ha. rewrite lookup_shift_heap. destruct (h !! a); [|done].
    simpl. by rewrite decide_False.
  - intros a n Ha Hn. rewrite lookup_shift_heap, Hn. simpl.
    rewrite decide_True by done. eexists; split; [done|].
    by apply shift_node_shifted.
Qed.

(** C9.  The position tracker terminates on every tree and changes nothing
    but the two positions of nodes: the heap holds the same objects, the
    [children] arrays still draw the same tree, and every node keeps its
    identifier, parent link, children, tag name, attributes and text. *)
Theorem updatePositions_frame (d : delta) (h : gmap positive node)
    (s : shape) (fuel : nat) :
  repr h s -> (height s < fuel)%nat ->
  exists h', PositionTracker.updatePositions d fuel (root s) h = Some h' /\
    dom h' = dom h /\
    repr h' s /\
    (forall a n, h !! a = Some n ->
       exists n', h' !! a = Some n' /\
         tagID n' = tagID n /\ parent n' = parent n /\
         children n' = children n /\ tag n' = tag n /\
         attributes n' = attributes n /\ content n' = content n /\
         nodeMap n' = nodeMap n /\ signature n' = signature n /\
         errors n' = errors n).
Proof.
  intros Hr Hfuel. destruct (walk_total d s fuel h Hr Hfuel) as [h' Hw].
  exists h'. unfold PositionTracker.updatePositions. rewrite Hw. simpl.
  split; [done|]. apply walk_frame in Hw as [_ Hf]. split; [|split].
  - apply set_eq. intros a. rewrite !elem_of_dom. specialize (Hf a).
    destruct (h !! a), (h' !! a); try tauto; split; eauto.
    all: intros [? ?]; done.
  - eapply repr_links; [|exact Hr]. by apply pos_frame_links.
  - intros a n Hn. specialize (Hf a). rewrite Hn in Hf.
    destruct (h' !! a) as [n'|]; [|tauto]. exists n'. split; [done|].
    rewrite Hf. by destruct n.
Qed.

(** *** A small document *)

(** The tree of [<div><p>hi</p>xy</div>]-like markup on one row: a root
    element at columns 0 to 20, an element child at columns 3 to 8 that
    holds a text run, and a second text run. *)
Definition ex_node (id : jsval) (t : string) (sp ep : pos)
    (ch : option (list addr)) (par : option addr) : node :=
  Node id t ∅ "" sp ep ch par None 0 None.

Definition ex_heap : gmap positive node :=
  <[1%positive := set_nodeMap
       (Some (<["1" := 1%positive]> (<["2" := 2%positive]>
               (<["2t" := 3%positive]> (<["2.0" := 4%positive]> ∅)))))
       (ex_node (JNum 1) "div" (Pos 0 0) (Pos 0 20)
          (Some [2%positive; 3%positive]) None)]>
  (<[2%positive := ex_node (JNum 2) "p" (Pos 0 3) (Pos 0 8)
       (Some [4%positive]) (Some 1%positive)]>
  (<[3%positive := ex_node (JStr "2t") "" (Pos 0 8) (Pos 0 10) None
       (Some 1%positive)]>
  (<[4%positive := ex_node (JStr "2.0") "" (Pos 0 6) (Pos 0 8) None
       (Some 2%positive)]> ∅))).

Definition ex_shape : shape :=
  Shape 1 [Shape 2 [Shape 4 []]; Shape 3 []].

(** Typing [ab] at row 0, column 3: right where the inner element starts. *)
Definition ex_insert : delta :=
  Delta (Range (Pos 0 3) (Pos 0 5)) "insertText" (Some "ab") None.

Ltac solve_repr :=
  repeat first
    [ apply List.Forall_nil
    | apply List.Forall_cons
    | eapply repr_text; [vm_compute; reflexivity | reflexivity]
    | eapply repr_elem; [vm_compute; reflexivity | reflexivity | ] ].

Lemma ex_repr : repr ex_heap ex_shape.
Proof. unfold ex_shape. solve_repr. Qed.

Lemma ex_nodup : NoDup (addrs ex_shape).
Proof. apply (bool_decide_unpack _). vm_compute. exact I. Qed.

Lemma ex_nested : nested ex_heap ex_shape.
Proof.
  unfold ex_shape.
  repeat first
    [ apply List.Forall_nil
    | apply List.Forall_cons
    | eapply nested_intro; [vm_compute; reflexivity | | | ]
    | intros _; unfold pos_le; simpl; lia
    | intros nk Hnk _; vm_compute in Hnk; injection Hnk as <-;
      unfold pos_le; simpl; lia ].
Qed.

Lemma position_shift_witness :
  exists h', PositionTracker.updatePositions ex_insert 4 1 ex_heap = Some h' /\
    (forall a, a ∉ addrs ex_shape -> h' !! a = ex_heap !! a) /\
    (forall a n, a ∈ addrs ex_shape -> ex_heap !! a = Some n ->
       exists n', h' !! a = Some n' /\ shifted ex_insert n n').
Proof.
  apply (position_shift ex_insert ex_heap ex_shape 4).
  - exact ex_repr.
  - exact ex_nodup.
  - exact ex_nested.
  - unfold pos_le, PositionTracker.d_start, PositionTracker.d_end, ex_insert.
    simpl. lia.
  - simpl. lia.
Defined.

(** C1 as stated fails: the inner element starts at row 0, column 3, where
    two characters are inserted, and its start stays at column 3. *)
Lemma position_shift_counterexample :
  exists h' n n',
    PositionTracker.updatePositions ex_insert 4 1 ex_heap = Some h' /\
    ex_heap !! 2%positive = Some n /\ h' !! 2%positive = Some n' /\
    row (startPos n) = row (PositionTracker.d_start ex_insert) /\
    column (startPos n) >= column (PositionTracker.d_start ex_insert) /\
    column (startPos n') <> column (startPos n) + 2.
Proof.
  eexists _, _, _. split; [vm_compute; reflexivity|].
  split; [vm_compute; reflexivity|]. split; [vm_compute; reflexivity|].
  vm_compute. repeat split; congruence.
Qed.

Lemma updatePositions_frame_witness :
  exists h', PositionTracker.updatePositions ex_insert 4 1 ex_heap = Some h' /\
    dom h' = dom ex_heap /\
    repr h' ex_shape /\
    (forall a n, ex_heap !! a = Some n ->
       exists n', h' !! a = Some n' /\
         tagID n' = tagID n /\ parent n' = parent n /\
         children n' = children n /\ tag n' = tag n /\
         attributes n' = attributes n /\ content n' = content n /\
         nodeMap n' = nodeMap n /\ signature n' = signature n /\
         errors n' = errors n).
Proof.
  apply (updatePositions_frame ex_insert ex_heap ex_shape 4).
  - exact ex_repr.
  - simpl. lia.
Defined.

(** ** The edit classifier *)

(** The six characters of the classifier's character class. *)
Definition dangerous_chars : list ascii :=
  ["<"; ">"; "/"; "="; "034"; "'"]%char.

Lemma dangerous_char_spec c : dangerous_char c = true <-> In c dangerous_chars.
Proof.
  unfold dangerous_char, dangerous_chars. simpl.
  rewrite !orb_true_iff, !Ascii.eqb_eq. intuition congruence.
Qed.

Lemma isDangerousEdit_spec t :
  isDangerousEdit t = true <->
  exists c, In c (list_ascii_of_string t) /\ In c dangerous_chars.
Proof.
  induction t as [|c t IH]; simpl.
  - split; [discriminate | intros (c & [] & _)].
  - rewrite orb_true_iff, IH, dangerous_char_spec. split.
    + intros [Hc|(c' & Hin & Hd)]; eauto.
    + intros (c' & [<-|Hin] & Hd); eauto.
Qed.

(** An environment for the examples: a one-line document, consecutive
    numbers as fresh identifiers, and a builder that rejects the text [<]
    and otherwise answers with the node at address 10. *)
Definition ex_build (u : DOMUpdater) (s : session) (h : gmap positive node)
    : option addr * option (list string) * gmap positive node :=
  if String.eqb (u_text u) "<" then (None, Some ["unbalanced"], h)
  else (Some 10%positive, Some [], h).

Lemma ex_build_failure u s h errs h' :
  ex_build u s h = (None, errs, h') -> exists e es, errs = Some (e :: es).
Proof.
  unfold ex_build. destruct (String.eqb (u_text u) "<"); intros [= <- <-]; eauto.
Qed.

Definition ex_getTextNodeID (parentID : jsval) (before : list jsval) : jsval :=
  match last before with
  | None => JStr (key_of parentID +:+ ".0")
  | Some p => JStr (key_of p +:+ "t")
  end.

#[local] Instance ex_env : Env := {|
  getValue := "<div><p>hi</p>xy</div>";
  getTextRange := fun _ _ => "<p>hi</p>";
  positionToIndex := column;
  _offsetPos := fun p o => Pos (row p) (column p + o);
  idgen := Z;
  getNewID := fun g => (JNum g, g + 1);
  build := ex_build;
  build_failure := ex_build_failure;
  signature_of := fun _ _ => 0;
  getTextNodeID := ex_getTextNodeID;
  edit := unit;
  domdiff := fun _ _ _ => []
|}.

(** C2.  The classifier answers [true] exactly for a text that holds one
    of the six characters; such a text makes the updater a full reparse
    (not incremental, no changed tag, the whole document as its text); the
    entity text [&amp;] and the character [&] are not dangerous. *)
Theorem dangerous_edit_classification `{Env} (t : string) (fuel : nat)
    (prev : option addr) (s : session) (d : delta)
    (h h1 : gmap positive node) :
  delta_text d = Some t ->
  match prev with
  | Some p => PositionTracker.updatePositions d fuel p h
  | None => Some h
  end = Some h1 ->
  (isDangerousEdit t = true <->
   exists c, In c (list_ascii_of_string t) /\ In c dangerous_chars) /\
  (isDangerousEdit t = true ->
   new_DOMUpdater fuel prev s (Some d) h
   = Some (MkDOMUpdater false JUndefined getValue 0 None prev, h1)) /\
  isDangerousEdit "&amp;" = false /\
  isDangerousEdit "&" = false.
Proof.
  intros Ht Hpos. split; [apply isDangerousEdit_spec|].
  split; [|split; reflexivity].
  intros Hd. unfold new_DOMUpdater. rewrite Ht. simpl.
  rewrite Hpos. simpl. rewrite Hd, andb_false_r. reflexivity.
Qed.

Definition ex_dangerous : delta :=
  Delta (Range (Pos 0 3) (Pos 0 4)) "insertText" (Some "<") None.

Lemma dangerous_edit_classification_witness :
  (isDangerousEdit "<" = true <->
   exists c, In c (list_ascii_of_string "<") /\ In c dangerous_chars) /\
  (isDangerousEdit "<" = true ->
   exists h1,
   new_DOMUpdater 4 (Some 1%positive) (Session (Some 1%positive))
     (Some ex_dangerous) ex_heap
   = Some (MkDOMUpdater false JUndefined getValue 0 None (Some 1%positive), h1)) /\
  isDangerousEdit "&amp;" = false /\
  isDangerousEdit "&" = false.
Proof.
  destruct (PositionTracker.updatePositions ex_dangerous 4 1 ex_heap)
    as [h1|] eqn:Hpos; [|vm_compute in Hpos; discriminate].
  destruct (dangerous_edit_classification "<" 4 (Some 1%positive)
              (Session (Some 1%positive)) ex_dangerous ex_heap h1)
    as (H1 & H2 & H3 & H4); [reflexivity | exact Hpos |].
  split; [exact H1|]. split; [|split; assumption].
  intros Hd. exists h1. exact (H2 Hd).
Defined.

(** ** Looking a position up *)

Lemma cmp_gt p q : (comparePoints p q >? 0) = true <-> pos_lt q p.
Proof.
  unfold comparePoints, pos_lt. rewrite Z.gtb_lt.
  destruct (Z.eqb_spec (row p - row q) 0); lia.
Qed.

(** The answer of the loop: the node itself, or the answer of a descent
    into a child that is an element. *)
Lemma findNode_loop_cases rec h node p pp l r :
  findNode_loop rec h node p pp l = Some r ->
  r = node \/
  exists c cn, c ∈ l /\ h !! c = Some cn /\ isElement cn = true /\
    pos_lt (startPos cn) p /\ pos_lt p (endPos cn) /\ rec c = Some r.
Proof.
  induction l as [|c l IH]; simpl; intros Hl.
  - left. congruence.
  - destruct (h !! c) as [cn|] eqn:Hc; [|discriminate].
    assert (Hnext : findNode_loop rec h node p pp l = Some r ->
              r = node \/ exists c0 cn0, c0 ∈ c :: l /\ h !! c0 = Some cn0 /\
                isElement cn0 = true /\ pos_lt (startPos cn0) p /\
                pos_lt p (endPos cn0) /\ rec c0 = Some r).
    { intros H. apply IH in H as [|(c0 & cn0 & Hin & H)]; [by left|].
      right. exists c0, cn0. split; [by right | done]. }
    destruct (children cn) as [ch|] eqn:Hch; [|auto].
    destruct (comparePoints p (endPos cn) <? 0) eqn:C1.
    + destruct (comparePoints p (startPos cn) >? 0) eqn:C2.
      * right. exists c, cn. split; [left|]. split; [done|].
        unfold isElement. rewrite Hch. apply cmp_lt in C1. apply cmp_gt in C2.
        done.
      * left. congruence.
    + destruct (pp && (comparePoints p (endPos cn) =? 0)); [left; congruence | auto].
Qed.

Lemma findNode_loop_total rec h node p pp l :
  (forall c, c ∈ l -> is_Some (h !! c)) ->
  (forall c cn, c ∈ l -> h !! c = Some cn -> isElement cn = true ->
     is_Some (rec c)) ->
  is_Some (findNode_loop rec h node p pp l).
Proof.
  induction l as [|c l IH]; simpl; intros Hin Hrec; [eauto|].
  destruct (Hin c) as [cn Hc]; [left|]. rewrite Hc.
  assert (Hnext : is_Some (findNode_loop rec h node p pp l)).
  { apply IH; intros; [apply Hin | eapply Hrec]; eauto; by right. }
  destruct (children cn) as [ch|] eqn:Hch; [|done].
  repeat case_match; eauto. eapply Hrec; [left | done |].
  unfold isElement. by rewrite Hch.
Qed.

Lemma repr_kid_lookup h a ks c :
  repr h (Shape a ks) -> c ∈ map root ks ->
  exists k, k ∈ ks /\ root k = c /\ repr h k.
Proof.
  intros Hr Hc. apply repr_inv in Hr as (_ & _ & _ & _ & Hks).
  apply list_elem_of_In, in_map_iff in Hc as (k & <- & Hk).
  apply list_elem_of_In in Hk. exists k. split; [done|]. split; [done|].
  rewrite Forall_forall in Hks. auto.
Qed.

Lemma repr_root h s : repr h s -> is_Some (h !! root s).
Proof. inversion 1; simpl; eauto. Qed.

Lemma findNode_total s : forall fuel h p pp,
  repr h s -> (height s < fuel)%nat ->
  exists r, findNode fuel h (Some (root s)) p pp = Some (Some r) /\
    r ∈ addrs s /\
    (r = root s \/ exists n, h !! r = Some n /\ isElement n = true).
Proof.
  induction s as [a ks IH] using shape_ind'. intros fuel h p pp Hr Hfuel.
  destruct fuel as [|fuel]; [lia|]. simpl in Hfuel. simpl.
  pose proof Hr as Hr0.
  apply repr_inv in Hr as (n & Hn & Hch & Hnil & Hks). rewrite Hn, Hch.
  rewrite Forall_forall in IH.
  assert (Hkid : forall c, c ∈ map root ks ->
            exists k, k ∈ ks /\ root k = c /\ repr h k /\ (height k < fuel)%nat).
  { intros c Hc. destruct (repr_kid_lookup h a ks c Hr0 Hc) as (k & Hk & <- & Hrk).
    exists k. repeat split; auto. apply height_kid in Hk. lia. }
  destruct (findNode_loop_total
              (fun c => findNode fuel h (Some c) p pp) h (Some a) p pp (map root ks))
    as [r Hloop].
  { intros c Hc. destruct (Hkid c Hc) as (k & _ & <- & Hrk & _). by apply repr_root. }
  { intros c cn Hc _ _. destruct (Hkid c Hc) as (k & Hk & <- & Hrk & Hh).
    destruct (IH k Hk fuel h p pp Hrk Hh) as (r & -> & _). eauto. }
  rewrite Hloop. apply findNode_loop_cases in Hloop as [->|(c & cn & Hc & Hcn & He & _ & _ & Hrec)].
  - exists a. split; [done|]. split; [left | by left].
  - destruct (Hkid c Hc) as (k & Hk & <- & Hrk & Hh).
    destruct (IH k Hk fuel h p pp Hrk Hh) as (r' & Hr' & Hin & Hcase).
    rewrite Hr' in Hrec. injection Hrec as <-. exists r'. split; [done|].
    split; [eapply kid_addrs; eauto|]. right.
    destruct Hcase as [->|]; eauto.
Qed.

Lemma findNode_loop_self rec h node p pp l :
  (forall c, c ∈ l -> is_Some (h !! c)) ->
  (forall c cn, c ∈ l -> h !! c = Some cn -> isElement cn = true ->
     ~ (pos_lt (startPos cn) p /\ pos_lt p (endPos cn))) ->
  findNode_loop rec h node p pp l = Some node.
Proof.
  induction l as [|c l IH]; simpl; intros Hin Hout; [done|].
  destruct (Hin c) as [cn Hc]; [left|]. rewrite Hc.
  assert (Hnext : findNode_loop rec h node p pp l = Some node).
  { apply IH; intros; [apply Hin | eapply Hout]; eauto; by right. }
  destruct (children cn) as [ch|] eqn:Hch; [|done].
  destruct (comparePoints p (endPos cn) <? 0) eqn:C1.
  - destruct (comparePoints p (startPos cn) >? 0) eqn:C2; [|done].
    exfalso. apply (Hout c cn); [left | done | |].
    + unfold isElement. by rewrite Hch.
    + apply cmp_lt in C1. apply cmp_gt in C2. done.
  - by destruct (pp && (comparePoints p (endPos cn) =? 0)).
Qed.

Lemma findNode_self h a ks p pp fuel :
  repr h (Shape a ks) -> (0 < fuel)%nat ->
  (forall c cn, c ∈ map root ks -> h !! c = Some cn -> isElement cn = true ->
     ~ (pos_lt (startPos cn) p /\ pos_lt p (endPos cn))) ->
  findNode fuel h (Some a) p pp = Some (Some a).
Proof.
  intros Hr Hfuel Hout. destruct fuel as [|fuel]; [lia|]. simpl.
  pose proof Hr as Hr0.
  apply repr_inv in Hr as (n & Hn & Hch & Hnil & Hks). rewrite Hn, Hch.
  apply findNode_loop_self; [|done].
  intros c Hc. destruct (repr_kid_lookup h a ks c Hr0 Hc) as (k & _ & <- & Hrk).
  by apply repr_root.
Qed.

(** C10.  Without a cached tree the identifier at a position is -1.  With
    a cached tree whose root is an element, the lookup terminates and the
    node it returns is a node of the tree that has a children array, an
    element and never a text run; and a position that is not strictly
    inside the span of any child element of a node resolves to that node
    itself. *)
Theorem findNode_element (h : gmap positive node) (s : shape) (fuel : nat)
    (p : pos) (preferParent : bool) (rn : node) :
  repr h s -> (height s < fuel)%nat ->
  h !! root s = Some rn -> isElement rn = true ->
  (forall f, _getTagIDAtDocumentPos (S f) (Session None) p h = Some (JNum (-1))) /\
  (exists r n,
     _getNodeAtDocumentPos fuel (Session (Some (root s))) p preferParent h
     = Some (Some r) /\
     r ∈ addrs s /\ h !! r = Some n /\ isElement n = true) /\
  (exists r n,
     _getTagIDAtDocumentPos fuel (Session (Some (root s))) p h = Some (tagID n) /\
     r ∈ addrs s /\ h !! r = Some n /\ isElement n = true) /\
  ((forall c cn, c ∈ map root (kids s) -> h !! c = Some cn ->
      isElement cn = true ->
      ~ (pos_lt (startPos cn) p /\ pos_lt p (endPos cn))) ->
   _getNodeAtDocumentPos fuel (Session (Some (root s))) p preferParent h
   = Some (Some (root s))).
Proof.
  intros Hr Hfuel Hrn He.
  assert (Hfind : forall pp, exists r n,
            findNode fuel h (Some (root s)) p pp = Some (Some r) /\
            r ∈ addrs s /\ h !! r = Some n /\ isElement n = true).
  { intros pp. destruct (findNode_total s fuel h p pp Hr Hfuel)
      as (r & Hf & Hin & [->|(n & Hn & Hen)]); eauto 10. }
  split; [done|]. split; [apply Hfind|]. split.
  - destruct (Hfind false) as (r & n & Hf & Hin & Hn & Hen).
    exists r, n. unfold _getTagIDAtDocumentPos, _getNodeAtDocumentPos. simpl.
    rewrite Hf, Hn. done.
  - intros Hout. destruct s as [a ks]. apply (findNode_self h a ks); [done|lia|done].
Qed.

Lemma findNode_element_witness :
  (forall f, _getTagIDAtDocumentPos (S f) (Session None) (Pos 0 7) ex_heap
             = Some (JNum (-1))) /\
  (exists r n,
     _getNodeAtDocumentPos 4 (Session (Some 1%positive)) (Pos 0 7) true ex_heap
     = Some (Some r) /\
     r ∈ addrs ex_shape /\ ex_heap !! r = Some n /\ isElement n = true) /\
  (exists r n,
     _getTagIDAtDocumentPos 4 (Session (Some 1%positive)) (Pos 0 7) ex_heap
     = Some (tagID n) /\
     r ∈ addrs ex_shape /\ ex_heap !! r = Some n /\ isElement n = true) /\
  ((forall c cn, c ∈ map root (kids ex_shape) -> ex_heap !! c = Some cn ->
      isElement cn = true ->
      ~ (pos_lt (startPos cn) (Pos 0 7) /\ pos_lt (Pos 0 7) (endPos cn))) ->
   _getNodeAtDocumentPos 4 (Session (Some 1%positive)) (Pos 0 7) true ex_heap
   = Some (Some 1%positive)).
Proof.
  eapply (findNode_element ex_heap ex_shape 4 (Pos 0 7) true).
  - exact ex_repr.
  - simpl. lia.
  - vm_compute. reflexivity.
  - reflexivity.
Defined.

(** ** The identifier policy *)

(** The chain of [parent] links from a node up to [null]. *)
Inductive parent_chain (h : gmap positive node) : option addr -> list addr -> Prop :=
| chain_end : parent_chain h None []
| chain_step a n l :
    h !! a = Some n -> parent_chain h (parent n) l ->
    parent_chain h (Some a) (a :: l).

(** One of the nodes [l] carries the identifier [id]. *)
Definition carries_id (h : gmap positive node) (l : list addr) (id : jsval) : Prop :=
  exists a n, a ∈ l /\ h !! a = Some n /\ tagID n = id.

Lemma hasAncestor_loop_spec h o l id :
  parent_chain h o l ->
  forall fuel, (length l < fuel)%nat ->
  exists b, hasAncestor_loop fuel h o id = Some b /\
            (b = true <-> carries_id h l id).
Proof.
  induction 1 as [|a n l Ha Hc IH]; intros fuel Hfuel;
    (destruct fuel as [|fuel]; [simpl in Hfuel; lia|]); simpl.
  - exists false. split; [done|]. split; [done|].
    intros (a & n & Hin & _). inversion Hin.
  - rewrite Ha. simpl. unfold strict_eq.
    destruct (decide (tagID n = id)) as [He|Hne].
    + rewrite bool_decide_eq_true_2 by done. simpl. exists true.
      split; [done|]. split; [|done]. intros _. exists a, n. split; [left|done].
    + rewrite bool_decide_eq_false_2 by done. simpl.
      destruct (IH fuel) as (b & Hb & Hiff); [simpl in Hfuel; lia|].
      exists b. split; [done|]. rewrite Hiff. split.
      * intros (a' & n' & Hin & H'). exists a', n'. split; [by right|done].
      * intros (a' & n' & Hin & Hn' & Hid).
        apply elem_of_cons in Hin as [->|Hin].
        -- rewrite Ha in Hn'. injection Hn' as <-. done.
        -- exists a', n'. done.
Qed.

Section GetID.
Context `{Env}.

(** When [getID] mints a fresh identifier. *)
Definition fresh_case (h : gmap positive node) (u : DOMUpdater)
    (ancestors : list addr) (nt : node) (found : jsval) : Prop :=
  found = JNum (-1) \/
  carries_id h ancestors found \/
  (exists prev pn m, previousDOM u = Some prev /\ h !! prev = Some pn /\
     nodeMap pn = Some m /\
     (m !! key_of found = None \/
      exists o oldNode, m !! key_of found = Some o /\ h !! o = Some oldNode /\
        tag oldNode <> tag nt)).

(** C3.  [getID] mints a fresh identifier when the lookup at the tag's
    position answers -1, when the identifier found is carried by an
    ancestor of the new tag, or when the previous tree maps the identifier
    to no node or to a node with another tag name; in every other case it
    returns the identifier found and leaves the generator alone. *)
Theorem getID_policy (fuel : nat) (u : DOMUpdater) (s : session)
    (newTag : addr) (g : idgen) (h : gmap positive node) (nt : node)
    (found : jsval) (ancestors : list addr) :
  h !! newTag = Some nt ->
  _getTagIDAtDocumentPos fuel s (_offsetPos (startPos nt) 1) h = Some found ->
  parent_chain h (parent nt) ancestors -> (length ancestors < fuel)%nat ->
  (found = JNum (-1) \/ carries_id h ancestors found \/
   exists prev pn m, previousDOM u = Some prev /\ h !! prev = Some pn /\
     nodeMap pn = Some m /\
     forall o, m !! key_of found = Some o -> is_Some (h !! o)) ->
  (fresh_case h u ancestors nt found ->
   getID fuel u s newTag g h = Some (getNewID g)) /\
  (~ fresh_case h u ancestors nt found ->
   getID fuel u s newTag g h = Some (found, g)).
Proof.
  intros Hnt Hfound Hchain Hfuel Hprev.
  unfold getID. rewrite Hnt. simpl. rewrite Hfound. simpl.
  unfold strict_eq. destruct (decide (found = JNum (-1))) as [Hm|Hm].
  { rewrite bool_decide_eq_true_2 by done. split; [done|].
    intros Hn. exfalso. apply Hn. by left. }
  rewrite bool_decide_eq_false_2 by done.
  unfold _hasAncestorWithID. rewrite Hnt. simpl.
  destruct (hasAncestor_loop_spec h _ _ found Hchain fuel Hfuel) as (b & -> & Hb).
  simpl. destruct b.
  { split; [done|]. intros Hn. exfalso. apply Hn. right. left. by apply Hb. }
  assert (Hnc : ~ carries_id h ancestors found) by (rewrite <- Hb; discriminate).
  destruct Hprev as [?|[?|(prev & pn & m & Hp & Hpn & Hm' & Hclosed)]]; [done..|].
  rewrite Hp. simpl. rewrite Hpn. simpl. rewrite Hm'. simpl.
  destruct (m !! key_of found) as [o|] eqn:Ho.
  2:{ split; [done|]. intros Hn. exfalso. apply Hn. right. right.
      exists prev, pn, m. auto. }
  destruct (Hclosed o eq_refl) as [oldNode Hold]. rewrite Hold. simpl.
  destruct (String.eqb_spec (tag oldNode) (tag nt)) as [Heq|Hneq]; simpl.
  - split; [|done]. intros [?|[?|(prev' & pn' & m' & Hp' & Hpn' & Hm'' & Hc)]]; [done..|].
    exfalso. rewrite Hp in Hp'. injection Hp' as <-.
    rewrite Hpn in Hpn'. injection Hpn' as <-.
    rewrite Hm' in Hm''. injection Hm'' as <-.
    destruct Hc as [Hc|(o' & on' & Ho' & Hon' & Ht)]; [congruence|].
    rewrite Ho in Ho'. injection Ho' as <-. rewrite Hold in Hon'.
    injection Hon' as <-. done.
  - split; [done|]. intros Hn. exfalso. apply Hn. right. right.
    exists prev, pn, m. repeat split; try done. right. eauto.
Qed.
End GetID.

(** *** An incremental reparse of the inner element *)

(** The heap after the builder has parsed the inner element again: the new
    subtree is the element at address 10 with the text run 11. *)
Definition ex_new_root : node :=
  set_nodeMap (Some (<["2" := 10%positive]> (<["2.0" := 11%positive]> ∅)))
    (ex_node (JNum 2) "p" (Pos 0 3) (Pos 0 9) (Some [11%positive]) None).

Definition ex_heap2 : gmap positive node :=
  <[10%positive := ex_new_root]>
  (<[11%positive := ex_node (JStr "2.0") "" (Pos 0 6) (Pos 0 9) None
       (Some 10%positive)]> ex_heap).

Definition ex_session : session := Session (Some 1%positive).

Definition ex_updater : DOMUpdater :=
  MkDOMUpdater true (JNum 2) "<p>hi!</p>" 3 (Some (Pos 0 3)) (Some 1%positive).

Lemma getID_policy_witness :
  (fresh_case ex_heap2 ex_updater [] ex_new_root (JNum 2) ->
   getID (H := ex_env) 4 ex_updater ex_session 10 7 ex_heap2
   = Some (getNewID (Env := ex_env) 7)) /\
  (~ fresh_case ex_heap2 ex_updater [] ex_new_root (JNum 2) ->
   getID (H := ex_env) 4 ex_updater ex_session 10 7 ex_heap2 = Some (JNum 2, 7)).
Proof.
  apply (getID_policy (H := ex_env) 4 ex_updater ex_session 10 7 ex_heap2).
  - vm_compute. reflexivity.
  - vm_compute. reflexivity.
  - apply chain_end.
  - simpl. lia.
  - right. right. eexists _, _, _. split; [reflexivity|].
    split; [vm_compute; reflexivity|]. split; [reflexivity|].
    intros o Ho. vm_compute in Ho. injection Ho as <-. eexists.
    vm_compute. reflexivity.
Defined.

(** ** The updater *)

(** ** Heaps related node by node *)

Definition heap_rel (R : addr -> node -> node -> Prop)
    (h h' : gmap positive node) : Prop :=
  forall a, match h !! a, h' !! a with
            | Some n, Some n' => R a n n'
            | None, None => True
            | _, _ => False
            end.

Lemma heap_rel_refl (R : addr -> node -> node -> Prop) h :
  (forall a n, R a n n) -> heap_rel R h h.
Proof. intros HR a. destruct (h !! a); auto. Qed.

Lemma heap_rel_trans (R1 R2 R3 : addr -> node -> node -> Prop) h1 h2 h3 :
  (forall a n n' n'', R1 a n n' -> R2 a n' n'' -> R3 a n n'') ->
  heap_rel R1 h1 h2 -> heap_rel R2 h2 h3 -> heap_rel R3 h1 h3.
Proof.
  intros HR H1 H2 a. specialize (H1 a). specialize (H2 a).
  destruct (h1 !! a), (h2 !! a), (h3 !! a); try tauto; eauto.
Qed.

Lemma heap_rel_insert (R : addr -> node -> node -> Prop) h a n n' :
  h !! a = Some n -> R a n n' -> (forall b m, b <> a -> R b m m) ->
  heap_rel R h (<[a := n']> h).
Proof.
  intros Ha Hn HR b. destruct (decide (a = b)) as [<-|Hne].
  - by rewrite lookup_insert_eq, Ha.
  - rewrite lookup_insert_ne by done. destruct (h !! b); auto.
Qed.

Lemma heap_rel_modify (R : addr -> node -> node -> Prop) h h' a f :
  modify a f h = Some h' -> (forall n, R a n (f n)) ->
  (forall b m, b <> a -> R b m m) ->
  heap_rel R h h'.
Proof.
  unfold modify. destruct (h !! a) as [n|] eqn:Ha; [|discriminate].
  intros [= <-] Hf HR. eapply heap_rel_insert; eauto.
Qed.

Lemma heap_rel_impl (R1 R2 : addr -> node -> node -> Prop) h h' :
  (forall a n n', R1 a n n' -> R2 a n n') -> heap_rel R1 h h' -> heap_rel R2 h h'.
Proof.
  intros HR H a. specialize (H a). destruct (h !! a), (h' !! a); auto.
Qed.

(** ** [_handleDeletions] *)

Lemma foldl_delete_lookup (new : gmap string addr) l : forall (m : gmap string addr) k,
  foldl (fun m key => match new !! key with
                      | Some _ => m
                      | None => delete key m
                      end) m l !! k =
  if decide (k ∈ l /\ new !! k = None) then None else m !! k.
Proof.
  induction l as [|key l IH]; intros m k; simpl.
  - destruct (decide (k ∈ [] /\ new !! k = None)) as [[Hin _]|]; [inversion Hin|done].
  - rewrite IH. destruct (decide (key = k)) as [->|Hne].
    + destruct (new !! k) eqn:Hn.
      * repeat case_decide; try done; naive_solver.
      * rewrite (decide_True (P := k ∈ k :: l /\ None = None)) by (split; [left|done]).
        case_decide; [done|]. by rewrite lookup_delete_eq.
    + assert (Hm : (match new !! key with Some _ => m | None => delete key m end) !! k = m !! k).
      { destruct (new !! key); [done|]. by rewrite lookup_delete_ne. }
      rewrite Hm. repeat case_decide; try done; exfalso; set_solver.
Qed.

Lemma handleDeletions_lookup (m old new : gmap string addr) k :
  _handleDeletions m old new !! k =
  if decide (is_Some (old !! k) /\ new !! k = None) then None else m !! k.
Proof.
  unfold _handleDeletions. rewrite foldl_delete_lookup.
  assert (Hkeys : k ∈ map fst (map_to_list old) <-> is_Some (old !! k)).
  { rewrite list_elem_of_In, in_map_iff. split.
    - intros ([k0 a] & <- & Hin). apply list_elem_of_In, elem_of_map_to_list in Hin.
      simpl. eauto.
    - intros [a Ha]. exists (k, a). split; [done|].
      by apply list_elem_of_In, elem_of_map_to_list. }
  repeat case_decide; try done; exfalso; naive_solver.
Qed.

(** ** [_buildNodeMap] *)

(** The node at [a] carries a truthy identifier whose key is [k]. *)
Definition has_key (h : gmap positive node) (a : addr) (k : string) : Prop :=
  exists n, h !! a = Some n /\ truthy (tagID n) = true /\ key_of (tagID n) = k.

(** Entering the nodes [l] one after the other, as the walk does. *)
Definition enter (h : gmap positive node) (m : gmap string addr) (a : addr)
    : gmap string addr :=
  match h !! a with
  | Some n => if truthy (tagID n) then <[key_of (tagID n) := a]> m else m
  | None => m
  end.

Lemma buildNodeMap_walk_spec s : forall fuel h m,
  repr h s -> (height s < fuel)%nat ->
  buildNodeMap_walk fuel h (root s) m = Some (foldl (enter h) m (addrs s)).
Proof.
  induction s as [a ks IH] using shape_ind'. intros fuel h m Hr Hfuel.
  destruct fuel as [|fuel]; [lia|]. simpl in Hfuel.
  apply repr_inv in Hr as (n & Hn & Hch & Hnil & Hks).
  set (m1 := if truthy (tagID n) then <[key_of (tagID n):=a]> m else m).
  assert (Hm1 : foldl (enter h) m (addrs (Shape a ks))
                = foldl (enter h) m1 (concat (map addrs ks))).
  { simpl. f_equal. unfold enter. by rewrite Hn. }
  rewrite Hm1. clear Hm1. cbn [buildNodeMap_walk root]. rewrite Hn. simpl.
  fold m1.
  destruct (children n) as [ch|] eqn:Hc.
  2:{ rewrite Hnil by done. done. }
  simpl in Hch. subst ch.
  assert (Hh : Forall (fun k => (height k < fuel)%nat) ks).
  { rewrite Forall_forall. intros k Hk. apply height_kid in Hk. lia. }
  clear Hc Hnil Hn Hfuel. generalize m1. clear m1.
  induction ks as [|k ks IHks]; intros m1; simpl; [done|].
  inversion IH as [|? ? IHk IHrest]; subst.
  inversion Hks as [|? ? Hrk Hrks]; subst.
  inversion Hh as [|? ? Hhk Hhks]; subst.
  rewrite (IHk fuel h m1 Hrk Hhk). rewrite foldl_app. apply IHks; auto.
Qed.

Lemma enter_lookup h l : forall m k,
  is_Some (foldl (enter h) m l !! k) <->
  is_Some (m !! k) \/ exists a, a ∈ l /\ has_key h a k.
Proof.
  induction l as [|a l IH]; intros m k; simpl.
  - split; [auto|]. intros [|(a & Hin & _)]; [done|inversion Hin].
  - rewrite IH. unfold enter, has_key.
    destruct (h !! a) as [n|] eqn:Ha.
    2:{ split.
        - intros [|(b & Hin & Hb)]; [by left|]. right. exists b. split; [by right|done].
        - intros [|(b & Hin & nb & Hnb & Hb)]; [by left|]. right.
          apply elem_of_cons in Hin as [->|Hin]; [congruence|]. exists b. eauto. }
    destruct (truthy (tagID n)) eqn:Ht.
    + split.
      * intros [Hs|(b & Hin & Hb)].
        -- destruct (decide (key_of (tagID n) = k)) as [<-|Hne].
           ++ right. exists a. split; [left|]. eauto.
           ++ rewrite lookup_insert_ne in Hs by done. by left.
        -- right. exists b. split; [by right|done].
      * intros [Hs|(b & Hin & nb & Hnb & Hb1 & Hb2)].
        -- left. destruct (decide (key_of (tagID n) = k)) as [<-|Hne].
           ++ rewrite lookup_insert_eq. eauto.
           ++ by rewrite lookup_insert_ne.
        -- apply elem_of_cons in Hin as [->|Hin].
           ++ left. rewrite Ha in Hnb. injection Hnb as <-. rewrite Hb2.
              rewrite lookup_insert_eq. eauto.
           ++ right. exists b. split; [done|]. eauto.
    + split.
      * intros [|(b & Hin & Hb)]; [by left|]. right. exists b. split; [by right|done].
      * intros [|(b & Hin & nb & Hnb & Hb1 & Hb2)]; [by left|].
        apply elem_of_cons in Hin as [->|Hin].
        -- rewrite Ha in Hnb. injection Hnb as <-. congruence.
        -- right. exists b. split; [done|]. eauto.
Qed.

(** ** Field-wise description of heap changes *)

(** The node keeps everything but, possibly, its links, its [nodeMap] and
    its signature; [fc] and [fp] say what becomes of [children] and
    [parent]. *)
Definition fields_rel
    (fc : addr -> option (list addr) -> option (list addr))
    (fp : addr -> option addr -> option addr)
    (a : addr) (n n' : node) : Prop :=
  tagID n' = tagID n /\ tag n' = tag n /\ attributes n' = attributes n /\
  content n' = content n /\ startPos n' = startPos n /\
  endPos n' = endPos n /\ errors n' = errors n /\
  children n' = fc a (children n) /\ parent n' = fp a (parent n).

Definition keep {A} (a : addr) (x : A) : A := x.

Lemma fields_rel_refl a n : fields_rel keep keep a n n.
Proof. unfold fields_rel, keep. tauto. Qed.

Lemma fields_rel_trans fc1 fp1 fc2 fp2 a n n' n'' :
  fields_rel fc1 fp1 a n n' -> fields_rel fc2 fp2 a n' n'' ->
  fields_rel (fun a c => fc2 a (fc1 a c)) (fun a q => fp2 a (fp1 a q)) a n n''.
Proof.
  unfold fields_rel. intros (?&?&?&?&?&?&?&?&?) (?&?&?&?&?&?&?&?&?).
  repeat split; congruence.
Qed.

Lemma heap_rel_insert_keep h a n n' :
  h !! a = Some n -> fields_rel keep keep a n n' ->
  heap_rel (fields_rel keep keep) h (<[a := n']> h).
Proof. intros. eapply heap_rel_insert; eauto using fields_rel_refl. Qed.

Lemma heap_rel_keep_trans h1 h2 h3 :
  heap_rel (fields_rel keep keep) h1 h2 -> heap_rel (fields_rel keep keep) h2 h3 ->
  heap_rel (fields_rel keep keep) h1 h3.
Proof.
  apply heap_rel_trans. intros a n n' n'' H1 H2.
  apply (fields_rel_trans _ _ _ _ _ _ _ _ H1 H2).
Qed.

Lemma parent_chain_rel h h' o l :
  heap_rel (fields_rel keep keep) h h' -> parent_chain h o l -> parent_chain h' o l.
Proof.
  intros Hrel. induction 1 as [|a n l Ha Hc IH]; [constructor|].
  specialize (Hrel a) as Hrela. rewrite Ha in Hrela.
  destruct (h' !! a) as [n'|] eqn:Ha'; [|done].
  econstructor; [done|]. destruct Hrela as (_&_&_&_&_&_&_&_&Hp).
  unfold keep in Hp. by rewrite Hp.
Qed.

Section Signatures.
Context `{Env}.

Lemma node_update_rel a h h' :
  node_update a h = Some h' -> heap_rel (fields_rel keep keep) h h'.
Proof.
  unfold node_update. intros Hm. eapply heap_rel_modify; [exact Hm| |].
  - intros n. unfold fields_rel, keep. by destruct n.
  - intros. apply fields_rel_refl.
Qed.

Lemma update_signatures_rel fuel : forall o h h',
  update_signatures fuel o h = Some h' -> heap_rel (fields_rel keep keep) h h'.
Proof.
  induction fuel as [|fuel IH]; intros o h h' Hu; simpl in Hu; [discriminate|].
  destruct o as [a|].
  2:{ injection Hu as <-. apply heap_rel_refl, fields_rel_refl. }
  destruct (node_update a h) as [h1|] eqn:Hn; [|discriminate]. simpl in Hu.
  destruct (h1 !! a) as [n|]; [|discriminate]. simpl in Hu.
  eapply heap_rel_keep_trans; [by eapply node_update_rel | by eapply IH].
Qed.

Lemma update_signatures_total h o l :
  parent_chain h o l -> forall fuel, (length l < fuel)%nat ->
  is_Some (update_signatures fuel o h).
Proof.
  intros Hc. revert o h Hc. induction l as [|a l IH]; intros o h Hc fuel Hfuel;
    (destruct fuel as [|fuel]; [simpl in Hfuel; lia|]); simpl;
    inversion Hc as [|a0 n l0 Ha Hc']; subst; [eauto|].
  unfold node_update, modify. rewrite Ha. simpl. rewrite lookup_insert_eq. simpl.
  apply IH; [|simpl in Hfuel; lia].
  eapply parent_chain_rel; [|exact Hc'].
  eapply heap_rel_insert_keep; [done|]. unfold fields_rel, keep. by destruct n.
Qed.

End Signatures.

Lemma buildNodeMap_rel fuel r h h' :
  _buildNodeMap fuel r h = Some h' -> heap_rel (fields_rel keep keep) h h'.
Proof.
  unfold _buildNodeMap. destruct (buildNodeMap_walk fuel h r ∅) as [m|]; [|discriminate].
  simpl. intros Hm. eapply heap_rel_modify; [exact Hm| |].
  - intros n. unfold fields_rel, keep. by destruct n.
  - intros. apply fields_rel_refl.
Qed.

Section Splice.
Context `{Env}.

(** What the swap does to links: the parent's [children] takes the new
    subtree at the old one's index, the new subtree points to the parent
    and the old one to nothing. *)
Definition swap_children (p new : addr) (i : nat) (a : addr)
    (c : option (list addr)) : option (list addr) :=
  if decide (a = p) then (fun ch => <[i := new]> ch) <$> c else c.

Definition swap_parent (p old new : addr) (a : addr) (q : option addr)
    : option addr :=
  if decide (a = new) then Some p else if decide (a = old) then None else q.

Lemma splice_effect fuel prev old new p i h h' :
  splice fuel prev old new p i h = Some h' ->
  heap_rel (fields_rel (swap_children p new i) (swap_parent p old new)) h h'.
Proof.
  unfold splice. intros Hs.
  destruct (modify old (set_parent None) h) as [h1|] eqn:E1; [|discriminate].
  simpl in Hs.
  destruct (modify new (set_parent (Some p)) h1) as [h2|] eqn:E2; [|discriminate].
  simpl in Hs.
  destruct (h2 !! p) as [pn|] eqn:Ep; [|discriminate]. simpl in Hs.
  destruct (children pn) as [ch|] eqn:Ech; [|discriminate]. simpl in Hs.
  set (h3 := <[p := set_children (Some (<[i:=new]> ch)) pn]> h2) in *.
  destruct (h3 !! prev) as [prevn|] eqn:Eprev; [|discriminate]. simpl in Hs.
  destruct (nodeMap prevn) as [prevMap|] eqn:Epm; [|discriminate]. simpl in Hs.
  destruct (h3 !! new) as [newn|] eqn:Enew; [|discriminate]. simpl in Hs.
  set (h4 := <[prev := _]> h3) in *.
  destruct (_buildNodeMap fuel old h4) as [h5|] eqn:E5; [|discriminate].
  simpl in Hs.
  destruct (h5 !! prev) as [prevn5|] eqn:Eprev5; [|discriminate]. simpl in Hs.
  destruct (nodeMap prevn5) as [prevMap5|]; [|discriminate]. simpl in Hs.
  destruct (h5 !! old) as [oldn5|]; [|discriminate]. simpl in Hs.
  destruct (nodeMap oldn5) as [oldMap5|]; [|discriminate]. simpl in Hs.
  destruct (h5 !! new) as [newn5|]; [|discriminate]. simpl in Hs.
  destruct (match nodeMap newn5 with
            | Some m => Some m
            | None => if decide (oldMap5 = ∅) then Some ∅ else None
            end) as [newMap5|]; [|discriminate]. simpl in Hs.
  set (h6 := <[prev := _]> h5) in *.
  assert (H1 : heap_rel (fields_rel keep
                 (fun a q => if decide (a = old) then None else q)) h h1).
  { eapply heap_rel_modify; [exact E1| |].
    - intros n. unfold fields_rel, keep. rewrite decide_True by done. by destruct n.
    - intros b m Hb. unfold fields_rel, keep. by rewrite decide_False. }
  assert (H2 : heap_rel (fields_rel keep
                 (fun a q => if decide (a = new) then Some p else q)) h1 h2).
  { eapply heap_rel_modify; [exact E2| |].
    - intros n. unfold fields_rel, keep. rewrite decide_True by done. by destruct n.
    - intros b m Hb. unfold fields_rel, keep. by rewrite decide_False. }
  assert (H3 : heap_rel (fields_rel (swap_children p new i) keep) h2 h3).
  { eapply heap_rel_insert; [exact Ep| |].
    - unfold fields_rel, keep, swap_children. rewrite decide_True by done.
      rewrite Ech. by destruct pn.
    - intros b m Hb. unfold fields_rel, keep, swap_children.
      by rewrite decide_False. }
  assert (H4 : heap_rel (fields_rel keep keep) h3 h4).
  { eapply heap_rel_insert_keep; [exact Eprev|].
    unfold fields_rel, keep. by destruct prevn. }
  assert (H5 : heap_rel (fields_rel keep keep) h4 h5) by (by eapply buildNodeMap_rel).
  assert (H6 : heap_rel (fields_rel keep keep) h5 h6).
  { eapply heap_rel_insert_keep; [exact Eprev5|].
    unfold fields_rel, keep. by destruct prevn5. }
  assert (H7 : heap_rel (fields_rel keep keep) h6 h')
    by (by eapply update_signatures_rel).
  pose proof (heap_rel_keep_trans _ _ _ H4
               (heap_rel_keep_trans _ _ _ H5 (heap_rel_keep_trans _ _ _ H6 H7))) as H47.
  clear -H1 H2 H3 H47.
  intros a. specialize (H1 a). specialize (H2 a). specialize (H3 a). specialize (H47 a).
  destruct (h !! a) as [n0|], (h1 !! a) as [n1|], (h2 !! a) as [n2|],
    (h3 !! a) as [n3|], (h' !! a) as [n4|]; try tauto.
  unfold fields_rel, keep, swap_children, swap_parent in *.
  destruct H1 as (?&?&?&?&?&?&?&?&?), H2 as (?&?&?&?&?&?&?&?&?),
    H3 as (?&?&?&?&?&?&?&?&?), H47 as (?&?&?&?&?&?&?&?&?).
  repeat split; try congruence.
  all: repeat case_decide; try congruence.
Qed.
End Splice.

Section UpdateFacts.
Context `{Env}.

Lemma new_DOMUpdater_positions fuel prev s d h u h1 :
  new_DOMUpdater fuel (Some prev) s (Some d) h = Some (u, h1) ->
  PositionTracker.updatePositions d fuel prev h = Some h1 /\
  previousDOM u = Some prev.
Proof.
  unfold new_DOMUpdater. destruct (delta_text d) as [t|]; [|discriminate]. simpl.
  destruct (PositionTracker.updatePositions d fuel prev h) as [h0|]; [|discriminate].
  simpl. intros Hu.
  destruct (nonempty t && negb (isDangerousEdit t)).
  - destruct (_getNodeAtDocumentPos fuel s (start (d_range d)) true h0)
      as [[a|]|]; simpl in Hu; try discriminate.
    + destruct (h0 !! a); simpl in Hu; [|discriminate]. by injection Hu as <- <-.
    + by injection Hu as <- <-.
  - by injection Hu as <- <-.
Qed.

(** A changed tag is the identifier of the node that encloses the start
    of the edit. *)
Lemma new_DOMUpdater_changed fuel prev s dl h u h1 :
  new_DOMUpdater fuel prev s dl h = Some (u, h1) ->
  truthy (changedTagID u) = true ->
  exists d a n, dl = Some d /\
    _getNodeAtDocumentPos fuel s (start (d_range d)) true h1 = Some (Some a) /\
    h1 !! a = Some n /\ changedTagID u = tagID n /\
    isIncremental u = true /\ previousDOM u = prev.
Proof.
  unfold new_DOMUpdater. intros Hu Ht.
  destruct dl as [d|]; simpl in Hu.
  2:{ injection Hu as <- <-. discriminate. }
  destruct (delta_text d) as [t|]; [|discriminate]. simpl in Hu.
  destruct (match prev with
            | Some prev0 => PositionTracker.updatePositions d fuel prev0 h
            | None => Some h
            end) as [h0|]; [|discriminate]. simpl in Hu.
  destruct (nonempty t && negb (isDangerousEdit t)).
  2:{ injection Hu as <- <-. discriminate. }
  destruct (_getNodeAtDocumentPos fuel s (start (d_range d)) true h0)
    as [[a|]|] eqn:Hf; simpl in Hu; try discriminate.
  2:{ injection Hu as <- <-. discriminate. }
  destruct (h0 !! a) as [n|] eqn:Ha; simpl in Hu; [|discriminate].
  injection Hu as <- <-. exists d, a, n. simpl. done.
Qed.

Lemma new_DOMUpdater_total fuel s d t h :
  repr h s -> (height s < fuel)%nat -> delta_text d = Some t ->
  exists u h1,
    new_DOMUpdater fuel (Some (root s)) (Session (Some (root s))) (Some d) h
    = Some (u, h1).
Proof.
  intros Hr Hfuel Ht. unfold new_DOMUpdater. rewrite Ht. simpl.
  destruct (walk_total d s fuel h Hr Hfuel) as [h1 Hw].
  unfold PositionTracker.updatePositions. rewrite Hw. simpl.
  assert (Hr1 : repr h1 s).
  { apply walk_frame in Hw as [_ Hf]. eapply repr_links; [|exact Hr].
    by apply pos_frame_links. }
  destruct (nonempty t && negb (isDangerousEdit t)); [|eauto].
  destruct (findNode_total s fuel h1 (start (d_range d)) true Hr1 Hfuel)
    as (r & Hf & Hin & Hcase).
  unfold _getNodeAtDocumentPos. simpl. rewrite Hf. simpl.
  assert (Hsome : is_Some (h1 !! r)).
  { destruct Hcase as [->|(n & -> & _)]; [by apply repr_root | eauto]. }
  destruct Hsome as [n ->]. simpl. eauto.
Qed.

(** C8.  When the updater narrowed the parse to the node that encloses
    the start of the edit, and that node has no parent, [update] returns
    the default result: the old side is the whole previous tree, the new
    side and the new tree are the freshly parsed tree, and the heap is as
    the builder left it: nothing is swapped. *)
Theorem update_root_fallback (fuel : nat) (prev : option addr) (s : session)
    (dl : option delta) (h0 h h1 : gmap positive node) (u : DOMUpdater)
    (new : addr) (errs : option (list string)) (root_addr : addr)
    (prevn : node) (prevMap : gmap string addr) (old : addr) (oldn : node) :
  new_DOMUpdater fuel prev s dl h0 = Some (u, h) ->
  truthy (changedTagID u) = true ->
  build u s h = (Some new, errs, h1) ->
  prev = Some root_addr -> h1 !! root_addr = Some prevn ->
  nodeMap prevn = Some prevMap ->
  prevMap !! key_of (changedTagID u) = Some old ->
  h1 !! old = Some oldn -> parent oldn = None ->
  (exists d a n, dl = Some d /\
     _getNodeAtDocumentPos fuel s (start (d_range d)) true h = Some (Some a) /\
     h !! a = Some n /\ changedTagID u = tagID n /\ isIncremental u = true) /\
  update fuel u s h = Some (Some (MkResult new prev new), errs, s, h1).
Proof.
  intros Hctor Ht Hb -> Hprev Hmap Hold Holdn Hpar.
  destruct (new_DOMUpdater_changed _ _ _ _ _ _ _ Hctor Ht)
    as (d & a & n & -> & Hf & Ha & Hid & Hinc & Hp).
  split; [eauto 10|].
  unfold update. rewrite Hb, Ht, Hp. simpl. rewrite Hprev. simpl.
  rewrite Hmap. simpl. rewrite Hold. simpl. rewrite Holdn. simpl.
  by rewrite Hpar.
Qed.


(** An update whose build fails: the constructor runs, the positions of
    the cached tree are shifted first, and when the builder then yields no
    tree for the text the constructor chose, [getUnappliedEditList]
    returns a non-empty error list and neither tree nor edits, leaves
    [session.dom] as it was, and the heap is the one the builder was given
    (the shifted tree), with the error list noted on the cached root. *)
Lemma parse_error_state (fuel : nat) (s : shape) (d : delta) (t : string)
    (h : gmap positive node) :
  repr h s -> (height s < fuel)%nat -> delta_text d = Some t ->
  exists u h1,
    new_DOMUpdater fuel (Some (root s)) (Session (Some (root s))) (Some d) h
    = Some (u, h1) /\
    PositionTracker.updatePositions d fuel (root s) h = Some h1 /\
    forall errs h2 dn,
      build u (Session (Some (root s))) h1 = (None, errs, h2) ->
      h2 !! root s = Some dn ->
      (exists e es, errs = Some (e :: es)) /\
      getUnappliedEditList fuel (Session (Some (root s))) (Some d) h
      = Some (MkUpdate errs None None None, Session (Some (root s)),
              <[root s := set_errors errs dn]> h2).
Proof.
  intros Hr Hfuel Ht.
  destruct (new_DOMUpdater_total fuel s d t h Hr Hfuel Ht) as (u & h1 & Hctor).
  exists u, h1. split; [done|].
  destruct (new_DOMUpdater_positions _ _ _ _ _ _ _ Hctor) as [Hpos Hprev].
  split; [done|]. intros errs h2 dn Hb Hdn.
  destruct (build_failure _ _ _ _ _ Hb) as (e & es & ->).
  split; [eauto|].
  unfold getUnappliedEditList, _updateDOM. simpl. rewrite Hctor. simpl.
  unfold update. rewrite Hb. simpl. unfold modify. rewrite Hdn. done.
Qed.

End UpdateFacts.

(** *** The updater on the small document *)

(** Typing [!] at row 0, column 7, inside the inner element. *)
Definition ex_typing : delta :=
  Delta (Range (Pos 0 7) (Pos 0 8)) "insertText" (Some "!") None.

(** Typing [!] at row 0, column 9, inside the second text run, which the
    root encloses. *)
Definition ex_typing_root : delta :=
  Delta (Range (Pos 0 9) (Pos 0 10)) "insertText" (Some "!") None.

(** An environment in which the text of every narrowed span is the
    unbalanced [<], which the builder rejects. *)
Definition ex_env_broken : Env := {|
  getValue := "<div><p>hi</p>xy</div>";
  getTextRange := fun _ _ => "<";
  positionToIndex := column;
  _offsetPos := fun p o => Pos (row p) (column p + o);
  idgen := Z;
  getNewID := fun g => (JNum g, g + 1);
  build := ex_build;
  build_failure := ex_build_failure;
  signature_of := fun _ _ => 0;
  getTextNodeID := ex_getTextNodeID;
  edit := unit;
  domdiff := fun _ _ _ => []
|}.

Lemma update_root_fallback_witness :
  exists u h,
    new_DOMUpdater (H := ex_env) 4 (Some 1%positive) ex_session
      (Some ex_typing_root) ex_heap2 = Some (u, h) /\
    update (H := ex_env) 4 u ex_session h
    = Some (Some (MkResult 10 (Some 1%positive) 10), Some [], ex_session, h).
Proof.
  eexists _, _. split; [vm_compute; reflexivity|].
  eapply proj2.
  eapply (update_root_fallback (H := ex_env) 4 (Some 1%positive) ex_session
            (Some ex_typing_root) ex_heap2 _ _ _ 10 (Some []) 1).
  - vm_compute. reflexivity.
  - reflexivity.
  - reflexivity.
  - reflexivity.
  - vm_compute. reflexivity.
  - reflexivity.
  - vm_compute. reflexivity.
  - vm_compute. reflexivity.
  - reflexivity.
Defined.


Lemma parse_error_state_witness :
  exists u h1,
    new_DOMUpdater (H := ex_env_broken) 4 (Some (root ex_shape))
      (Session (Some (root ex_shape))) (Some ex_typing) ex_heap
    = Some (u, h1) /\
    PositionTracker.updatePositions ex_typing 4 (root ex_shape) ex_heap
    = Some h1 /\
    forall errs h2 dn,
      build (Env := ex_env_broken) u (Session (Some (root ex_shape))) h1
      = (None, errs, h2) ->
      h2 !! root ex_shape = Some dn ->
      (exists e es, errs = Some (e :: es)) /\
      getUnappliedEditList (H := ex_env_broken) 4
        (Session (Some (root ex_shape))) (Some ex_typing) ex_heap
      = Some (MkUpdate errs None None None, Session (Some (root ex_shape)),
              <[root ex_shape := set_errors errs dn]> h2).
Proof.
  apply (parse_error_state (H := ex_env_broken) 4 ex_shape ex_typing "!" ex_heap).
  - exact ex_repr.
  - simpl. lia.
  - reflexivity.
Defined.

(** ** An unparseable document with an edit inside a well-formed element *)








(** The heap after the position shift for [ex_typing], and after the swap. *)
Definition ex_shifted : gmap positive node :=
  Eval vm_compute in
    default ∅ (PositionTracker.updatePositions ex_typing 4 1 ex_heap2).

Definition ex_spliced : gmap positive node :=
  Eval vm_compute in
    default ∅ (splice (H := ex_env) 4 1 2 10 1 0 ex_shifted).

Lemma ex_ctor_run :
  new_DOMUpdater (H := ex_env) 4 (Some 1%positive) ex_session
    (Some ex_typing) ex_heap2
  = Some (MkDOMUpdater true (JNum 2) "<p>hi</p>" 3 (Some (Pos 0 3))
            (Some 1%positive), ex_shifted).
Proof. vm_compute. reflexivity. Qed.

Lemma ex_update_run :
  update (H := ex_env) 4
    (MkDOMUpdater true (JNum 2) "<p>hi</p>" 3 (Some (Pos 0 3)) (Some 1%positive))
    ex_session ex_shifted
  = Some (Some (MkResult 1 (Some 2%positive) 10), Some [], ex_session, ex_spliced).
Proof. vm_compute. reflexivity. Qed.


(** ** Trees with one subtree taken out *)

(** A context: the path from the root down to the parent of the hole,
    with the siblings on both sides at every level. *)
Inductive ctx :=
| CParent (p : addr) (before after : list shape)
| CNode (a : addr) (before : list shape) (c : ctx) (after : list shape).

Fixpoint plug (c : ctx) (s : shape) : shape :=
  match c with
  | CParent p l r => Shape p (l ++ s :: r)
  | CNode a l c' r => Shape a (l ++ plug c' s :: r)
  end.

Fixpoint ctx_parent (c : ctx) : addr :=
  match c with
  | CParent p _ _ => p
  | CNode _ _ c' _ => ctx_parent c'
  end.

(** The index of the hole among the children of its parent. *)
Fixpoint ctx_index (c : ctx) : nat :=
  match c with
  | CParent _ l _ => length l
  | CNode _ _ c' _ => ctx_index c'
  end.

Definition ctx_root (c : ctx) : addr :=
  match c with
  | CParent p _ _ => p
  | CNode a _ _ _ => a
  end.

Fixpoint ctx_addrs (c : ctx) : list addr :=
  match c with
  | CParent p l r => p :: concat (map addrs l) ++ concat (map addrs r)
  | CNode a l c' r =>
      a :: concat (map addrs l) ++ ctx_addrs c' ++ concat (map addrs r)
  end.

Lemma root_plug c s : root (plug c s) = ctx_root c.
Proof. by destruct c. Qed.

Lemma addrs_plug c s : addrs (plug c s) ≡ₚ ctx_addrs c ++ addrs s.
Proof.
  induction c as [p l r|a l c IH r]; simpl.
  - rewrite map_app, concat_app. simpl. constructor.
    rewrite <- !app_assoc. apply Permutation_app_head.
    apply Permutation_app_comm.
  - rewrite map_app, concat_app. simpl. constructor.
    rewrite <- !app_assoc. apply Permutation_app_head.
    rewrite IH. rewrite <- !app_assoc. apply Permutation_app_head.
    apply Permutation_app_comm.
Qed.

Lemma elem_of_addrs_plug c s b :
  b ∈ addrs (plug c s) <-> b ∈ ctx_addrs c \/ b ∈ addrs s.
Proof. rewrite addrs_plug. apply elem_of_app. Qed.

Lemma ctx_parent_in c : ctx_parent c ∈ ctx_addrs c.
Proof.
  induction c as [p l r|a l c IH r]; simpl; [left|].
  right. rewrite !elem_of_app. auto.
Qed.

Lemma ctx_root_in c : ctx_root c ∈ ctx_addrs c.
Proof. destruct c; simpl; left. Qed.

(** The [children] arrays of [h] draw the context around a hole whose
    root is [r]. *)
Fixpoint ctx_repr (h : gmap positive node) (c : ctx) (r : addr) : Prop :=
  match c with
  | CParent p l rt =>
      exists n, h !! p = Some n /\
        children n = Some (map root l ++ r :: map root rt) /\
        Forall (repr h) l /\ Forall (repr h) rt
  | CNode a l c' rt =>
      exists n, h !! a = Some n /\
        children n = Some (map root l ++ ctx_root c' :: map root rt) /\
        Forall (repr h) l /\ Forall (repr h) rt /\ ctx_repr h c' r
  end.

Lemma repr_plug h c s : repr h (plug c s) <-> ctx_repr h c (root s) /\ repr h s.
Proof.
  induction c as [p l r|a l c IH r]; simpl.
  - split.
    + intros Hr. apply repr_inv in Hr as (n & Hn & Hch & Hnil & Hks).
      apply Forall_app in Hks as [Hl Hr]. inversion Hr as [|? ? Hs Hrt]; subst.
      split; [|done]. exists n. repeat split; try done.
      destruct (children n) as [ch|].
      * simpl in Hch. subst ch. by rewrite map_app.
      * exfalso. specialize (Hnil eq_refl). by destruct l.
    + intros [(n & Hn & Hch & Hl & Hrt) Hs]. eapply repr_elem; [done| |].
      * rewrite Hch, map_app. done.
      * apply Forall_app. split; [done|]. by constructor.
  - split.
    + intros Hr. apply repr_inv in Hr as (n & Hn & Hch & Hnil & Hks).
      apply Forall_app in Hks as [Hl Hr]. inversion Hr as [|? ? Hs Hrt]; subst.
      apply IH in Hs as [Hc Hs]. split; [|done]. exists n.
      repeat split; try done.
      destruct (children n) as [ch|].
      * simpl in Hch. subst ch. rewrite map_app. simpl. by rewrite root_plug.
      * exfalso. specialize (Hnil eq_refl). by destruct l.
    + intros [(n & Hn & Hch & Hl & Hrt & Hc) Hs]. eapply repr_elem; [done| |].
      * rewrite Hch, map_app. simpl. by rewrite root_plug.
      * apply Forall_app. split; [done|]. constructor; [|done]. apply IH. done.
Qed.

Lemma repr_agree h h' s :
  (forall a, a ∈ addrs s -> children <$> (h !! a) = children <$> (h' !! a)) ->
  repr h s -> repr h' s.
Proof.
  induction s as [a ks IH] using shape_ind'. intros Hag Hr.
  assert (Hks : Forall (repr h') ks).
  { apply repr_inv in Hr as (n & _ & _ & _ & Hall).
    rewrite Forall_forall in *. intros k Hk. apply IH; auto.
    intros b Hb. apply Hag. eapply kid_addrs; eauto. }
  pose proof (Hag a (root_in_addrs (Shape a ks))) as Ha.
  inversion Hr as [a0 n Hn Hc|a0 n ks0 Hn Hc _]; subst;
    rewrite Hn in Ha; simpl in Ha; destruct (h' !! a) as [n'|] eqn:Hn';
    simpl in Ha; try discriminate; injection Ha as Ha.
  - eapply repr_text; eauto. congruence.
  - eapply repr_elem; eauto. congruence.
Qed.

Lemma Forall_repr_agree h h' ks :
  (forall a, a ∈ concat (map addrs ks) ->
     children <$> (h !! a) = children <$> (h' !! a)) ->
  Forall (repr h) ks -> Forall (repr h') ks.
Proof.
  intros Hag Hr. rewrite Forall_forall in *. intros k Hk.
  eapply repr_agree; [|by apply Hr]. intros a Ha. apply Hag.
  apply elem_of_concat_addrs. eauto.
Qed.

Lemma indexOf_app l x r :
  x ∉ l -> indexOf (l ++ x :: r) x = Some (length l).
Proof.
  induction l as [|y l IH]; simpl; intros Hx.
  - by rewrite decide_True.
  - rewrite decide_False by (intros ->; apply Hx; left).
    rewrite IH; [done|]. intros Hin. apply Hx. by right.
Qed.

Lemma insert_middle {A} (l : list A) (x y : A) r :
  <[length l := y]> (l ++ x :: r) = l ++ y :: r.
Proof.
  induction l as [|z l IH]; simpl; [done|]. by rewrite IH.
Qed.

(** The swap turns the context around the old subtree into the context
    around the new one. *)
Lemma ctx_repr_swap h h' c old new :
  NoDup (ctx_addrs c) ->
  (forall a, children <$> (h' !! a)
             = swap_children (ctx_parent c) new (ctx_index c) a
                 <$> (children <$> (h !! a))) ->
  ctx_repr h c old -> ctx_repr h' c new.
Proof.
  intros Hnd Hsw.
  assert (Hsame : forall a, a <> ctx_parent c ->
            children <$> (h !! a) = children <$> (h' !! a)).
  { intros a Ha. rewrite Hsw. destruct (h !! a); [|done]. simpl.
    unfold swap_children. by rewrite decide_False. }
  assert (Hat : forall n, h !! ctx_parent c = Some n ->
            exists n', h' !! ctx_parent c = Some n' /\
              children n' = (fun ch => <[ctx_index c := new]> ch) <$> children n).
  { intros n Hn. specialize (Hsw (ctx_parent c)). rewrite Hn in Hsw. simpl in Hsw.
    unfold swap_children in Hsw. rewrite decide_True in Hsw by done.
    destruct (h' !! ctx_parent c) as [n'|]; [|discriminate].
    injection Hsw as Hsw. eauto. }
  clear Hsw. induction c as [p l rt|a l c IH rt]; simpl in *.
  - intros (n & Hn & Hch & Hl & Hrt). apply NoDup_cons in Hnd as [Hp Hnd].
    destruct (Hat n Hn) as (n' & Hn' & Hch'). exists n'. split; [done|].
    split.
    { rewrite Hch', Hch. simpl. f_equal.
      rewrite <- (length_map root l). apply insert_middle. }
    split; (eapply Forall_repr_agree; [|eassumption]);
      intros b Hb; apply Hsame; intros ->; apply Hp; apply elem_of_app; auto.
  - intros (n & Hn & Hch & Hl & Hrt & Hc). apply NoDup_cons in Hnd as [Ha Hnd].
    apply NoDup_app in Hnd as (_ & Hd1 & Hnd).
    apply NoDup_app in Hnd as (Hndc & Hd2 & _).
    pose proof (ctx_parent_in c) as Hpin.
    assert (Hne : a <> ctx_parent c).
    { intros ->. apply Ha. rewrite !elem_of_app. auto. }
    pose proof (Hsame a Hne) as Hsa. rewrite Hn in Hsa. simpl in Hsa.
    destruct (h' !! a) as [n'|] eqn:Hn'; [|discriminate]. injection Hsa as Hsa.
    exists n'. split; [done|]. split; [congruence|].
    split; [|split].
    + eapply Forall_repr_agree; [|exact Hl]. intros b Hb. apply Hsame.
      intros ->. eapply Hd1; [exact Hb|]. rewrite elem_of_app. auto.
    + eapply Forall_repr_agree; [|exact Hrt]. intros b Hb. apply Hsame.
      intros ->. eapply Hd2; [exact Hpin|exact Hb].
    + apply IH; auto.
Qed.

(** ** Fields that a heap change leaves alone *)

Definition proj_eq {A} (f : node -> A) (h h' : gmap positive node) : Prop :=
  forall a, f <$> (h !! a) = f <$> (h' !! a).

Lemma proj_eq_refl {A} (f : node -> A) h : proj_eq f h h.
Proof. done. Qed.

Lemma proj_eq_trans {A} (f : node -> A) h1 h2 h3 :
  proj_eq f h1 h2 -> proj_eq f h2 h3 -> proj_eq f h1 h3.
Proof. intros H1 H2 a. by rewrite H1. Qed.

Lemma proj_eq_insert {A} (f : node -> A) h a n n' :
  h !! a = Some n -> f n' = f n -> proj_eq f h (<[a := n']> h).
Proof.
  intros Ha Hf b. destruct (decide (a = b)) as [<-|Hne].
  - rewrite lookup_insert_eq, Ha. simpl. by rewrite Hf.
  - by rewrite lookup_insert_ne.
Qed.

Lemma enter_agree h h' l : forall m,
  (forall a, a ∈ l -> tagID <$> (h !! a) = tagID <$> (h' !! a)) ->
  foldl (enter h) m l = foldl (enter h') m l.
Proof.
  induction l as [|a l IH]; intros m Hag; simpl; [done|].
  assert (He : enter h m a = enter h' m a).
  { unfold enter. specialize (Hag a (list_elem_of_here _ _)).
    destruct (h !! a) as [n|], (h' !! a) as [n'|]; simpl in Hag; try done.
    injection Hag as ->. done. }
  rewrite He. apply IH. intros b Hb. apply Hag. by right.
Qed.

Lemma parent_chain_agree h h' o l :
  (forall a, a ∈ l -> parent <$> (h !! a) = parent <$> (h' !! a)) ->
  parent_chain h o l -> parent_chain h' o l.
Proof.
  intros Hag Hc. induction Hc as [|a n l Ha Hc IH]; [constructor|].
  pose proof (Hag a (list_elem_of_here _ _)) as Hp. rewrite Ha in Hp.
  destruct (h' !! a) as [n'|] eqn:Ha'; simpl in Hp; [|discriminate].
  injection Hp as Hp. econstructor; [done|]. rewrite <- Hp. apply IH.
  intros b Hb. apply Hag. by right.
Qed.

Section SpliceRun.
Context `{Env}.

Lemma update_signatures_nodeMap fuel : forall o h h',
  update_signatures fuel o h = Some h' -> proj_eq nodeMap h h'.
Proof.
  induction fuel as [|fuel IH]; intros o h h' Hu; simpl in Hu; [discriminate|].
  destruct o as [a|]; [|by injection Hu as <-].
  unfold node_update, modify in Hu. destruct (h !! a) as [n|] eqn:Ha; [|discriminate].
  simpl in Hu. rewrite lookup_insert_eq in Hu. simpl in Hu.
  eapply proj_eq_trans; [|by eapply IH].
  eapply proj_eq_insert; [done|]. by destruct n.
Qed.

Lemma splice_run fuel prev old new p i h oldn newn pn ch prevn prevMap newMap
    so l :
  h !! old = Some oldn -> h !! new = Some newn ->
  h !! p = Some pn -> children pn = Some ch ->
  h !! prev = Some prevn -> nodeMap prevn = Some prevMap ->
  nodeMap newn = Some newMap ->
  old <> prev -> new <> prev -> new <> old -> p <> old -> p <> new ->
  root so = old -> repr h so -> p ∉ addrs so -> (height so < fuel)%nat ->
  parent_chain h (Some p) l -> old ∉ l -> new ∉ l -> (length l < fuel)%nat ->
  exists h' prevn',
    splice fuel prev old new p i h = Some h' /\
    h' !! prev = Some prevn' /\
    nodeMap prevn' =
      Some (_handleDeletions (newMap ∪ prevMap)
              (foldl (enter h) ∅ (addrs so)) newMap).
Proof.
  intros Hold Hnew Hp Hch Hprev Hpm Hnm Hop Hnp Hno Hpo Hpn Hroot Hrepr Hpso
    Hfuel Hchain Hol Hnl Hlen.
  unfold splice, modify. rewrite Hold. simpl.
  set (hA := <[old := set_parent None oldn]> h).
  assert (HnewA : hA !! new = Some newn) by (unfold hA; by rewrite lookup_insert_ne).
  rewrite HnewA. simpl.
  set (hB := <[new := set_parent (Some p) newn]> hA).
  assert (HpB : hB !! p = Some pn).
  { unfold hB, hA. by rewrite !lookup_insert_ne. }
  rewrite HpB. simpl. rewrite Hch. simpl.
  set (hC := <[p := set_children (Some (<[i:=new]> ch)) pn]> hB).
  assert (HprevC : exists prevnC, hC !! prev = Some prevnC /\
                     nodeMap prevnC = Some prevMap).
  { unfold hC. destruct (decide (p = prev)) as [->|Hpp].
    - rewrite lookup_insert_eq. eexists; split; [done|].
      rewrite Hp in Hprev. injection Hprev as ->. by destruct prevn.
    - unfold hB, hA. rewrite !lookup_insert_ne by done. eauto. }
  destruct HprevC as (prevnC & HprevC & HpmC). rewrite HprevC. simpl.
  rewrite HpmC. simpl.
  assert (HnewC : hC !! new = Some (set_parent (Some p) newn)).
  { unfold hC, hB. rewrite lookup_insert_ne by done. by rewrite lookup_insert_eq. }
  rewrite HnewC. simpl. rewrite Hnm. simpl.
  set (hD := <[prev := set_nodeMap (Some (newMap ∪ prevMap)) prevnC]> hC).
  (* the four steps so far keep identifiers, and keep links but at [p],
     [old] and [new] *)
  assert (HA : forall {A} (f : node -> A),
            (forall q n, f (set_parent q n) = f n) -> proj_eq f h hA).
  { intros A f Hf. apply (proj_eq_insert f h old oldn); [done|apply Hf]. }
  assert (HB : forall {A} (f : node -> A),
            (forall q n, f (set_parent q n) = f n) -> proj_eq f hA hB).
  { intros A f Hf. apply (proj_eq_insert f hA new newn); [done|apply Hf]. }
  assert (HC : forall {A} (f : node -> A),
            (forall q n, f (set_children q n) = f n) -> proj_eq f hB hC).
  { intros A f Hf. apply (proj_eq_insert f hB p pn); [done|apply Hf]. }
  assert (HD : forall {A} (f : node -> A),
            (forall q n, f (set_nodeMap q n) = f n) -> proj_eq f hC hD).
  { intros A f Hf. apply (proj_eq_insert f hC prev prevnC); [done|apply Hf]. }
  assert (HtagD : proj_eq tagID h hD).
  { eapply proj_eq_trans; [apply HA; by intros ? []|].
    eapply proj_eq_trans; [apply HB; by intros ? []|].
    eapply proj_eq_trans; [apply HC; by intros ? []|].
    apply HD. by intros ? []. }
  assert (HchD : forall a, a <> p -> children <$> (h !! a) = children <$> (hD !! a)).
  { intros a Ha. rewrite (HA _ children) by (by intros ? []).
    rewrite (HB _ children) by (by intros ? []).
    rewrite <- (HD _ children) by (by intros ? []).
    unfold hC. by rewrite lookup_insert_ne. }
  assert (HparD : forall a, a <> old -> a <> new ->
            parent <$> (h !! a) = parent <$> (hD !! a)).
  { intros a Hao Han. rewrite <- (HD _ parent) by (by intros ? []).
    rewrite <- (HC _ parent) by (by intros ? []).
    unfold hB, hA. by rewrite !lookup_insert_ne. }
  assert (HoldD : hD !! old = Some (set_parent None oldn)).
  { unfold hD, hC, hB, hA. rewrite !lookup_insert_ne by done.
    by rewrite lookup_insert_eq. }
  assert (HnewD : hD !! new = Some (set_parent (Some p) newn)).
  { unfold hD. by rewrite lookup_insert_ne. }
  (* [_buildNodeMap(oldSubtree)] *)
  assert (HreprD : repr hD so).
  { eapply repr_agree; [|exact Hrepr]. intros a Ha. apply HchD. by intros ->. }
  assert (Hwalk : buildNodeMap_walk fuel hD old ∅
                  = Some (foldl (enter hD) ∅ (addrs so))).
  { rewrite <- Hroot. by apply buildNodeMap_walk_spec. }
  unfold _buildNodeMap. rewrite Hwalk. simpl.
  rewrite <- (enter_agree h hD) by (intros; apply HtagD).
  set (oldMap := foldl (enter h) ∅ (addrs so)).
  unfold modify. rewrite HoldD. simpl.
  set (hE := <[old := set_nodeMap (Some oldMap) (set_parent None oldn)]> hD).
  assert (HprevE : hE !! prev
                   = Some (set_nodeMap (Some (newMap ∪ prevMap)) prevnC)).
  { unfold hE, hD. rewrite lookup_insert_ne by done. by rewrite lookup_insert_eq. }
  rewrite HprevE. simpl.
  assert (HoldE : hE !! old
                  = Some (set_nodeMap (Some oldMap) (set_parent None oldn)))
    by (unfold hE; by rewrite lookup_insert_eq).
  rewrite HoldE. simpl.
  assert (HnewE : hE !! new = Some (set_parent (Some p) newn))
    by (unfold hE; by rewrite lookup_insert_ne).
  rewrite HnewE. simpl. rewrite Hnm. simpl.
  set (m' := _handleDeletions (newMap ∪ prevMap) oldMap newMap).
  set (hF := <[prev := set_nodeMap (Some m')
                         (set_nodeMap (Some (newMap ∪ prevMap)) prevnC)]> hE).
  (* the signatures *)
  assert (HchainF : parent_chain hF (Some p) l).
  { eapply parent_chain_agree; [|exact Hchain]. intros a Ha.
    assert (a <> old) by (by intros ->). assert (a <> new) by (by intros ->).
    rewrite HparD by done.
    rewrite (proj_eq_insert parent hD old (set_parent None oldn)
               (set_nodeMap (Some oldMap) (set_parent None oldn)) HoldD)
      by done. fold hE.
    apply (proj_eq_insert parent hE prev _ _ HprevE). by destruct prevnC. }
  destruct (update_signatures_total hF (Some p) l HchainF fuel Hlen) as [h' Hsig].
  rewrite Hsig. pose proof (update_signatures_nodeMap _ _ _ _ Hsig prev) as Hnm'.
  unfold hF in Hnm' at 1. rewrite lookup_insert_eq in Hnm'. simpl in Hnm'.
  destruct (h' !! prev) as [prevn'|] eqn:Hprev'; [|discriminate].
  simpl in Hnm'. injection Hnm' as Hnm'.
  exists h', prevn'. split; [done|]. split; [done|]. done.
Qed.

End SpliceRun.

(** [m] maps exactly the identifiers of the nodes of [s], each to its
    node. *)
Definition maps_exactly (h : gmap positive node) (m : gmap string addr)
    (s : shape) : Prop :=
  forall k a, m !! k = Some a <-> a ∈ addrs s /\ has_key h a k.

Lemma ctx_site h c r :
  ctx_repr h c r ->
  exists n l rt, h !! ctx_parent c = Some n /\
    children n = Some (map root l ++ r :: map root rt) /\
    ctx_index c = length l /\
    (forall b, b ∈ map root l -> b ∈ ctx_addrs c).
Proof.
  induction c as [p l rt|a l c IH rt]; simpl.
  - intros (n & Hn & Hch & _). exists n, l, rt. repeat split; try done.
    intros b Hb. right. apply elem_of_app. left.
    apply list_elem_of_In, in_map_iff in Hb as (k & <- & Hk).
    apply elem_of_concat_addrs. exists k.
    split; [by apply list_elem_of_In | apply root_in_addrs].
  - intros (n & Hn & Hch & _ & _ & Hc).
    destruct (IH Hc) as (n' & l' & rt' & H1 & H2 & H3 & H4).
    exists n', l', rt'. repeat split; try done.
    intros b Hb. right. rewrite !elem_of_app. auto.
Qed.

Lemma has_key_agree h h' a k :
  tagID <$> (h' !! a) = tagID <$> (h !! a) -> has_key h a k -> has_key h' a k.
Proof.
  intros Ht (n & Hn & Htr & Hk). rewrite Hn in Ht.
  destruct (h' !! a) as [n'|] eqn:Hn'; [|discriminate]. injection Ht as Ht.
  exists n'. rewrite Ht. auto.
Qed.

Section NodeMap.
Context `{Env}.

(** C6.  After a successful incremental update on a previous tree whose
    [nodeMap] mapped exactly the identifiers of its nodes, with a new
    subtree whose own [nodeMap] does so too and reuses identifiers of the
    old subtree only: the [children] arrays draw the previous tree with the
    new subtree in place of the old one, and the [nodeMap] of the root maps
    exactly the identifiers of the nodes of that tree; every entry of the
    new subtree's map is in it, and every identifier of the old subtree
    that the new subtree does not carry is gone. *)
Theorem nodeMap_after_splice (fuel : nat) (u : DOMUpdater) (s : session)
    (h h1 : gmap positive node) (errs : option (list string))
    (c : ctx) (so sn : shape) (prevn oldn newn : node)
    (prevMap newMap : gmap string addr) (l : list addr) :
  build u s h = (Some (root sn), errs, h1) ->
  truthy (changedTagID u) = true ->
  previousDOM u = Some (ctx_root c) ->
  repr h1 (plug c so) -> NoDup (addrs (plug c so)) ->
  h1 !! ctx_root c = Some prevn -> nodeMap prevn = Some prevMap ->
  maps_exactly h1 prevMap (plug c so) ->
  prevMap !! key_of (changedTagID u) = Some (root so) ->
  h1 !! root so = Some oldn -> parent oldn = Some (ctx_parent c) ->
  parent_chain h1 (Some (ctx_parent c)) l ->
  root so ∉ l -> root sn ∉ l ->
  repr h1 sn ->
  (forall a, a ∈ addrs sn -> a ∉ addrs (plug c so)) ->
  h1 !! root sn = Some newn -> nodeMap newn = Some newMap ->
  maps_exactly h1 newMap sn ->
  (forall k a, is_Some (newMap !! k) -> prevMap !! k = Some a -> a ∈ addrs so) ->
  (height so < fuel)%nat -> (length l < fuel)%nat ->
  exists h' prevn' m',
    update fuel u s h
    = Some (Some (MkResult (ctx_root c) (Some (root so)) (root sn)), errs, s, h') /\
    h' !! ctx_root c = Some prevn' /\ nodeMap prevn' = Some m' /\
    repr h' (plug c sn) /\
    maps_exactly h' m' (plug c sn) /\
    (forall k a, newMap !! k = Some a -> m' !! k = Some a) /\
    (forall a k, a ∈ addrs so -> has_key h1 a k -> newMap !! k = None ->
       m' !! k = None).
Proof.
  intros Hb Ht Hprev Hrepr Hnd Hprevn Hpm Hexact Hlook Holdn Hpar Hchain Hol Hnl
    Hreprn Hfresh Hnewn Hnm Hexactn Hreuse Hfuel Hlen.
  (* what the shape of the tree tells about the addresses *)
  pose proof Hnd as Hnd'. rewrite addrs_plug in Hnd'.
  apply NoDup_app in Hnd' as (Hndc & Hdisj & Hndo).
  pose proof (ctx_parent_in c) as Hpin.
  pose proof (ctx_root_in c) as Hprevin.
  pose proof (root_in_addrs so) as Holdin.
  pose proof (root_in_addrs sn) as Hnewin.
  assert (Hfresh' : forall a, a ∈ addrs sn ->
            (a ∉ ctx_addrs c) /\ (a ∉ addrs so)).
  { intros a Ha. specialize (Hfresh a Ha). rewrite elem_of_addrs_plug in Hfresh.
    tauto. }
  assert (Hop : root so <> ctx_root c).
  { intros E. apply (Hdisj (ctx_root c)); [done | by rewrite <- E]. }
  assert (Hpo : ctx_parent c <> root so).
  { intros E. apply (Hdisj (ctx_parent c)); [done | by rewrite E]. }
  destruct (Hfresh' _ Hnewin) as [Hnewc Hnewo].
  assert (Hnp : root sn <> ctx_root c).
  { intros E. apply Hnewc. by rewrite E. }
  assert (Hpn : ctx_parent c <> root sn).
  { intros E. apply Hnewc. by rewrite <- E. }
  assert (Hno : root sn <> root so).
  { intros E. apply Hnewo. by rewrite E. }
  assert (Hpso : ctx_parent c ∉ addrs so) by (intros E; by apply (Hdisj _ Hpin)).
  apply repr_plug in Hrepr as [Hctx Hrepro].
  destruct (ctx_site h1 c (root so) Hctx) as (pn & lt & rt & Hp & Hch & Hidx & Hleft).
  assert (Hi : indexOf (map root lt ++ (root so) :: map root rt) (root so) = Some (ctx_index c)).
  { rewrite Hidx, <- (length_map root lt). apply indexOf_app.
    intros Hin. apply (Hdisj (root so)); [by apply Hleft | done]. }
  (* the run of [update] *)
  destruct (splice_run fuel (ctx_root c) (root so) (root sn) (ctx_parent c) (ctx_index c) h1 oldn newn pn
              (map root lt ++ (root so) :: map root rt) prevn prevMap newMap so l)
    as (h' & prevn' & Hsplice & Hprev' & Hnm'); try done.
  exists h', prevn'. eexists. split.
  { unfold update. rewrite Hb, Ht, Hprev. simpl.  rewrite Hprevn. simpl.
    rewrite Hpm. simpl. rewrite Hlook. simpl.  rewrite Holdn. simpl.
    rewrite Hpar.  rewrite Hp. simpl. rewrite Hch. simpl. rewrite Hi.
    rewrite Hsplice. done. }
  split; [done|]. split; [exact Hnm'|].
  (* what the swap did to the heap *)
  pose proof (splice_effect _ _ _ _ _ _ _ _ Hsplice) as Heff.
  assert (Hchildren : forall a, children <$> (h' !! a)
            = (swap_children (ctx_parent c) (root sn) (ctx_index c) a <$> (children <$> (h1 !! a)))).
  { intros a. specialize (Heff a). destruct (h1 !! a), (h' !! a); try done.
    simpl. f_equal. apply Heff. }
  assert (Htag : forall a, tagID <$> (h' !! a) = tagID <$> (h1 !! a)).
  { intros a. specialize (Heff a). destruct (h1 !! a), (h' !! a); try done.
    simpl. f_equal. apply Heff. }
  assert (Hkey : forall a k, has_key h' a k <-> has_key h1 a k).
  { intros a k. split; apply has_key_agree; by rewrite Htag. }
  split.
  { apply repr_plug. split.
    - by eapply ctx_repr_swap.
    - eapply repr_agree; [|exact Hreprn]. intros a Ha. rewrite Hchildren.
      destruct (h1 !! a); [|done]. simpl. unfold swap_children.
      rewrite decide_False; [done|]. intros ->.
      by destruct (Hfresh' (ctx_parent c) Ha). }
  set (oldMap := foldl (enter h1) ∅ (addrs so)) in *.
  assert (HoldMap : forall k, is_Some (oldMap !! k)
                     <-> exists a, a ∈ addrs so /\ has_key h1 a k).
  { intros k. unfold oldMap. rewrite enter_lookup. rewrite lookup_empty.
    split; [intros [[? ?]|]; done | auto]. }
  assert (Hm' : forall k, _handleDeletions (newMap ∪ prevMap) oldMap newMap !! k
            = if decide (is_Some (oldMap !! k) /\ newMap !! k = None)
              then None else (newMap ∪ prevMap) !! k)
    by (intros; apply handleDeletions_lookup).
  split; [|split].
  - intros k a. rewrite Hm', elem_of_addrs_plug, Hkey.
    destruct (decide (is_Some (oldMap !! k) /\ newMap !! k = None)) as [[Ho Hn]|Hnd'].
    + split; [done|]. intros [[Hc|Hs] Hk]; exfalso.
      * (* a node of the context with a key of the (root so) subtree *)
        apply HoldMap in Ho as (b & Hbin & Hbk).
        assert (prevMap !! k = Some a)
          by (apply Hexact; rewrite elem_of_addrs_plug; auto).
        assert (prevMap !! k = Some b)
          by (apply Hexact; rewrite elem_of_addrs_plug; auto).
        assert (a = b) by congruence. subst b. by apply (Hdisj a).
      * assert (newMap !! k = Some a) by (by apply Hexactn). congruence.
    + rewrite lookup_union_Some_raw. split.
      * intros [Hn|[Hn Hpv]].
        -- apply Hexactn in Hn as [? ?]. auto.
        -- apply Hexact in Hpv as [Hin Hk]. split; [|done].
           apply elem_of_addrs_plug in Hin as [|Hin]; [by left|].
           exfalso. apply Hnd'. split; [|done]. apply HoldMap. eauto.
      * intros [[Hc|Hs] Hk].
        -- assert (Hpv : prevMap !! k = Some a)
             by (apply Hexact; rewrite elem_of_addrs_plug; auto).
           destruct (newMap !! k) as [b|] eqn:Hn; [|auto].
           exfalso. apply (Hdisj a); [done|]. eapply Hreuse; [|exact Hpv]. eauto.
        -- left. by apply Hexactn.
  - intros k a Hn. rewrite Hm'. rewrite decide_False by (intros [_ ?]; congruence).
    apply lookup_union_Some_raw. by left.
  - intros a k Ha Hk Hn. rewrite Hm'. rewrite decide_True; [done|].
    split; [|done]. apply HoldMap. eauto.
Qed.

End NodeMap.

(** A check of [maps_exactly] that computes. *)
Definition has_keyb (h : gmap positive node) (a : addr) (k : string) : bool :=
  match h !! a with
  | Some n => truthy (tagID n) && bool_decide (key_of (tagID n) = k)
  | None => false
  end.

Definition maps_exactlyb (h : gmap positive node) (m : gmap string addr)
    (s : shape) : bool :=
  forallb (fun ka => bool_decide (ka.2 ∈ addrs s) && has_keyb h ka.2 ka.1)
          (map_to_list m) &&
  forallb (fun a => match h !! a with
                    | Some n => if truthy (tagID n)
                                then bool_decide (m !! key_of (tagID n) = Some a)
                                else true
                    | None => true
                    end) (addrs s).

Lemma has_keyb_spec h a k : has_keyb h a k = true <-> has_key h a k.
Proof.
  unfold has_keyb, has_key. destruct (h !! a) as [n|].
  - rewrite andb_true_iff, bool_decide_eq_true. split.
    + intros [? ?]. eauto.
    + intros (n' & [= <-] & ? & ?). done.
  - split; [discriminate|]. by intros (n' & ? & _).
Qed.

Lemma maps_exactlyb_spec h m s :
  maps_exactlyb h m s = true -> maps_exactly h m s.
Proof.
  unfold maps_exactlyb. rewrite andb_true_iff, !forallb_forall.
  intros [H1 H2] k a. split.
  - intros Hm. specialize (H1 (k, a)). simpl in H1.
    rewrite andb_true_iff, bool_decide_eq_true, has_keyb_spec in H1.
    apply H1. by apply list_elem_of_In, elem_of_map_to_list.
  - intros [Hin (n & Hn & Ht & Hk)]. apply list_elem_of_In in Hin.
    specialize (H2 a Hin). rewrite Hn, Ht, Hk in H2.
    by apply bool_decide_eq_true in H2.
Qed.

(** A check of the reuse condition: a key of the new map that the previous
    map knows belongs to a node of the old subtree. *)
Definition reuses_oldb (prevMap newMap : gmap string addr) (so : shape) : bool :=
  forallb (fun ka => match prevMap !! ka.1 with
                     | Some a => bool_decide (a ∈ addrs so)
                     | None => true
                     end) (map_to_list newMap).

Lemma reuses_oldb_spec prevMap newMap so :
  reuses_oldb prevMap newMap so = true ->
  forall k a, is_Some (newMap !! k) -> prevMap !! k = Some a -> a ∈ addrs so.
Proof.
  unfold reuses_oldb. rewrite forallb_forall. intros Hall k a [b Hb] Hp.
  specialize (Hall (k, b)). simpl in Hall. rewrite Hp in Hall.
  eapply bool_decide_eq_true_1, Hall.
  by apply list_elem_of_In, elem_of_map_to_list.
Qed.

Definition ex_old_shape : shape := Shape 2 [Shape 4 []].
Definition ex_new_shape : shape := Shape 10 [Shape 11 []].
Definition ex_ctx : ctx := CParent 1 [] [Shape 3 []].

Definition ex_prev_map : gmap string addr :=
  <["1" := 1%positive]> (<["2" := 2%positive]>
    (<["2t" := 3%positive]> (<["2.0" := 4%positive]> ∅))).
Definition ex_new_map : gmap string addr :=
  <["2" := 10%positive]> (<["2.0" := 11%positive]> ∅).

Definition ex_prev_node : node :=
  Eval vm_compute in
    default ex_new_root (ex_shifted !! 1%positive).
Definition ex_old_node : node :=
  Eval vm_compute in
    default ex_new_root (ex_shifted !! 2%positive).

Lemma nodeMap_after_splice_witness :
  exists h' prevn' m',
    update (H := ex_env) 4
      (MkDOMUpdater true (JNum 2) "<p>hi</p>" 3 (Some (Pos 0 3)) (Some 1%positive))
      ex_session ex_shifted
    = Some (Some (MkResult (ctx_root ex_ctx) (Some (root ex_old_shape))
                    (root ex_new_shape)), Some [], ex_session, h') /\
    h' !! ctx_root ex_ctx = Some prevn' /\ nodeMap prevn' = Some m' /\
    repr h' (plug ex_ctx ex_new_shape) /\
    maps_exactly h' m' (plug ex_ctx ex_new_shape) /\
    (forall k a, ex_new_map !! k = Some a -> m' !! k = Some a) /\
    (forall a k, a ∈ addrs ex_old_shape -> has_key ex_shifted a k ->
       ex_new_map !! k = None -> m' !! k = None).
Proof.
  apply (nodeMap_after_splice (H := ex_env) 4
           (MkDOMUpdater true (JNum 2) "<p>hi</p>" 3 (Some (Pos 0 3))
              (Some 1%positive))
           ex_session ex_shifted ex_shifted (Some []) ex_ctx ex_old_shape
           ex_new_shape ex_prev_node ex_old_node ex_new_root
           ex_prev_map ex_new_map [1%positive]).
  - reflexivity.
  - reflexivity.
  - reflexivity.
  - simpl. solve_repr.
  - apply (bool_decide_unpack _). vm_compute. exact I.
  - vm_compute. reflexivity.
  - vm_compute. reflexivity.
  - apply maps_exactlyb_spec. vm_compute. reflexivity.
  - vm_compute. reflexivity.
  - vm_compute. reflexivity.
  - reflexivity.
  - eapply chain_step; [vm_compute; reflexivity|]. apply chain_end.
  - apply (bool_decide_unpack _). vm_compute. exact I.
  - apply (bool_decide_unpack _). vm_compute. exact I.
  - unfold ex_new_shape. solve_repr.
  - apply Forall_forall. apply (bool_decide_unpack _). vm_compute. exact I.
  - vm_compute. reflexivity.
  - reflexivity.
  - apply maps_exactlyb_spec. vm_compute. reflexivity.
  - apply reuses_oldb_spec. vm_compute. reflexivity.
  - simpl. lia.
  - simpl. lia.
Defined.

(** ** The reconciler on the tree of an observed document *)

Lemma children_in_addrs h s : repr h s ->
  forall e en ch c, e ∈ addrs s -> h !! e = Some en -> children en = Some ch ->
    c ∈ ch -> c ∈ addrs s.
Proof.
  induction s as [a ks IH] using shape_ind'. intros Hr e en ch c He Hen Hch Hc.
  pose proof Hr as Hr0.
  apply repr_inv in Hr as (n & Hn & Hkids & Hnil & Hks).
  simpl in He. apply elem_of_cons in He as [->|He].
  - rewrite Hn in Hen. injection Hen as <-. rewrite Hch in Hkids. simpl in Hkids.
    subst ch. apply list_elem_of_In, in_map_iff in Hc as (k & <- & Hk).
    apply list_elem_of_In in Hk. eapply kid_addrs; eauto using root_in_addrs.
  - apply elem_of_concat_addrs in He as (k & Hk & He).
    rewrite Forall_forall in IH, Hks.
    eapply kid_addrs; [exact Hk|]. eapply IH; eauto.
Qed.

Lemma mapM_agree {A B} (f g : A -> option B) l :
  (forall x, x ∈ l -> f x = g x) -> mapM f l = mapM g l.
Proof.
  induction l as [|x l IH]; intros Hfg; simpl; [done|].
  rewrite (Hfg x) by left. rewrite IH; [done|]. intros y Hy. apply Hfg. by right.
Qed.

Lemma mapM_total {A B} (f : A -> option B) l :
  (forall x, x ∈ l -> is_Some (f x)) -> is_Some (mapM f l).
Proof.
  induction l as [|x l IH]; intros Hf; simpl; [eauto|].
  destruct (Hf x) as [y ->]; [left|]. simpl.
  destruct IH as [ys ->]; [intros; apply Hf; by right|]. simpl. eauto.
Qed.

Lemma repr_text_shape h k n :
  repr h k -> h !! root k = Some n -> isElement n = false ->
  k = Shape (root k) [].
Proof.
  destruct k as [c ks]. intros Hr Hn He.
  apply repr_inv in Hr as (n' & Hn' & _ & Hnil & _). simpl in *.
  rewrite Hn in Hn'. injection Hn' as <-.
  unfold isElement in He. destruct (children n); [discriminate|].
  by rewrite Hnil.
Qed.

Lemma repr_in_heap h s a : repr h s -> a ∈ addrs s -> is_Some (h !! a).
Proof.
  revert a. induction s as [b ks IH] using shape_ind'.
  intros a Hr Hin. simpl in Hin. apply elem_of_cons in Hin as [->|Hin].
  - apply (repr_root _ _ Hr).
  - apply elem_of_concat_addrs in Hin as (k & Hk & Hin).
    apply repr_inv in Hr as (n & _ & _ & _ & Hks).
    rewrite Forall_forall in IH, Hks. by apply (IH k Hk); [apply Hks|].
Qed.

Section Reconciler.
Context `{Env}.
Variable sid : jsval.

(** The identifier and the attributes of an element after the walk. *)
Definition elem_done (h0 hf : gmap positive node) (a : addr) : Prop :=
  forall n, h0 !! a = Some n -> isElement n = true ->
    exists n', hf !! a = Some n' /\
      tagID n' = default JUndefined (attributes n !! reserved_attribute) /\
      attributes n' = delete reserved_attribute (attributes n).

(** The identifier of the text run [c], the child number [i] of [e],
    after the walk: what [getTextNodeID] makes of the identifier of [e]
    and of those of the children before [c]. *)
Definition text_done (hf : gmap positive node) (e : addr) (ch : list addr)
    (i : nat) (c : addr) : Prop :=
  exists en cn ids, hf !! e = Some en /\ hf !! c = Some cn /\
    mapM (fun a => tagID <$> hf !! a) (take i ch) = Some ids /\
    tagID cn = getTextNodeID (tagID en) ids.

Definition done_spec (h0 hf : gmap positive node) (s : shape) : Prop :=
  (forall a, a ∈ addrs s -> elem_done h0 hf a) /\
  (forall e en ch i c cn, e ∈ addrs s -> h0 !! e = Some en ->
     children en = Some ch -> ch !! i = Some c -> h0 !! c = Some cn ->
     isElement cn = false -> text_done hf e ch i c).

(** The comparison root after the nodes [l] have been visited: the one
    before, when no element among them carries the session's identifier,
    and else one of those that do. *)
Definition root_spec (r0 : option addr) (hf : gmap positive node)
    (l : list addr) (r : option addr) : Prop :=
  (r = r0 /\ forall a n', a ∈ l -> hf !! a = Some n' -> isElement n' = true ->
               tagID n' <> sid) \/
  (exists a n', r = Some a /\ a ∈ l /\ hf !! a = Some n' /\
     isElement n' = true /\ tagID n' = sid).

(** What the statements above read in a node. *)
Definition reading (n : node) : jsval * gmap string jsval * option (list addr) :=
  (tagID n, attributes n, children n).

Definition agree_on (l : list addr) (h h' : gmap positive node) : Prop :=
  forall b, b ∈ l -> reading <$> (h !! b) = reading <$> (h' !! b).

Lemma agree_on_lookup l h h' b n :
  agree_on l h h' -> b ∈ l -> h !! b = Some n ->
  exists n', h' !! b = Some n' /\ tagID n' = tagID n /\
    attributes n' = attributes n /\ children n' = children n.
Proof.
  intros Hag Hb Hn. specialize (Hag b Hb). rewrite Hn in Hag.
  destruct (h' !! b) as [n'|]; [|discriminate]. injection Hag as ? ? ?. eauto.
Qed.

Lemma agree_on_sym l h h' : agree_on l h h' -> agree_on l h' h.
Proof. intros Hag b Hb. symmetry. by apply Hag. Qed.

Lemma text_done_frame hf hf' e ch i c :
  agree_on (e :: c :: take i ch) hf hf' ->
  text_done hf e ch i c -> text_done hf' e ch i c.
Proof.
  intros Hag (en & cn & ids & He & Hc & Hids & Hid).
  destruct (agree_on_lookup _ _ _ e en Hag) as (en' & He' & Hte & _); [left|done|].
  destruct (agree_on_lookup _ _ _ c cn Hag) as (cn' & Hc' & Htc & _);
    [right; left|done|].
  exists en', cn', ids. repeat split; try done; [|congruence].
  rewrite <- Hids. apply mapM_agree. intros x Hx.
  assert (Hx' : x ∈ e :: c :: take i ch) by (by do 2 right).
  specialize (Hag x Hx'). destruct (hf !! x), (hf' !! x); try done.
  simpl in *. by injection Hag as -> _ _.
Qed.

Lemma done_spec_frame h0 hf hf' s :
  repr h0 s -> agree_on (addrs s) hf hf' ->
  done_spec h0 hf s -> done_spec h0 hf' s.
Proof.
  intros Hr Hag [Hel Htx]. split.
  - intros a Ha n Hn He. destruct (Hel a Ha n Hn He) as (n' & Hn' & Hid & Hat).
    destruct (agree_on_lookup _ _ _ a n' Hag Ha Hn') as (n'' & Hn'' & ? & ? & _).
    exists n''. split; [done|]. split; congruence.
  - intros e en ch i c cn He Hen Hch Hi Hc Hcn.
    eapply text_done_frame; [|by eapply Htx].
    assert (Hin : forall x, x ∈ ch -> x ∈ addrs s)
      by (intros; eapply children_in_addrs; eauto).
    intros b Hb. apply Hag.
    apply elem_of_cons in Hb as [->|Hb]; [done|].
    apply elem_of_cons in Hb as [->|Hb].
    + apply Hin. by eapply list_elem_of_lookup_2.
    + apply Hin. by apply (subseteq_take i ch).
Qed.

(** The same tree with the same attributes, whatever the other fields. *)
Definition same_content (l : list addr) (h0 h1 : gmap positive node) : Prop :=
  forall b, b ∈ l ->
    (fun n => (attributes n, children n)) <$> (h0 !! b)
    = (fun n => (attributes n, children n)) <$> (h1 !! b).

Lemma done_spec_pre h0 h1 hf s :
  repr h0 s -> same_content (addrs s) h0 h1 ->
  done_spec h1 hf s -> done_spec h0 hf s.
Proof.
  intros Hr Hsame [Hel Htx].
  assert (Hlook : forall b n, b ∈ addrs s -> h0 !! b = Some n ->
            exists n1, h1 !! b = Some n1 /\ attributes n1 = attributes n /\
                       children n1 = children n).
  { intros b n Hb Hn. specialize (Hsame b Hb). rewrite Hn in Hsame.
    destruct (h1 !! b) as [n1|]; [|discriminate]. injection Hsame as ? ?. eauto. }
  split.
  - intros a Ha n Hn He. destruct (Hlook a n Ha Hn) as (n1 & Hn1 & Hat & Hch).
    destruct (Hel a Ha n1 Hn1) as (n' & Hn' & Hid & Hattr).
    { unfold isElement in *. by rewrite Hch. }
    exists n'. by rewrite <- Hat.
  - intros e en ch i c cn He Hen Hch Hi Hc Hcn.
    destruct (Hlook e en He Hen) as (e1 & He1 & _ & Hch1).
    assert (Hcin : c ∈ addrs s).
    { eapply children_in_addrs; eauto. by eapply list_elem_of_lookup_2. }
    destruct (Hlook c cn Hcin Hc) as (c1 & Hc1 & _ & Hcc).
    eapply (Htx e e1 ch i c c1); eauto; [congruence|].
    unfold isElement in *. by rewrite Hcc.
Qed.

Lemma root_spec_frame r0 hf hf' l r :
  agree_on l hf hf' -> root_spec r0 hf l r -> root_spec r0 hf' l r.
Proof.
  intros Hag [[-> Hno]|(a & n' & -> & Ha & Hn & He & Hid)].
  - left. split; [done|]. intros a n' Ha Hn He.
    destruct (agree_on_lookup _ _ _ a n' (agree_on_sym _ _ _ Hag) Ha Hn)
      as (n0 & Hn0 & Ht & _ & Hc).
    rewrite <- Ht. apply (Hno a n0 Ha Hn0). unfold isElement in *. by rewrite Hc.
  - right. destruct (agree_on_lookup _ _ _ a n' Hag Ha Hn) as (n0 & Hn0 & Ht & _ & Hc).
    exists a, n0. repeat split; try done; [|congruence].
    unfold isElement in *. by rewrite Hc.
Qed.

Lemma root_spec_perm r0 hf l l' r :
  (forall x, x ∈ l -> x ∈ l') -> (forall x, x ∈ l' -> x ∈ l) ->
  root_spec r0 hf l r -> root_spec r0 hf l' r.
Proof.
  intros H1 H2 [[-> Hno]|(a & n' & -> & Ha & Hrest)].
  - left. split; [done|]. intros a n' Ha. apply Hno. auto.
  - right. exists a, n'. auto.
Qed.

Lemma root_spec_app r0 r1 r2 hf l1 l2 :
  root_spec r0 hf l1 r1 -> root_spec r1 hf l2 r2 ->
  root_spec r0 hf (l1 ++ l2) r2.
Proof.
  intros H1 [[-> Hno2]|(a & n' & -> & Ha & Hrest)].
  - destruct H1 as [[-> Hno1]|(a & n' & -> & Ha & Hrest)].
    + left. split; [done|]. intros a n' Ha.
      apply elem_of_app in Ha as [Ha|Ha]; eauto.
    + right. exists a, n'. split; [done|]. split; [|done].
      apply elem_of_app. by left.
  - right. exists a, n'. split; [done|]. split; [|done].
    apply elem_of_app. by right.
Qed.


Lemma agree_on_eq l (h h' : gmap positive node) :
  (forall b, b ∈ l -> h !! b = h' !! b) -> agree_on l h h'.
Proof. intros Heq b Hb. by rewrite Heq. Qed.

(** What a visit of the subtree [k] establishes. *)
Definition post (k : shape) (st st' : process_state) : Prop :=
  (forall b, b ∉ addrs k -> p_heap st' !! b = p_heap st !! b) /\
  links_eq (p_heap st) (p_heap st') /\
  done_spec (p_heap st) (p_heap st') k /\
  root_spec (p_root st) (p_heap st') (addrs k) (p_root st').

Definition visits (rec : addr -> process_state -> option process_state)
    (k : shape) : Prop :=
  forall st, repr (p_heap st) k ->
    (exists n, p_heap st !! root k = Some n /\ isElement n = true) ->
    exists st', rec (root k) st = Some st' /\ post k st st'.

Lemma links_eq_some h h' b : links_eq h h' -> is_Some (h !! b) -> is_Some (h' !! b).
Proof.
  intros Hl [n Hn]. specialize (Hl b). rewrite Hn in Hl.
  destruct (h' !! b); [eauto|discriminate].
Qed.

(** One child: the step of the loop. *)
Lemma processChild_spec rec a k kd kt st en :
  visits rec k ->
  p_heap st !! a = Some en ->
  a ∉ concat (map addrs (kd ++ k :: kt)) ->
  NoDup (concat (map addrs (kd ++ k :: kt))) ->
  repr (p_heap st) k ->
  (forall b, b ∈ map root kd -> is_Some (p_heap st !! b)) ->
  exists st2,
    (forall todo,
       processChildren rec a (map root kd) (root k :: todo) st
       = processChildren rec a (map root kd ++ [root k]) todo st2) /\
    (forall b, b ∉ addrs k -> p_heap st2 !! b = p_heap st !! b) /\
    links_eq (p_heap st) (p_heap st2) /\
    done_spec (p_heap st) (p_heap st2) k /\
    (forall cn, p_heap st !! root k = Some cn -> isElement cn = false ->
       text_done (p_heap st2) a (map root (kd ++ k :: kt)) (length kd) (root k)) /\
    root_spec (p_root st) (p_heap st2) (addrs k) (p_root st2).
Proof.
  intros Hrec Ha Hnotin Hnd Hrk Hkd.
  destruct (repr_root _ _ Hrk) as [cn0 Hc0].
  set (c := root k) in *.
  assert (Hcin : c ∈ concat (map addrs (kd ++ k :: kt))).
  { apply elem_of_concat_addrs. exists k. split; [|apply root_in_addrs].
    apply elem_of_app. right. left. }
  assert (Hac : a <> c) by (intros ->; done).
  set (h1 := <[c := set_parent (Some a) cn0]> (p_heap st)).
  assert (Hl1 : links_eq (p_heap st) h1)
    by (eapply links_eq_insert; [done|by destruct cn0]).
  assert (Hc1 : h1 !! c = Some (set_parent (Some a) cn0))
    by (unfold h1; apply lookup_insert_eq).
  destruct (isElement cn0) eqn:Hel.
  - (* an element: the recursive call *)
    destruct (Hrec (MkProcess h1 (p_nodeMap st) (p_root st)))
      as (st2 & Hrun & Hf & Hl & Hd & Hr).
    { simpl. by eapply repr_links. }
    { simpl. exists (set_parent (Some a) cn0). split; [done|]. by destruct cn0. }
    simpl in *. exists st2. split; [|split; [|split; [|split; [|split]]]].
    + intros todo. simpl. unfold modify. rewrite Hc0. simpl. fold h1.
      rewrite Hc1. simpl.
      replace (isElement (set_parent (Some a) cn0)) with true
        by (by destruct cn0).
      change (root k) with c in Hrun. rewrite Hrun. done.
    + intros b Hb. rewrite Hf by done. unfold h1. rewrite lookup_insert_ne; [done|].
      intros <-. apply Hb. apply root_in_addrs.
    + eapply links_eq_trans; eauto.
    + eapply done_spec_pre; [done| |exact Hd].
      intros b Hb. unfold h1. destruct (decide (c = b)) as [<-|Hne].
      * rewrite lookup_insert_eq, Hc0. by destruct cn0.
      * by rewrite lookup_insert_ne.
    + intros cn Hcn Hne. rewrite Hc0 in Hcn. injection Hcn as <-. congruence.
    + exact Hr.
  - (* a text run *)
    assert (Hk : k = Shape c []) by (by eapply repr_text_shape).
    set (cn1 := set_signature (signature_of h1 c) (set_parent (Some a) cn0)).
    set (h2 := <[c := cn1]> h1).
    assert (Hc2 : h2 !! c = Some cn1) by (unfold h2; apply lookup_insert_eq).
    assert (Hother : forall b, b <> c -> h2 !! b = p_heap st !! b).
    { intros b Hb. unfold h2, h1. by rewrite !lookup_insert_ne. }
    assert (Hkdc : forall b, b ∈ map root kd -> b <> c).
    { intros b Hb ->. apply list_elem_of_In, in_map_iff in Hb as (k0 & Hr0 & Hk0).
      apply list_elem_of_In in Hk0.
      rewrite map_app, concat_app in Hnd. apply NoDup_app in Hnd as (_ & Hdisj & _).
      apply (Hdisj c).
      - apply elem_of_concat_addrs. exists k0. split; [done|].
        rewrite <- Hr0. apply root_in_addrs.
      - simpl. apply elem_of_app. left. apply root_in_addrs. }
    destruct (mapM_total (fun b => tagID <$> h2 !! b) (map root kd)) as [ids Hids].
    { intros b Hb. rewrite Hother by auto. destruct (Hkd b Hb) as [n ->]. eauto. }
    set (id := getTextNodeID (tagID en) ids).
    set (h3 := <[c := set_tagID id cn1]> h2).
    exists (MkProcess h3 (<[key_of id := c]> (p_nodeMap st)) (p_root st)).
    assert (Hother3 : forall b, b <> c -> h3 !! b = p_heap st !! b).
    { intros b Hb. unfold h3. rewrite lookup_insert_ne by done. auto. }
    simpl. split; [|split; [|split; [|split; [|split]]]].
    + intros todo. simpl. unfold modify. rewrite Hc0. simpl. fold h1.
      rewrite Hc1. simpl.
      replace (isElement (set_parent (Some a) cn0)) with false
        by (by destruct cn0).
      unfold node_update, modify. rewrite Hc1. simpl. fold cn1. fold h2.
      rewrite (Hother a) by done. rewrite Ha. simpl. rewrite Hids. simpl.
      rewrite Hc2. simpl. done.
    + intros b Hb. apply Hother3. intros ->. apply Hb. apply root_in_addrs.
    + eapply links_eq_trans; [exact Hl1|].
      eapply links_eq_trans.
      * eapply (links_eq_insert h1 c _ cn1); [exact Hc1|by destruct cn0].
      * eapply (links_eq_insert h2 c _ (set_tagID id cn1));
          [exact Hc2|by destruct cn0].
    + rewrite Hk. split.
      * intros b Hb n Hn He. simpl in Hb. apply elem_of_cons in Hb as [->|Hb];
          [|inversion Hb]. congruence.
      * intros e0 en0 ch i c0 cn' He0 Hen0 Hch. simpl in He0.
        apply elem_of_cons in He0 as [->|He0]; [|inversion He0].
        rewrite Hc0 in Hen0. injection Hen0 as <-.
        unfold isElement in Hel. rewrite Hch in Hel. discriminate.
    + intros _ _ _. exists en, (set_tagID id cn1), ids.
      rewrite Hother3 by done. unfold h3 at 1. rewrite lookup_insert_eq.
      repeat split; try done.
      rewrite map_app, <- (length_map root kd), take_app_length.
      rewrite <- Hids. apply mapM_agree. intros b Hb.
      unfold h3. rewrite lookup_insert_ne; [done|]. intros <-. by apply (Hkdc c).
    + left. split; [done|]. intros b n' Hb Hn' He. exfalso. rewrite Hk in Hb.
      simpl in Hb. apply elem_of_cons in Hb as [->|Hb]; [|inversion Hb].
      unfold h3 in Hn'. rewrite lookup_insert_eq in Hn'. injection Hn' as <-.
      unfold isElement in *. destruct cn0; simpl in *. congruence.
Qed.


Lemma disjoint_kids (ks1 ks2 : list shape) b :
  NoDup (concat (map addrs (ks1 ++ ks2))) ->
  b ∈ concat (map addrs ks1) -> b ∈ concat (map addrs ks2) -> False.
Proof.
  rewrite map_app, concat_app. intros Hnd H1 H2.
  apply NoDup_app in Hnd as (_ & Hdisj & _). by apply (Hdisj b).
Qed.

(** The loop over the children. *)
Lemma processChildren_spec rec a : forall kt kd st en,
  Forall (visits rec) kt ->
  p_heap st !! a = Some en ->
  a ∉ concat (map addrs (kd ++ kt)) ->
  NoDup (concat (map addrs (kd ++ kt))) ->
  Forall (repr (p_heap st)) kt ->
  (forall b, b ∈ map root kd -> is_Some (p_heap st !! b)) ->
  exists st',
    processChildren rec a (map root kd) (map root kt) st = Some st' /\
    (forall b, b ∉ concat (map addrs kt) -> p_heap st' !! b = p_heap st !! b) /\
    links_eq (p_heap st) (p_heap st') /\
    Forall (fun k => done_spec (p_heap st) (p_heap st') k) kt /\
    (forall j k cn, kt !! j = Some k -> p_heap st !! root k = Some cn ->
       isElement cn = false ->
       text_done (p_heap st') a (map root (kd ++ kt)) (length kd + j) (root k)) /\
    root_spec (p_root st) (p_heap st') (concat (map addrs kt)) (p_root st').
Proof.
  induction kt as [|k kt IH]; intros kd st en Hrec Ha Hnotin Hnd Hr Hkd.
  - exists st. simpl. split; [done|]. split; [done|]. split; [apply links_eq_refl|].
    split; [constructor|]. split; [intros j k cn Hj; inversion Hj|].
    left. split; [done|]. intros b n' Hb. inversion Hb.
  - inversion Hrec as [|? ? Hreck Hrect]; subst.
    inversion Hr as [|? ? Hrk Hrt]; subst.
    destruct (processChild_spec rec a k kd kt st en Hreck Ha Hnotin Hnd Hrk Hkd)
      as (st2 & Hstep & Hf2 & Hl2 & Hd2 & Ht2 & Hr2).
    assert (Hassoc : (kd ++ [k]) ++ kt = kd ++ k :: kt) by (by rewrite <- app_assoc).
    assert (Hkrest : forall b, b ∈ addrs k -> b ∉ concat (map addrs kt)).
    { intros b Hb Hb'. rewrite <- Hassoc in Hnd.
      apply (disjoint_kids (kd ++ [k]) kt b Hnd); [|done].
      rewrite map_app, concat_app. apply elem_of_app. right. simpl.
      by rewrite app_nil_r. }
    assert (Hkdrest : forall b, b ∈ concat (map addrs kd) ->
              b ∉ concat (map addrs kt)).
    { intros b Hb Hb'. rewrite <- Hassoc in Hnd.
      apply (disjoint_kids (kd ++ [k]) kt b Hnd); [|done].
      rewrite map_app, concat_app. apply elem_of_app. by left. }
    assert (Harest : a ∉ concat (map addrs kt)).
    { intros Hin. apply Hnotin. rewrite map_app, concat_app. apply elem_of_app.
      right. simpl. apply elem_of_app. by right. }
    assert (Hak : a ∉ addrs k).
    { intros Hin. apply Hnotin. rewrite map_app, concat_app. apply elem_of_app.
      right. simpl. apply elem_of_app. by left. }
    destruct (IH (kd ++ [k]) st2 en) as (st' & Hrun & Hf & Hl & Hd & Ht & Hrs).
    + done.
    + by rewrite Hf2.
    + by rewrite Hassoc.
    + by rewrite Hassoc.
    + eapply Forall_impl; [exact Hrt|]. intros s0. by apply repr_links.
    + intros b Hb. eapply links_eq_some; [exact Hl2|].
      rewrite map_app in Hb. apply elem_of_app in Hb as [Hb|Hb]; [by apply Hkd|].
      simpl in Hb. apply elem_of_cons in Hb as [->|Hb]; [|inversion Hb].
      by eapply repr_root.
    + exists st'. split; [|split; [|split; [|split; [|split]]]].
      * change (map root (k :: kt)) with (root k :: map root kt).
        rewrite Hstep. rewrite map_app in Hrun. exact Hrun.
      * intros b Hb. simpl in Hb. rewrite Hf, Hf2; [done| |];
          intros Hin; apply Hb; apply elem_of_app; auto.
      * eapply links_eq_trans; eauto.
      * constructor.
        -- eapply done_spec_frame; [done| |exact Hd2].
           apply agree_on_eq. intros b Hb. symmetry. apply Hf. by apply Hkrest.
        -- rewrite Forall_forall in *. intros k' Hk'.
           eapply done_spec_pre; [by apply Hrt| |by apply Hd].
           intros b Hb. rewrite Hf2; [done|]. intros Hbk.
           apply (Hkrest b Hbk). apply elem_of_concat_addrs. eauto.
      * intros j k' cn Hj Hcn Hne. destruct j as [|j]; simpl in Hj.
        -- injection Hj as <-. rewrite Nat.add_0_r.
           eapply text_done_frame; [|by eapply Ht2].
           apply agree_on_eq. intros b Hb. symmetry. apply Hf.
           apply elem_of_cons in Hb as [->|Hb]; [done|].
           apply elem_of_cons in Hb as [->|Hb].
           { apply Hkrest, root_in_addrs. }
           rewrite map_app, <- (length_map root kd), take_app_length in Hb.
           apply Hkdrest. apply list_elem_of_In, in_map_iff in Hb as (k0 & <- & Hk0).
           apply elem_of_concat_addrs. exists k0.
           split; [by apply list_elem_of_In | apply root_in_addrs].
        -- specialize (Ht j k' cn Hj). rewrite Hassoc in Ht.
           rewrite length_app in Ht. simpl in Ht.
           replace (length kd + S j)%nat with (length kd + 1 + j)%nat by lia.
           apply Ht; [|done]. rewrite Hf2; [done|]. intros Hin.
           apply (Hkrest _ Hin). apply elem_of_concat_addrs. exists k'.
           split; [by eapply list_elem_of_lookup_2 | apply root_in_addrs].
      * simpl. eapply root_spec_app; [|exact Hrs].
        eapply root_spec_frame; [|exact Hr2].
        apply agree_on_eq. intros b Hb. symmetry. apply Hf. by apply Hkrest.
Qed.


Lemma processElement_spec s : forall fuel st,
  repr (p_heap st) s -> NoDup (addrs s) ->
  (exists n, p_heap st !! root s = Some n /\ isElement n = true) ->
  (height s < fuel)%nat ->
  exists st', _processElement fuel sid (root s) st = Some st' /\ post s st st'.
Proof.
  induction s as [a ks IH] using shape_ind'.
  intros fuel st Hr Hnd (n & Hn & Hel) Hfuel.
  destruct fuel as [|fuel]; [lia|]. simpl in Hfuel, Hn. simpl.
  pose proof Hr as Hr0.
  apply repr_inv in Hr as (n0 & Hn0 & Hch & _ & Hks).
  rewrite Hn in Hn0. injection Hn0 as <-. rewrite Hn. simpl.
  unfold isElement in Hel. destruct (children n) as [ch|] eqn:Hc; [|discriminate].
  simpl in Hch. subst ch.
  set (id := default JUndefined (attributes n !! reserved_attribute)).
  set (n' := set_attributes (delete reserved_attribute (attributes n))
               (set_tagID id n)).
  replace (children n') with (Some (map root ks)) by (by destruct n).
  simpl.
  set (st0 := MkProcess (<[a := n']> (p_heap st)) (p_nodeMap st) (p_root st)).
  apply NoDup_cons in Hnd as [Hnotin Hnd].
  assert (Hl0 : links_eq (p_heap st) (p_heap st0)).
  { eapply links_eq_insert; [done|]. by destruct n. }
  assert (Hother0 : forall b, b <> a -> p_heap st0 !! b = p_heap st !! b).
  { intros b Hb. simpl. by rewrite lookup_insert_ne. }
  destruct (processChildren_spec (_processElement fuel sid) a ks [] st0 n')
    as (st1 & Hrun & Hf1 & Hl1 & Hd1 & Ht1 & Hr1).
  { rewrite Forall_forall in *. intros k Hk st' Hrk Hek.
    apply IH; try done.
    - clear -Hnd Hk. induction ks as [|k0 ks IHks]; [inversion Hk|].
      simpl in Hnd. apply NoDup_app in Hnd as (H1 & _ & H2).
      apply elem_of_cons in Hk as [->|Hk]; auto.
    - apply height_kid in Hk. lia. }
  { simpl. apply lookup_insert_eq. }
  { done. }
  { done. }
  { eapply Forall_impl; [exact Hks|]. intros s0. by apply repr_links. }
  { intros b Hb. inversion Hb. }
  simpl in Hrun. rewrite Hrun. simpl.
  assert (Ha1 : p_heap st1 !! a = Some n').
  { rewrite Hf1 by done. simpl. apply lookup_insert_eq. }
  unfold node_update, modify. rewrite Ha1. simpl. rewrite lookup_insert_eq. simpl.
  set (n'' := set_signature (signature_of (p_heap st1) a) n').
  set (h2 := <[a := n'']> (p_heap st1)).
  assert (Hid : tagID n'' = id) by (by destruct n).
  eexists. split; [done|]. unfold post. simpl.
  assert (Hother2 : forall b, b <> a -> h2 !! b = p_heap st1 !! b).
  { intros b Hb. unfold h2. by rewrite lookup_insert_ne. }
  assert (Hag12 : forall l, a ∉ l -> agree_on l (p_heap st1) h2).
  { intros l Hl. apply agree_on_eq. intros b Hb. rewrite Hother2; [done|].
    by intros ->. }
  assert (Hkid : forall k, k ∈ ks -> a ∉ addrs k).
  { intros k Hk Hin. apply Hnotin. apply elem_of_concat_addrs. eauto. }
  split; [|split; [|split]].
  - intros b Hb. rewrite Hother2, Hf1, Hother0; try done.
    + intros ->. apply Hb. left.
    + intros Hin. apply Hb. by right.
    + intros ->. apply Hb. left.
  - eapply links_eq_trans; [exact Hl0|]. eapply links_eq_trans; [exact Hl1|].
    eapply links_eq_insert; [exact Ha1|]. by destruct n.
  - assert (Hkids : forall k, k ∈ ks -> done_spec (p_heap st) h2 k).
    { intros k Hk. rewrite Forall_forall in Hd1, Hks.
      eapply done_spec_frame; [by apply Hks|by apply Hag12, Hkid|].
      eapply done_spec_pre; [by apply Hks| |by apply Hd1].
      intros b Hb. rewrite Hother0; [done|]. intros ->. by apply (Hkid k). }
    split.
    + intros b Hb. apply elem_of_cons in Hb as [->|Hb].
      * intros m Hm _. rewrite Hn in Hm. injection Hm as <-.
        exists n''. unfold h2. rewrite lookup_insert_eq. split; [done|].
        split; [done|]. by destruct n.
      * apply elem_of_concat_addrs in Hb as (k & Hk & Hb). by apply (Hkids k Hk).
    + intros e en ch i c cn He Hen Hche Hi Hcn Hne.
      apply elem_of_cons in He as [->|He].
      * rewrite Hn in Hen. injection Hen as <-. rewrite Hc in Hche.
        injection Hche as <-.
        rewrite list_lookup_fmap in Hi.
        destruct (ks !! i) as [k|] eqn:Hki; [|discriminate].
        simpl in Hi. injection Hi as <-.
        assert (Hkin : k ∈ ks) by (by eapply list_elem_of_lookup_2).
        assert (Hrk : root k <> a).
        { intros E. apply (Hkid k Hkin). rewrite <- E. apply root_in_addrs. }
        specialize (Ht1 i k cn Hki). simpl in Ht1.
        rewrite Hother0 in Ht1 by done. specialize (Ht1 Hcn Hne).
        destruct Ht1 as (en1 & cn1 & ids & He1 & Hc1 & Hids & Htid).
        rewrite Ha1 in He1. injection He1 as <-.
        exists n'', cn1, ids.
        split; [unfold h2; apply lookup_insert_eq|].
        split; [by rewrite Hother2|]. split; [|by rewrite Hid].
        rewrite <- Hids. apply mapM_agree. intros b Hb. rewrite Hother2; [done|].
        intros ->. apply Hnotin. apply subseteq_take in Hb.
        apply list_elem_of_In, in_map_iff in Hb as (k0 & <- & Hk0).
        apply elem_of_concat_addrs. exists k0.
        split; [by apply list_elem_of_In | apply root_in_addrs].
      * apply elem_of_concat_addrs in He as (k & Hk & He).
        destruct (Hkids k Hk) as [_ Htx]. by eapply Htx.
  - assert (Hr2 : root_spec (p_root st) h2 (concat (map addrs ks)) (p_root st1)).
    { eapply root_spec_frame; [by apply Hag12|exact Hr1]. }
    unfold strict_eq. destruct (decide (id = sid)) as [Heq|Hneq].
    + rewrite bool_decide_eq_true_2 by done. right. exists a, n''.
      split; [done|]. split; [left|]. unfold h2. rewrite lookup_insert_eq.
      split; [done|]. split; [|congruence].
      unfold isElement, n'', n'. simpl. by rewrite Hc.
    + rewrite bool_decide_eq_false_2 by done.
      eapply (root_spec_perm _ _ (concat (map addrs ks) ++ [a])).
      { intros x Hx. apply elem_of_app in Hx as [Hx|Hx]; [by right|].
        apply elem_of_cons in Hx as [->|Hx]; [left|inversion Hx]. }
      { intros x Hx. apply elem_of_app. apply elem_of_cons in Hx as [->|Hx]; auto.
        right. left. }
      eapply root_spec_app; [exact Hr2|]. left. split; [done|].
      intros b nb Hb Hnb _. apply elem_of_cons in Hb as [->|Hb]; [|inversion Hb].
      unfold h2 in Hnb. rewrite lookup_insert_eq in Hnb. injection Hnb as <-.
      congruence.
Qed.


(** C7.  On the tree of an observed document the reconciler terminates;
    every element takes as identifier the value of its reserved attribute
    and loses that attribute; every text run takes the identifier that
    [getTextNodeID] derives from the identifier of its parent and those of
    the children before it; and the comparison root is an observed element
    whose identifier is the session root's, or the observed root when no
    observed element carries that identifier.  [_getBrowserDiff] hands that
    root and the session's tree to the differ. *)
Theorem reconciler_adaptation (fuel : nat) (h : gmap positive node)
    (s : shape) (rn : node) :
  repr h s -> NoDup (addrs s) ->
  h !! root s = Some rn -> isElement rn = true -> (height s < fuel)%nat ->
  exists r h',
    _processBrowserSimpleDOM fuel (root s) sid h = Some (r, h') /\
    (forall a, a ∈ addrs s -> elem_done h h' a) /\
    (forall e en ch i c cn, e ∈ addrs s -> h !! e = Some en ->
       children en = Some ch -> ch !! i = Some c -> h !! c = Some cn ->
       isElement cn = false -> text_done h' e ch i c) /\
    ((exists n', r ∈ addrs s /\ h' !! r = Some n' /\ isElement n' = true /\
        tagID n' = sid) \/
     (r = root s /\
      forall a n', a ∈ addrs s -> h' !! a = Some n' -> isElement n' = true ->
        tagID n' <> sid)) /\
    (forall sess sr srn, sdom sess = Some sr -> h !! sr = Some srn ->
       tagID srn = sid ->
       _getBrowserDiff fuel sess (root s) h
       = Some (MkDiff (domdiff h' (Some sr) r) r sr, h')).
Proof.
  intros Hr Hnd Hrn Hel Hfuel.
  destruct (processElement_spec s fuel (MkProcess h ∅ None))
    as (st' & Hrun & Hf & Hl & Hd & Hroot); simpl; eauto.
  simpl in *.
  set (r := default (root s) (p_root st')).
  assert (Hrin : r ∈ addrs s).
  { unfold r. destruct Hroot as [[-> _]|(a & n' & -> & Ha & _)]; simpl;
      [apply root_in_addrs | done]. }
  assert (Hsome : is_Some (p_heap st' !! r)).
  { eapply links_eq_some; [exact Hl|].
    by eapply repr_in_heap. }
  destruct Hsome as [rn' Hrn'].
  set (h' := <[r := set_nodeMap (Some (p_nodeMap st')) rn']> (p_heap st')).
  assert (Hag : agree_on (addrs s) (p_heap st') h').
  { intros b Hb. unfold h'. destruct (decide (r = b)) as [<-|Hne].
    - rewrite lookup_insert_eq, Hrn'. by destruct rn'.
    - by rewrite lookup_insert_ne. }
  assert (Hd' : done_spec h h' s) by (by eapply done_spec_frame).
  assert (Hroot' : root_spec None h' (addrs s) (p_root st'))
    by (by eapply root_spec_frame).
  assert (Hproc : _processBrowserSimpleDOM fuel (root s) sid h = Some (r, h')).
  { unfold _processBrowserSimpleDOM. rewrite Hrun. simpl. fold r.
    unfold modify. by rewrite Hrn'. }
  exists r, h'. split; [done|]. destruct Hd' as [Hd1 Hd2].
  split; [done|]. split; [done|]. split.
  - destruct Hroot' as [[Hnone Hno]|(a & n' & Hsome & Ha & Hn' & He & Hid)].
    + right. split; [|done]. unfold r. by rewrite Hnone.
    + left. exists n'. unfold r in *. rewrite Hsome in *. done.
  - intros sess sr srn Hs Hsr Hsid. unfold _getBrowserDiff. rewrite Hs. simpl.
    rewrite Hsr. simpl. rewrite Hsid, Hproc. done.
Qed.

End Reconciler.

(** An observed document: the renderer has wrapped the source's [div],
    whose identifier is 5, in [html] and [body] elements of its own. *)
Definition ex_browser_node (t : string) (attrs : gmap string jsval)
    (ch : option (list addr)) : node :=
  Node JUndefined t attrs "" (Pos 0 0) (Pos 0 0) ch None None 0 None.

Definition ex_browser : gmap positive node :=
  <[1%positive := ex_browser_node "html" ∅ (Some [2%positive])]>
  (<[2%positive := ex_browser_node "body" ∅ (Some [3%positive])]>
  (<[3%positive := ex_browser_node "div"
       (<[reserved_attribute := JNum 5]> (<["class" := JStr "x"]> ∅))
       (Some [4%positive; 5%positive; 6%positive])]>
  (<[4%positive := ex_browser_node "" ∅ None]>
  (<[5%positive := ex_browser_node "p"
       (<[reserved_attribute := JNum 6]> ∅) (Some [])]>
  (<[6%positive := ex_browser_node "" ∅ None]> ∅))))).

Definition ex_browser_shape : shape :=
  Shape 1 [Shape 2 [Shape 3 [Shape 4 []; Shape 5 []; Shape 6 []]]].

Lemma ex_browser_repr : repr ex_browser ex_browser_shape.
Proof. solve_repr. Qed.

Lemma ex_browser_nodup : NoDup (addrs ex_browser_shape).
Proof. apply (bool_decide_unpack _). vm_compute. exact I. Qed.

(** The scenario of the injected wrappers: the comparison root is the
    [div], the text runs are named after their place, and the map of the
    [div] holds every node the walk has named, the wrappers (under the
    key of the undefined identifier) with them. *)
Example ex_browser_run :
  exists h', _processBrowserSimpleDOM (H := ex_env) 5 1 (JNum 5) ex_browser
             = Some (3%positive, h') /\
    tagID <$> h' !! 4%positive = Some (JStr "5.0") /\
    tagID <$> h' !! 6%positive = Some (JStr "6t") /\
    (h' !! 3%positive) ≫= nodeMap
    = Some (<["5" := 3%positive]> (<["6" := 5%positive]>
             (<["5.0" := 4%positive]> (<["6t" := 6%positive]>
             (<["undefined" := 1%positive]> ∅))))).
Proof. eexists. split; [vm_compute; reflexivity|]. vm_compute. done. Qed.

(** No observed element carries the session root's identifier: the
    observed root is compared. *)
Example ex_browser_fallback :
  exists h', _processBrowserSimpleDOM (H := ex_env) 5 1 (JNum 9) ex_browser
             = Some (1%positive, h').
Proof. eexists. vm_compute. reflexivity. Qed.

Lemma reconciler_adaptation_witness :
  exists r h',
    _processBrowserSimpleDOM (H := ex_env) 5 (root ex_browser_shape) (JNum 5)
      ex_browser = Some (r, h') /\
    (forall a, a ∈ addrs ex_browser_shape -> elem_done ex_browser h' a) /\
    (forall e en ch i c cn, e ∈ addrs ex_browser_shape ->
       ex_browser !! e = Some en ->
       children en = Some ch -> ch !! i = Some c ->
       ex_browser !! c = Some cn ->
       isElement cn = false -> text_done h' e ch i c) /\
    ((exists n', r ∈ addrs ex_browser_shape /\ h' !! r = Some n' /\
        isElement n' = true /\ tagID n' = JNum 5) \/
     (r = root ex_browser_shape /\
      forall a n', a ∈ addrs ex_browser_shape -> h' !! a = Some n' ->
        isElement n' = true -> tagID n' <> JNum 5)) /\
    (forall sess sr srn, sdom sess = Some sr -> ex_browser !! sr = Some srn ->
       tagID srn = JNum 5 ->
       _getBrowserDiff 5 sess (root ex_browser_shape) ex_browser
       = Some (MkDiff (domdiff h' (Some sr) r) r sr, h')).
Proof.
  apply (reconciler_adaptation (H := ex_env) (JNum 5) 5 ex_browser
           ex_browser_shape
           (ex_browser_node "html" ∅ (Some [2%positive]))).
  - exact ex_browser_repr.
  - exact ex_browser_nodup.
  - reflexivity.
  - reflexivity.
  - simpl. lia.
Defined.

(** ** More on the lookup of a position *)

(** [p] is strictly inside the span of [n]. *)
Definition encloses (n : node) (p : pos) : Prop :=
  pos_lt (startPos n) p /\ pos_lt p (endPos n).

(** The children that are elements come in document order: each one
    starts no later than it ends, and ends no later than the next one
    starts. *)
Definition siblings_ordered (h : gmap positive node) (l : list addr) : Prop :=
  (forall c cn, c ∈ l -> h !! c = Some cn -> isElement cn = true ->
     pos_le (startPos cn) (endPos cn)) /\
  (forall i j ci cj ni nj, (i < j)%nat -> l !! i = Some ci -> l !! j = Some cj ->
     h !! ci = Some ni -> h !! cj = Some nj ->
     isElement ni = true -> isElement nj = true ->
     pos_le (endPos ni) (startPos nj)).

Inductive ordered (h : gmap positive node) : shape -> Prop :=
| ordered_intro a ks :
    siblings_ordered h (map root ks) -> Forall (ordered h) ks ->
    ordered h (Shape a ks).

Lemma siblings_ordered_tail h c l :
  siblings_ordered h (c :: l) -> siblings_ordered h l.
Proof.
  intros [Hw Ho]. split.
  - intros c' cn Hc. apply Hw. by right.
  - intros i j ci cj ni nj Hij Hi Hj. apply (Ho (S i) (S j)); [lia|done|done].
Qed.

(** After an element child that starts at or after [p], or ends at or
    before [p], no later sibling encloses [p]. *)
Lemma siblings_ordered_later h c cn l p :
  siblings_ordered h (c :: l) -> h !! c = Some cn -> isElement cn = true ->
  pos_le p (endPos cn) ->
  forall c' cn', c' ∈ l -> h !! c' = Some cn' -> isElement cn' = true ->
    ~ encloses cn' p.
Proof.
  intros [Hw Ho] Hc He Hp c' cn' Hin Hc' He' [Hs _].
  apply list_elem_of_lookup in Hin as [j Hj].
  pose proof (Ho O (S j) c c' cn cn' ltac:(lia) eq_refl Hj Hc Hc' He He') as Hle.
  unfold pos_le, pos_lt in *. lia.
Qed.

(** On ordered siblings the loop answers the node itself only when no
    child element encloses the position. *)
Lemma findNode_loop_ordered rec h node p pp l r :
  siblings_ordered h l ->
  findNode_loop rec h node p pp l = Some r ->
  (r = node /\
   forall c cn, c ∈ l -> h !! c = Some cn -> isElement cn = true ->
     ~ encloses cn p) \/
  exists c cn, c ∈ l /\ h !! c = Some cn /\ isElement cn = true /\
    encloses cn p /\ rec c = Some r.
Proof.
  induction l as [|c l IH]; simpl; intros Hord Hl.
  - left. split; [congruence|]. intros c cn Hc. by apply elem_of_nil in Hc.
  - destruct (h !! c) as [cn|] eqn:Hc; [|discriminate].
    assert (Hnext : findNode_loop rec h node p pp l = Some r ->
              ~ (isElement cn = true /\ encloses cn p) ->
              (r = node /\
               forall c0 cn0, c0 ∈ c :: l -> h !! c0 = Some cn0 ->
                 isElement cn0 = true -> ~ encloses cn0 p) \/
              exists c0 cn0, c0 ∈ c :: l /\ h !! c0 = Some cn0 /\
                isElement cn0 = true /\ encloses cn0 p /\ rec c0 = Some r).
    { intros H Hno.
      apply IH in H; [|by eapply siblings_ordered_tail].
      destruct H as [[-> Hall]|(c0 & cn0 & Hin & H)].
      - left. split; [done|]. intros c0 cn0 Hin Hc0 He0.
        apply elem_of_cons in Hin as [->|Hin]; [|eauto].
        rewrite Hc in Hc0. injection Hc0 as <-. tauto.
      - right. exists c0, cn0. split; [by right | done]. }
    assert (Hbreak : isElement cn = true -> pos_le p (endPos cn) ->
              ~ encloses cn p ->
              forall c0 cn0, c0 ∈ c :: l -> h !! c0 = Some cn0 ->
                isElement cn0 = true -> ~ encloses cn0 p).
    { intros He Hp Hno c0 cn0 Hin Hc0 He0.
      apply elem_of_cons in Hin as [->|Hin].
      - rewrite Hc in Hc0. by injection Hc0 as <-.
      - by eapply (siblings_ordered_later h c cn l p). }
    destruct (children cn) as [ch|] eqn:Hch.
    2:{ apply Hnext in Hl; [done|]. unfold isElement. rewrite Hch.
        intros [? _]. done. }
    assert (He : isElement cn = true) by (unfold isElement; by rewrite Hch).
    destruct (comparePoints p (endPos cn) <? 0) eqn:C1.
    + apply cmp_lt in C1.
      destruct (comparePoints p (startPos cn) >? 0) eqn:C2.
      * apply cmp_gt in C2. right. exists c, cn. split; [left|]. done.
      * left. split; [congruence|]. apply Hbreak; [done| |].
        -- unfold pos_le, pos_lt in *. lia.
        -- intros [Hs _]. apply cmp_gt in Hs. congruence.
    + apply cmp_lt_false in C1.
      destruct (pp && (comparePoints p (endPos cn) =? 0)) eqn:C3.
      * left. split; [congruence|]. apply Hbreak; [done| |].
        -- apply andb_true_iff in C3 as [_ C3]. apply Z.eqb_eq in C3.
           unfold comparePoints in C3. unfold pos_le.
           destruct (Z.eqb_spec (row p - row (endPos cn)) 0); lia.
        -- intros [_ He']. unfold pos_le, pos_lt in *. lia.
      * apply Hnext; [done|]. intros [_ [_ He']].
        unfold pos_le, pos_lt in *. lia.
Qed.

Lemma findNode_strict (s : shape) : forall (fuel : nat)
    (h : gmap positive node) (p : pos) (preferParent : bool),
  repr h s -> (height s < fuel)%nat ->
  exists r, findNode fuel h (Some (root s)) p preferParent = Some (Some r) /\
    r ∈ addrs s /\
    (r = root s \/
     exists n, h !! r = Some n /\ isElement n = true /\ encloses n p).
Proof.
  induction s as [a ks IH] using shape_ind'. intros fuel h p pp Hr Hfuel.
  destruct (findNode_total (Shape a ks) fuel h p pp Hr Hfuel)
    as (r & Hfind & Hin & _).
  exists r. split; [done|]. split; [done|].
  destruct fuel as [|fuel]; [simpl in Hfuel; lia|]. simpl in Hfuel, Hfind.
  pose proof Hr as Hr0.
  apply repr_inv in Hr as (n & Hn & Hch & Hnil & Hks).
  rewrite Hn, Hch in Hfind.
  apply findNode_loop_cases in Hfind
    as [Heq|(c & cn & Hc & Hcn & He & Hs & He' & Hrec)].
  - left. simpl. congruence.
  - destruct (repr_kid_lookup h a ks c Hr0 Hc) as (k & Hk & <- & Hrk).
    rewrite Forall_forall in IH.
    destruct (IH k Hk fuel h p pp Hrk) as (r' & Hr' & _ & Hcase).
    { apply height_kid in Hk. lia. }
    rewrite Hr' in Hrec. injection Hrec as ->. right.
    destruct Hcase as [->|Hcase]; [|done]. exists cn. done.
Qed.

(** X1.  On every tree the lookup of a position terminates and returns a
    node of the tree; a node other than the root of the search has the
    position strictly inside its span; and the identifier at the position
    is the identifier of that node. *)
Theorem findNode_encloses (s : shape) (fuel : nat)
    (h : gmap positive node) (p : pos) (preferParent : bool) :
  repr h s -> (height s < fuel)%nat ->
  exists r n,
    _getNodeAtDocumentPos fuel (Session (Some (root s))) p preferParent h
    = Some (Some r) /\
    r ∈ addrs s /\ h !! r = Some n /\
    (r = root s \/ (isElement n = true /\ encloses n p)) /\
    (preferParent = false ->
     _getTagIDAtDocumentPos fuel (Session (Some (root s))) p h
     = Some (tagID n)).
Proof.
  intros Hr Hfuel.
  destruct (findNode_strict s fuel h p preferParent Hr Hfuel)
    as (r & Hf & Hin & Hcase).
  destruct (repr_in_heap h s r Hr Hin) as [n Hn]. exists r, n.
  split; [done|]. split; [done|]. split; [done|]. split.
  - destruct Hcase as [->|(n' & Hn' & He & Henc)]; [by left|]. right.
    rewrite Hn in Hn'. by injection Hn' as <-.
  - intros ->. unfold _getTagIDAtDocumentPos, _getNodeAtDocumentPos. simpl.
    by rewrite Hf, Hn.
Qed.

Lemma findNode_encloses_witness :
  exists r n,
    _getNodeAtDocumentPos 4 (Session (Some (root ex_shape))) (Pos 0 5) false
      ex_heap = Some (Some r) /\
    r ∈ addrs ex_shape /\ ex_heap !! r = Some n /\
    (r = root ex_shape \/ (isElement n = true /\ encloses n (Pos 0 5))) /\
    (false = false ->
     _getTagIDAtDocumentPos 4 (Session (Some (root ex_shape))) (Pos 0 5) ex_heap
     = Some (tagID n)).
Proof.
  apply (findNode_encloses ex_shape 4 ex_heap (Pos 0 5) false).
  - exact ex_repr.
  - simpl. lia.
Defined.

(** X2.  On a tree whose sibling elements are in document order the node
    the lookup returns is innermost: none of its child elements has the
    position strictly inside its span. *)
Theorem findNode_innermost (s : shape) : forall (fuel : nat)
    (h : gmap positive node) (p : pos) (preferParent : bool),
  repr h s -> ordered h s -> (height s < fuel)%nat ->
  exists r n, findNode fuel h (Some (root s)) p preferParent = Some (Some r) /\
    h !! r = Some n /\
    forall c cn, c ∈ default [] (children n) -> h !! c = Some cn ->
      isElement cn = true -> ~ encloses cn p.
Proof.
  induction s as [a ks IH] using shape_ind'. intros fuel h p pp Hr Ho Hfuel.
  destruct (findNode_total (Shape a ks) fuel h p pp Hr Hfuel)
    as (r & Hfind & Hin & _).
  exists r. rewrite Hfind.
  destruct fuel as [|fuel]; [simpl in Hfuel; lia|]. simpl in Hfuel, Hfind.
  pose proof Hr as Hr0.
  apply repr_inv in Hr as (n & Hn & Hch & Hnil & Hks).
  rewrite Hn, Hch in Hfind. inversion Ho as [a' ks' Hsib Hoks]; subst.
  apply findNode_loop_ordered in Hfind
    as [[Heq Hall]|(c & cn & Hc & Hcn & He & Hs & Hrec)]; [| |done].
  - injection Heq as ->. exists n. rewrite Hch. done.
  - destruct (repr_kid_lookup h a ks c Hr0 Hc) as (k & Hk & <- & Hrk).
    rewrite Forall_forall in IH, Hoks.
    destruct (IH k Hk fuel h p pp Hrk (Hoks k Hk)) as (r' & n' & Hr' & Hn' & Hall).
    { apply height_kid in Hk. lia. }
    rewrite Hr' in Hrec. injection Hrec as ->. exists n'. done.
Qed.

Lemma findNode_loop_preferParent rec1 rec2 h node p l :
  siblings_ordered h l ->
  (forall c, c ∈ l -> is_Some (h !! c)) ->
  (forall c, c ∈ l -> rec1 c = rec2 c) ->
  findNode_loop rec1 h node p true l = findNode_loop rec2 h node p false l.
Proof.
  induction l as [|c l IH]; simpl; intros Hord Hin Hrec; [done|].
  destruct (Hin c) as [cn Hc]; [left|]. rewrite Hc.
  assert (Hnext : findNode_loop rec1 h node p true l
                  = findNode_loop rec2 h node p false l).
  { apply IH; [by eapply siblings_ordered_tail| |];
      intros; [apply Hin | apply Hrec]; by right. }
  destruct (children cn) as [ch|] eqn:Hch; [|done].
  assert (He : isElement cn = true) by (unfold isElement; by rewrite Hch).
  destruct (comparePoints p (endPos cn) <? 0) eqn:C1.
  - destruct (comparePoints p (startPos cn) >? 0); [|done]. apply Hrec. left.
  - simpl. destruct (Z.eqb_spec (comparePoints p (endPos cn)) 0) as [C0|C0];
      [|done].
    symmetry. apply findNode_loop_self.
    + intros c' Hc'. apply Hin. by right.
    + apply (siblings_ordered_later h c cn l p Hord Hc He).
      unfold comparePoints in C0. unfold pos_le.
      destruct (Z.eqb_spec (row p - row (endPos cn)) 0); lia.
Qed.

(** X3.  On a tree whose sibling elements are in document order the flag
    [preferParent] makes no difference: a position on the edge of an
    element already resolves to the enclosing node. *)
Theorem findNode_preferParent (s : shape) : forall (fuel : nat)
    (h : gmap positive node) (p : pos),
  repr h s -> ordered h s ->
  findNode fuel h (Some (root s)) p true
  = findNode fuel h (Some (root s)) p false.
Proof.
  induction s as [a ks IH] using shape_ind'. intros fuel h p Hr Ho.
  destruct fuel as [|fuel]; [done|]. simpl.
  pose proof Hr as Hr0.
  apply repr_inv in Hr as (n & Hn & Hch & Hnil & Hks).
  rewrite Hn, Hch. inversion Ho as [a' ks' Hsib Hoks]; subst.
  apply findNode_loop_preferParent; [done| |].
  - intros c Hc. destruct (repr_kid_lookup h a ks c Hr0 Hc) as (k & _ & <- & Hrk).
    by apply repr_root.
  - intros c Hc. destruct (repr_kid_lookup h a ks c Hr0 Hc) as (k & Hk & <- & Hrk).
    rewrite Forall_forall in IH, Hoks. apply IH; [done|done|by apply Hoks].
Qed.

Lemma ex_ordered : ordered ex_heap ex_shape.
Proof.
  assert (Hnil : forall h, siblings_ordered h []).
  { intros h. split.
    - intros c cn Hc. by apply elem_of_nil in Hc.
    - intros i j ci cj ni nj _ Hi. by rewrite lookup_nil in Hi. }
  assert (Hone : forall c cn, ex_heap !! c = Some cn ->
            (isElement cn = true -> pos_le (startPos cn) (endPos cn)) ->
            forall l, (forall c' cn', c' ∈ l -> ex_heap !! c' = Some cn' ->
                         isElement cn' = false) ->
            siblings_ordered ex_heap (c :: l)).
  { intros c cn Hc Hw l Htext. split.
    - intros c' cn' Hin Hc' He. apply elem_of_cons in Hin as [->|Hin].
      + rewrite Hc in Hc'. injection Hc' as <-. auto.
      + rewrite (Htext c' cn' Hin Hc') in He. discriminate.
    - intros i j ci cj ni nj Hij Hi Hj Hci Hcj Hei Hej.
      destruct j as [|j]; [lia|]. simpl in Hj.
      apply list_elem_of_lookup_2 in Hj.
      rewrite (Htext cj nj Hj Hcj) in Hej. discriminate. }
  assert (Hleaf : forall a, ordered ex_heap (Shape a [])).
  { intros a. constructor; [apply Hnil | apply List.Forall_nil]. }
  unfold ex_shape. constructor.
  - simpl. eapply Hone; [reflexivity| |].
    + intros _. unfold pos_le. simpl. lia.
    + intros c' cn' Hin Hc'. apply list_elem_of_singleton in Hin as ->.
      vm_compute in Hc'. by injection Hc' as <-.
  - apply List.Forall_cons; [|apply List.Forall_cons; [apply Hleaf|apply List.Forall_nil]].
    constructor; [|apply List.Forall_cons; [apply Hleaf|apply List.Forall_nil]].
    simpl. eapply Hone; [reflexivity| |].
    + intros He. discriminate He.
    + intros c' cn' Hin. by apply elem_of_nil in Hin.
Qed.

Lemma findNode_innermost_witness :
  exists r n, findNode 4 ex_heap (Some (root ex_shape)) (Pos 0 5) true
              = Some (Some r) /\
    ex_heap !! r = Some n /\
    forall c cn, c ∈ default [] (children n) -> ex_heap !! c = Some cn ->
      isElement cn = true -> ~ encloses cn (Pos 0 5).
Proof.
  apply (findNode_innermost ex_shape 4 ex_heap (Pos 0 5) true).
  - exact ex_repr.
  - exact ex_ordered.
  - simpl. lia.
Defined.

Lemma findNode_preferParent_witness :
  findNode 4 ex_heap (Some (root ex_shape)) (Pos 0 8) true
  = findNode 4 ex_heap (Some (root ex_shape)) (Pos 0 8) false.
Proof.
  apply (findNode_preferParent ex_shape 4 ex_heap (Pos 0 8)).
  - exact ex_repr.
  - exact ex_ordered.
Defined.

(** ** More on the position tracker *)

Section TrackerInsertion.
Import PositionTracker.
Variable d : delta.
Hypothesis Hrange : pos_le (d_start d) (d_end d).
Hypothesis Hins : sign d = 1.

(** What an insertion does to a boundary. *)
Definition ins_move (p : pos) : pos :=
  if comparePoints (d_start d) p <? 0 then update d p else p.

Lemma new_start_ins n : new_start d n = ins_move (startPos n).
Proof. unfold new_start, ins_move. by rewrite Hins. Qed.

Lemma new_end_ins n : new_end d n = ins_move (endPos n).
Proof. unfold new_end, ins_move. by rewrite Hins. Qed.

(** The move keeps the document order of boundaries. *)
Lemma ins_move_mono p q : pos_le p q -> pos_le (ins_move p) (ins_move q).
Proof.
  unfold ins_move. intros Hpq.
  destruct (comparePoints (d_start d) p <? 0) eqn:Cp;
    [apply cmp_lt in Cp | apply cmp_lt_false in Cp];
    (destruct (comparePoints (d_start d) q <? 0) eqn:Cq;
     [apply cmp_lt in Cq | apply cmp_lt_false in Cq]);
    rewrite ?update_ins by done;
    unfold pos_le, pos_lt in *; simpl;
    repeat match goal with
           | |- context [?a =? ?b] => destruct (Z.eqb_spec a b)
           end; simpl; lia.
Qed.

Lemma nested_shift_ins s : forall (h : gmap positive node) (l : list addr),
  (forall a, a ∈ addrs s -> a ∈ l) -> repr h s -> nested h s ->
  nested (shift_heap d l h) s.
Proof.
  induction s as [a ks IH] using shape_ind'. intros h l Hl Hr Hn.
  inversion Hn as [a0 n ks0 Ha Hse Hk Hks]; subst.
  apply repr_inv in Hr as (n0 & Hn0 & Hch & Hnil & Hrks).
  rewrite Ha in Hn0. injection Hn0 as <-.
  assert (Hshift : forall b nb, b ∈ addrs (Shape a ks) -> h !! b = Some nb ->
            shift_heap d l h !! b = Some (shift_node d nb)).
  { intros b nb Hb Hnb. rewrite lookup_shift_heap, Hnb. simpl.
    by rewrite decide_True by auto. }
  assert (Hel : forall nb, isElement (shift_node d nb) = isElement nb).
  { intros nb. unfold shift_node. destruct (isElement nb) eqn:E; [|done].
    unfold isElement in *. by destruct nb. }
  apply (nested_intro _ a (shift_node d n) ks).
  - apply Hshift; [apply (root_in_addrs (Shape a ks)) | done].
  - rewrite Hel. intros He. unfold shift_node. rewrite He. simpl.
    rewrite new_start_ins, new_end_ins. apply ins_move_mono. auto.
  - rewrite Forall_forall in *. intros k Hk' nk' Hnk' Hek'.
    assert (Hin : root k ∈ addrs (Shape a ks))
      by (eapply kid_addrs; eauto using root_in_addrs).
    rewrite lookup_shift_heap in Hnk'.
    destruct (h !! root k) as [nk|] eqn:Hnk; [|discriminate]. simpl in Hnk'.
    rewrite decide_True in Hnk' by auto. injection Hnk' as <-.
    rewrite Hel in Hek'. destruct (Hk k Hk' nk Hnk Hek') as [H1 H2].
    unfold shift_node. rewrite Hek'.
    destruct (isElement n) eqn:He.
    + simpl. rewrite !new_start_ins, !new_end_ins.
      split; by apply ins_move_mono.
    + exfalso. unfold isElement in He.
      destruct (children n) eqn:Hc; [done|]. rewrite Hnil in Hk' by done.
      by apply elem_of_nil in Hk'.
  - rewrite Forall_forall in *. intros k Hk'. apply IH; auto.
    intros b Hb. apply Hl. eapply kid_addrs; eauto.
Qed.

End TrackerInsertion.

(** X4.  An insertion keeps a nested tree nested: after the tracker has
    run, every element still starts no later than it ends and still lies
    within the span of its parent, so the tracker can run on the tree
    again. *)
Theorem insertion_keeps_nesting (d : delta) (h : gmap positive node)
    (s : shape) (fuel : nat) :
  repr h s -> NoDup (addrs s) -> nested h s ->
  pos_le (PositionTracker.d_start d) (PositionTracker.d_end d) ->
  PositionTracker.sign d = 1 ->
  (height s < fuel)%nat ->
  exists h', PositionTracker.updatePositions d fuel (root s) h = Some h' /\
    repr h' s /\ nested h' s.
Proof.
  intros Hr Hnd Hne Hrange Hins Hfuel.
  exists (shift_heap d (addrs s) h). split; [|split].
  - unfold PositionTracker.updatePositions.
    by rewrite (walk_correct d Hrange s fuel h).
  - eapply repr_links; [apply shift_heap_links | done].
  - by apply nested_shift_ins.
Qed.

Lemma insertion_keeps_nesting_witness :
  exists h', PositionTracker.updatePositions ex_insert 4 (root ex_shape) ex_heap
             = Some h' /\
    repr h' ex_shape /\ nested h' ex_shape.
Proof.
  apply (insertion_keeps_nesting ex_insert ex_heap ex_shape 4).
  - exact ex_repr.
  - exact ex_nodup.
  - exact ex_nested.
  - unfold pos_le, PositionTracker.d_start, PositionTracker.d_end, ex_insert.
    simpl. lia.
  - reflexivity.
  - simpl. lia.
Defined.

(** A removal takes back what the insertion of the same range did to a
    boundary. *)
Lemma update_del_ins (di dr : delta) (p : pos) :
  d_range dr = d_range di ->
  PositionTracker.sign di = 1 -> PositionTracker.sign dr = -1 ->
  pos_lt (PositionTracker.d_start di) p ->
  PositionTracker.update dr (PositionTracker.update di p) = p.
Proof.
  intros Hd Hi Hr Hp. rewrite (update_del dr), (update_ins di) by done.
  unfold PositionTracker.d_start, PositionTracker.d_end in *. rewrite Hd.
  destruct p as [r c]. unfold pos_lt in Hp. simpl in *.
  repeat match goal with
         | |- context [?a =? ?b] => destruct (Z.eqb_spec a b)
         end; simpl; f_equal; lia.
Qed.

Lemma update_empty (d : delta) (p : pos) :
  PositionTracker.d_start d = PositionTracker.d_end d ->
  PositionTracker.update d p = p.
Proof.
  intros He. unfold PositionTracker.update, PositionTracker.rowChange,
    PositionTracker.columnChange. rewrite He.
  rewrite !Z.sub_diag, !Z.mul_0_r. simpl. destruct p as [r c]. simpl.
  rewrite Z.add_0_r. by destruct (_ =? _).
Qed.

(** X5.  Undoing an insertion: on a nested tree in which no element ends
    exactly where the text is inserted, the tracker run for an insertion
    and then for the removal of the same range leaves every node as it
    was. *)
Theorem updatePositions_undo (di dr : delta) (h : gmap positive node)
    (s : shape) (fuel : nat) :
  repr h s -> NoDup (addrs s) -> nested h s ->
  d_range dr = d_range di ->
  pos_le (PositionTracker.d_start di) (PositionTracker.d_end di) ->
  PositionTracker.sign di = 1 -> PositionTracker.sign dr = -1 ->
  (forall a n, a ∈ addrs s -> h !! a = Some n -> isElement n = true ->
     endPos n <> PositionTracker.d_start di) ->
  (height s < fuel)%nat ->
  exists h1, PositionTracker.updatePositions di fuel (root s) h = Some h1 /\
    PositionTracker.updatePositions dr fuel (root s) h1 = Some h.
Proof.
  intros Hr Hnd Hne Hd Hrange Hi Hdel Hend Hfuel.
  assert (Hrange' : pos_le (PositionTracker.d_start dr) (PositionTracker.d_end dr)).
  { unfold PositionTracker.d_start, PositionTracker.d_end in *. by rewrite Hd. }
  exists (shift_heap di (addrs s) h). split.
  { unfold PositionTracker.updatePositions.
    by rewrite (walk_correct di Hrange s fuel h). }
  unfold PositionTracker.updatePositions.
  rewrite (walk_correct dr Hrange' s fuel (shift_heap di (addrs s) h)); try done.
  2:{ eapply repr_links; [apply shift_heap_links | done]. }
  2:{ by apply nested_shift_ins. }
  simpl. f_equal. apply map_eq. intros a. rewrite !lookup_shift_heap.
  destruct (h !! a) as [n|] eqn:Hn; simpl; [|done]. f_equal.
  case_decide as Hin; [|done].
  unfold shift_node at 1.
  assert (Hel : isElement (shift_node di n) = isElement n).
  { unfold shift_node. destruct (isElement n) eqn:E; [|done].
    unfold isElement in *. by destruct n. }
  rewrite Hel. destruct (isElement n) eqn:He.
  2:{ unfold shift_node. by rewrite He. }
  unfold shift_node. rewrite He.
  assert (Hs : new_start dr (set_endPos (new_end di n) (set_startPos (new_start di n) n))
               = startPos n).
  { unfold new_start. rewrite Hdel, Hi. simpl.
    destruct (comparePoints (PositionTracker.d_start di) (startPos n) <? 0) eqn:C.
    - apply cmp_lt in C.
      assert ((comparePoints (PositionTracker.d_end dr)
                 (PositionTracker.update di (startPos n)) <=? 0) = true) as ->.
      { apply cmp_le. rewrite update_ins by done.
        unfold PositionTracker.d_start, PositionTracker.d_end in *. rewrite Hd.
        unfold pos_le, pos_lt in *. simpl.
        repeat match goal with
               | |- context [?a =? ?b] => destruct (Z.eqb_spec a b)
               end; simpl; lia. }
      by apply update_del_ins.
    - apply cmp_lt_false in C.
      destruct (comparePoints (PositionTracker.d_end dr) (startPos n) <=? 0) eqn:C2;
        [|done].
      apply cmp_le in C2. apply update_empty.
      unfold PositionTracker.d_start, PositionTracker.d_end in *.
      rewrite Hd in *. destruct (start (d_range di)), (end_ (d_range di)).
      unfold pos_le in *. simpl in *. f_equal; lia. }
  assert (He' : new_end dr (set_endPos (new_end di n) (set_startPos (new_start di n) n))
               = endPos n).
  { unfold new_end. rewrite Hdel, Hi. simpl.
    destruct (comparePoints (PositionTracker.d_start di) (endPos n) <? 0) eqn:C.
    - apply cmp_lt in C.
      assert ((comparePoints (PositionTracker.d_start dr)
                 (PositionTracker.update di (endPos n)) <=? 0) = true) as ->.
      { apply cmp_le. rewrite update_ins by done.
        unfold PositionTracker.d_start, PositionTracker.d_end in *. rewrite Hd.
        unfold pos_le, pos_lt in *. simpl.
        repeat match goal with
               | |- context [?a =? ?b] => destruct (Z.eqb_spec a b)
               end; simpl; lia. }
      by apply update_del_ins.
    - apply cmp_lt_false in C.
      assert ((comparePoints (PositionTracker.d_start dr) (endPos n) <=? 0) = false)
        as ->; [|done].
      apply cmp_le_false. specialize (Hend a n Hin Hn He).
      unfold PositionTracker.d_start in *. rewrite Hd.
      destruct (endPos n) as [r c], (start (d_range di)) as [r' c'].
      unfold pos_le, pos_lt in *. simpl in *.
      assert (r <> r' \/ c <> c') by (destruct (decide (r = r')); [right|left]; congruence).
      lia. }
  rewrite Hs, He'. by destruct n.
Qed.

Definition ex_remove : delta :=
  Delta (Range (Pos 0 3) (Pos 0 5)) "removeText" (Some "ab") None.

Lemma updatePositions_undo_witness :
  exists h1, PositionTracker.updatePositions ex_insert 4 (root ex_shape) ex_heap
             = Some h1 /\
    PositionTracker.updatePositions ex_remove 4 (root ex_shape) h1 = Some ex_heap.
Proof.
  apply (updatePositions_undo ex_insert ex_remove ex_heap ex_shape 4).
  - exact ex_repr.
  - exact ex_nodup.
  - exact ex_nested.
  - reflexivity.
  - unfold pos_le, PositionTracker.d_start, PositionTracker.d_end, ex_insert.
    simpl. lia.
  - reflexivity.
  - reflexivity.
  - intros a n Ha Hn _ He.
    assert (Hcases : a = 1%positive \/ a = 2%positive \/ a = 4%positive
                     \/ a = 3%positive).
    { unfold ex_shape in Ha. simpl in Ha. set_solver. }
    destruct Hcases as [->|[->|[->| ->]]]; vm_compute in Hn;
      injection Hn as <-; discriminate He.
  - simpl. lia.
Defined.

(** ** More on the constructor of the updater *)

(** An insertion moves a boundary after its start to a place after its
    end. *)
Lemma update_ins_after (d : delta) (p : pos) :
  pos_le (PositionTracker.d_start d) (PositionTracker.d_end d) ->
  PositionTracker.sign d = 1 ->
  pos_lt (PositionTracker.d_start d) p ->
  pos_lt (PositionTracker.d_end d) (PositionTracker.update d p).
Proof.
  intros Hrange Hi Hp. rewrite update_ins by done.
  unfold pos_le, pos_lt in *. simpl.
  repeat match goal with
         | |- context [?a =? ?b] => destruct (Z.eqb_spec a b)
         end; simpl; lia.
Qed.

Section Constructor.
Context `{Env}.

(** X6.  Typing harmless text inside a nested tree: the constructor
    terminates with an incremental updater whose changed tag is the
    identifier of an element of the tree, whose offset is the start of that
    element and whose text is the text of its span; unless the element is
    the root of the tree, its span, as the tracker has moved it, holds the
    whole inserted range strictly inside. *)
Theorem incremental_span_covers_insertion (fuel : nat) (s : shape)
    (d : delta) (t : string) (h : gmap positive node) (rn : node) :
  repr h s -> NoDup (addrs s) -> nested h s ->
  h !! root s = Some rn -> isElement rn = true ->
  pos_le (PositionTracker.d_start d) (PositionTracker.d_end d) ->
  PositionTracker.sign d = 1 ->
  delta_text d = Some t -> t <> EmptyString -> isDangerousEdit t = false ->
  (height s < fuel)%nat ->
  exists u h1 a n,
    new_DOMUpdater fuel (Some (root s)) (Session (Some (root s))) (Some d) h
    = Some (u, h1) /\
    a ∈ addrs s /\ h1 !! a = Some n /\ isElement n = true /\
    isIncremental u = true /\ changedTagID u = tagID n /\
    startOffsetPos u = Some (startPos n) /\
    startOffset u = positionToIndex (startPos n) /\
    (truthy (tagID n) = true ->
     u_text u = getTextRange (startPos n) (endPos n)) /\
    (a = root s \/
     (pos_lt (startPos n) (PositionTracker.d_start d) /\
      pos_lt (PositionTracker.d_end d) (endPos n))).
Proof.
  intros Hr Hnd Hne Hrn Hern Hrange Hi Ht Hnonempty Hsafe Hfuel.
  set (h1 := shift_heap d (addrs s) h).
  assert (Hr1 : repr h1 s) by (eapply repr_links; [apply shift_heap_links | done]).
  destruct (findNode_strict s fuel h1 (start (d_range d)) true Hr1 Hfuel)
    as (a & Hfind & Hin & Hcase).
  assert (Hlook : forall b nb, b ∈ addrs s -> h !! b = Some nb ->
            h1 !! b = Some (shift_node d nb)).
  { intros b nb Hb Hnb. unfold h1. rewrite lookup_shift_heap, Hnb. simpl.
    by rewrite decide_True. }
  assert (Hel : forall nb, isElement (shift_node d nb) = isElement nb).
  { intros nb. unfold shift_node. destruct (isElement nb) eqn:E; [|done].
    unfold isElement in *. by destruct nb. }
  destruct (repr_in_heap h s a Hr Hin) as [n0 Hn0].
  pose proof (Hlook a n0 Hin Hn0) as Hn.
  assert (He : isElement (shift_node d n0) = true).
  { destruct Hcase as [->|(n & Hn' & Hen & _)].
    - rewrite Hrn in Hn0. injection Hn0 as <-. by rewrite Hel.
    - rewrite Hn in Hn'. by injection Hn' as <-. }
  exists (MkDOMUpdater true (tagID (shift_node d n0))
            (if truthy (tagID (shift_node d n0))
             then getTextRange (startPos (shift_node d n0)) (endPos (shift_node d n0))
             else getValue)
            (positionToIndex (startPos (shift_node d n0)))
            (Some (startPos (shift_node d n0))) (Some (root s))),
    h1, a, (shift_node d n0).
  split.
  { unfold new_DOMUpdater. rewrite Ht. simpl.
    unfold PositionTracker.updatePositions.
    rewrite (walk_correct d Hrange s fuel h) by done. simpl. fold h1.
    assert (nonempty t = true) as ->.
    { unfold nonempty. destruct t; [done|]. done. }
    rewrite Hsafe. simpl. unfold _getNodeAtDocumentPos. simpl.
    rewrite Hfind. simpl. rewrite Hn. done. }
  split; [done|]. split; [done|]. split; [done|]. simpl.
  split; [done|]. split; [done|]. split; [done|]. split; [done|].
  split; [by intros ->|].
  destruct Hcase as [->|(n & Hn' & Hen & Hs & Hend)]; [by left|]. right.
  rewrite Hn in Hn'. injection Hn' as <-. split; [done|].
  rewrite Hel in Hen. unfold shift_node in Hend |- *. rewrite Hen in Hend |- *.
  simpl in Hend |- *. rewrite new_end_ins in Hend |- * by done.
  unfold ins_move in Hend |- *.
  destruct (comparePoints (PositionTracker.d_start d) (endPos n0) <? 0) eqn:C.
  - apply cmp_lt in C. by apply update_ins_after.
  - apply cmp_lt_false in C. unfold PositionTracker.d_start in *.
    unfold pos_le, pos_lt in *. lia.
Qed.

(** X7.  The constructor builds a full reparse of the whole text, at
    offset 0, when it is given no delta (no position moves), when the text
    of the delta is empty, and when the session has no cached tree to find
    the enclosing node in. *)
Theorem new_DOMUpdater_full (fuel : nat) (prev : option addr) (s : session)
    (h : gmap positive node) :
  new_DOMUpdater fuel prev s None h
  = Some (MkDOMUpdater false JUndefined getValue 0 None prev, h) /\
  (forall d h1,
     delta_text d = Some EmptyString ->
     match prev with
     | Some p => PositionTracker.updatePositions d fuel p h
     | None => Some h
     end = Some h1 ->
     new_DOMUpdater fuel prev s (Some d) h
     = Some (MkDOMUpdater false JUndefined getValue 0 None prev, h1)) /\
  (forall d t h1,
     delta_text d = Some t -> sdom s = None -> (0 < fuel)%nat ->
     match prev with
     | Some p => PositionTracker.updatePositions d fuel p h
     | None => Some h
     end = Some h1 ->
     new_DOMUpdater fuel prev s (Some d) h
     = Some (MkDOMUpdater false JUndefined getValue 0 None prev, h1)).
Proof.
  split; [done|]. split.
  - intros d h1 Ht Hpos. unfold new_DOMUpdater. rewrite Ht. simpl.
    rewrite Hpos. done.
  - intros d t h1 Ht Hs Hfuel Hpos. unfold new_DOMUpdater. rewrite Ht. simpl.
    rewrite Hpos. simpl. destruct (nonempty t && negb (isDangerousEdit t)); [|done].
    unfold _getNodeAtDocumentPos. rewrite Hs.
    destruct fuel; [lia|]. done.
Qed.

End Constructor.

Lemma incremental_span_covers_insertion_witness :
  exists u h1 a n,
    new_DOMUpdater 4 (Some (root ex_shape)) (Session (Some (root ex_shape)))
      (Some ex_typing) ex_heap = Some (u, h1) /\
    a ∈ addrs ex_shape /\ h1 !! a = Some n /\ isElement n = true /\
    isIncremental u = true /\ changedTagID u = tagID n /\
    startOffsetPos u = Some (startPos n) /\
    startOffset u = positionToIndex (startPos n) /\
    (truthy (tagID n) = true ->
     u_text u = getTextRange (startPos n) (endPos n)) /\
    (a = root ex_shape \/
     (pos_lt (startPos n) (PositionTracker.d_start ex_typing) /\
      pos_lt (PositionTracker.d_end ex_typing) (endPos n))).
Proof.
  apply (incremental_span_covers_insertion (H := ex_env) 4 ex_shape ex_typing "!"
           ex_heap
           (set_nodeMap
              (Some (<["1" := 1%positive]> (<["2" := 2%positive]>
                      (<["2t" := 3%positive]> (<["2.0" := 4%positive]> ∅)))))
              (ex_node (JNum 1) "div" (Pos 0 0) (Pos 0 20)
                 (Some [2%positive; 3%positive]) None))).
  - exact ex_repr.
  - exact ex_nodup.
  - exact ex_nested.
  - reflexivity.
  - reflexivity.
  - unfold pos_le, PositionTracker.d_start, PositionTracker.d_end, ex_typing.
    simpl. lia.
  - reflexivity.
  - reflexivity.
  - discriminate.
  - reflexivity.
  - simpl. lia.
Defined.

(** ** More on the maps from identifiers to nodes *)

Lemma enter_lookup_some h l : forall m k a,
  foldl (enter h) m l !! k = Some a ->
  m !! k = Some a \/ (a ∈ l /\ has_key h a k).
Proof.
  induction l as [|b l IH]; intros m k a; simpl; [auto|].
  intros Hl. apply IH in Hl as [Hl|[Hin Hk]].
  - unfold enter in Hl. destruct (h !! b) as [n|] eqn:Hb; [|by left].
    destruct (truthy (tagID n)) eqn:Ht; [|by left].
    destruct (decide (key_of (tagID n) = k)) as [<-|Hne].
    + rewrite lookup_insert_eq in Hl. injection Hl as <-. right.
      split; [left|]. exists n. done.
    + rewrite lookup_insert_ne in Hl by done. by left.
  - right. split; [by right | done].
Qed.

(** X8.  [_buildNodeMap] terminates on every tree and changes nothing
    but the [nodeMap] of the root.  Every entry of the new map leads to a
    node of the tree that carries a truthy identifier with that key, every
    node of the tree with a truthy identifier has its key in the map, and a
    node whose identifier is falsy (undefined, 0 or the empty string) is
    never entered.  When no two nodes share a key the map holds exactly the
    nodes of the tree. *)
Theorem buildNodeMap_indexes (fuel : nat) (s : shape)
    (h : gmap positive node) :
  repr h s -> (height s < fuel)%nat ->
  exists n m,
    h !! root s = Some n /\
    _buildNodeMap fuel (root s) h
    = Some (<[root s := set_nodeMap (Some m) n]> h) /\
    (forall k a, m !! k = Some a -> a ∈ addrs s /\ has_key h a k) /\
    (forall a k, a ∈ addrs s -> has_key h a k -> is_Some (m !! k)) /\
    ((forall a b k, a ∈ addrs s -> b ∈ addrs s ->
        has_key h a k -> has_key h b k -> a = b) ->
     maps_exactly h m s).
Proof.
  intros Hr Hfuel. destruct (repr_root h s Hr) as [n Hn].
  exists n, (foldl (enter h) ∅ (addrs s)).
  assert (H1 : forall k a, foldl (enter h) ∅ (addrs s) !! k = Some a ->
            a ∈ addrs s /\ has_key h a k).
  { intros k a Hl. apply enter_lookup_some in Hl as [Hl|Hl]; [|done].
    by rewrite lookup_empty in Hl. }
  assert (H2 : forall a k, a ∈ addrs s -> has_key h a k ->
            is_Some (foldl (enter h) ∅ (addrs s) !! k)).
  { intros a k Ha Hk. apply enter_lookup. right. eauto. }
  split; [done|]. split; [|split; [done|split; [done|]]].
  - unfold _buildNodeMap. rewrite (buildNodeMap_walk_spec s fuel h ∅ Hr Hfuel).
    simpl. unfold modify. by rewrite Hn.
  - intros Huniq k a. split; [apply H1|]. intros [Ha Hk].
    destruct (H2 a k Ha Hk) as [b Hb]. rewrite Hb. f_equal.
    destruct (H1 k b Hb) as [Hbin Hbk]. eauto.
Qed.

Lemma buildNodeMap_indexes_witness :
  exists n m,
    ex_heap !! root ex_shape = Some n /\
    _buildNodeMap 4 (root ex_shape) ex_heap
    = Some (<[root ex_shape := set_nodeMap (Some m) n]> ex_heap) /\
    (forall k a, m !! k = Some a -> a ∈ addrs ex_shape /\ has_key ex_heap a k) /\
    (forall a k, a ∈ addrs ex_shape -> has_key ex_heap a k -> is_Some (m !! k)) /\
    ((forall a b k, a ∈ addrs ex_shape -> b ∈ addrs ex_shape ->
        has_key ex_heap a k -> has_key ex_heap b k -> a = b) ->
     maps_exactly ex_heap m ex_shape).
Proof.
  apply (buildNodeMap_indexes 4 ex_shape ex_heap).
  - exact ex_repr.
  - simpl. lia.
Defined.

(** X9.  [_handleDeletions] removes from the map exactly the keys that
    the old subtree's map has and the new subtree's map has not; it adds
    nothing and leaves every other key with the node it had. *)
Theorem handleDeletions_removes (m old new : gmap string addr) :
  dom (_handleDeletions m old new) = dom m ∖ (dom old ∖ dom new) /\
  (forall k a, _handleDeletions m old new !! k = Some a -> m !! k = Some a) /\
  (forall k, ~ (k ∈ dom old /\ k ∉ dom new) ->
     _handleDeletions m old new !! k = m !! k).
Proof.
  split; [|split].
  - apply set_eq. intros k. rewrite elem_of_dom, handleDeletions_lookup.
    rewrite !elem_of_difference, !elem_of_dom, <- eq_None_not_Some.
    case_decide as Hd.
    + split; [by intros [? ?]|]. intros [_ Hn]. tauto.
    + split; [|tauto]. intros Hm. split; [done|]. tauto.
  - intros k a. rewrite handleDeletions_lookup. by case_decide.
  - intros k Hk. rewrite handleDeletions_lookup. case_decide as Hd; [|done].
    exfalso. apply Hk. rewrite !elem_of_dom, <- eq_None_not_Some. done.
Qed.

(** Removal is by key alone: the key [2] of the old subtree stays, for the
    new subtree has it, and [2.0] goes. *)
Example ex_handleDeletions :
  _handleDeletions
    (<["1" := 1%positive]> (<["2" := 10%positive]> (<["2.0" := 4%positive]> ∅)))
    (<["2" := 2%positive]> (<["2.0" := 4%positive]> ∅))
    (<["2" := 10%positive]> ∅)
  = <["1" := 1%positive]> (<["2" := 10%positive]> ∅).
Proof. vm_compute. reflexivity. Qed.

(** ** The deltas between two texts: [getDeltaList] *)

Definition CR : ascii := "013"%char.
Definition LF : ascii := "010"%char.

(** [text.split(/\r\n|\r|\n/)]: a carriage return followed by a line feed
    is one line break, a lone carriage return or line feed is one too. *)
Fixpoint split_lines (s : string) : list string :=
  match s with
  | EmptyString => [EmptyString]
  | String c rest =>
    if Ascii.eqb c CR then
      match rest with
      | String c' rest' =>
        if Ascii.eqb c' LF then EmptyString :: split_lines rest'
        else EmptyString :: split_lines rest
      | EmptyString => EmptyString :: split_lines rest
      end
    else if Ascii.eqb c LF then EmptyString :: split_lines rest
    else
      match split_lines rest with
      | l :: ls => String c l :: ls
      | [] => [String c EmptyString]
      end
  end.

(** One entry of the list that [diff_main] returns: the operation
    [change[0]] (-1, 0 or 1) and the text [change[1]]. *)
Definition chunk : Type := Z * string.

(** The body of the [forEach] in [getDeltaList]; the state is [row],
    [column] and [deltas]. *)
Definition getDeltaList_step (st : Z * Z * list delta) (c : chunk)
    : Z * Z * list delta :=
  let '(row, column, deltas) := st in
  let text := c.2 in
  let lines := split_lines text in
  let colCh := Z.of_nat (String.length (List.last lines EmptyString)) in
  let rowCh := Z.of_nat (length lines) - 1 in
  let endRow := row + rowCh in
  let endColumn := if rowCh =? 0 then column + colCh else colCh in
  (* lines: rowCh && lines, text: !rowCh && text *)
  let mk (actLines actText : string) :=
    Delta (Range (Pos row column) (Pos endRow endColumn))
          (if rowCh =? 0 then actText else actLines)
          (if rowCh =? 0 then Some text else None)
          (if rowCh =? 0 then None else Some lines) in
  if c.1 =? 0 then (endRow, endColumn, deltas)
  else if c.1 =? -1 then
    (row, column, deltas ++ [mk "removeLines" "removeText"])
  else if c.1 =? 1 then
    (endRow, endColumn, deltas ++ [mk "insertLines" "insertText"])
  else st.

Section DeltaList.
(** [dfm.diff_main(v1, v2)] of the diff library. *)
Variable diff_main : string -> string -> list chunk.

Definition getDeltaList (v1 v2 : string) : list delta :=
  (foldl getDeltaList_step (0, 0, []) (diff_main v1 v2)).2.

End DeltaList.

(** *** What the loop computes *)

(** The position the loop reaches from [p] over [text]. *)
Definition text_end (p : pos) (text : string) : pos :=
  let lines := split_lines text in
  let rowCh := Z.of_nat (length lines) - 1 in
  Pos (row p + rowCh)
      (if rowCh =? 0
       then column p + Z.of_nat (String.length (List.last lines EmptyString))
       else Z.of_nat (String.length (List.last lines EmptyString))).

(** The delta the loop pushes for a chunk [text] met at [p]. *)
Definition chunk_delta (ins : bool) (p : pos) (text : string) : delta :=
  let lines := split_lines text in
  let single := Z.of_nat (length lines) - 1 =? 0 in
  Delta (Range p (text_end p text))
        (if ins then (if single then "insertText" else "insertLines")
         else (if single then "removeText" else "removeLines"))
        (if single then Some text else None)
        (if single then None else Some lines).

(** The deltas of a list of chunks met at [p]. *)
Fixpoint deltas_from (p : pos) (l : list chunk) : list delta :=
  match l with
  | [] => []
  | c :: l' =>
    if c.1 =? 0 then deltas_from (text_end p c.2) l'
    else if c.1 =? -1 then chunk_delta false p c.2 :: deltas_from p l'
    else if c.1 =? 1 then
      chunk_delta true p c.2 :: deltas_from (text_end p c.2) l'
    else deltas_from p l'
  end.

Lemma getDeltaList_step_eq r c ds op t :
  getDeltaList_step (r, c, ds) (op, t) =
  let e := text_end (Pos r c) t in
  if op =? 0 then (row e, column e, ds)
  else if op =? -1 then (r, c, ds ++ [chunk_delta false (Pos r c) t])
  else if op =? 1 then (row e, column e, ds ++ [chunk_delta true (Pos r c) t])
  else (r, c, ds).
Proof.
  unfold getDeltaList_step, chunk_delta, text_end. simpl.
  destruct (op =? 0); [done|]. destruct (op =? -1).
  { by destruct (Z.of_nat (length (split_lines t)) - 1 =? 0). }
  destruct (op =? 1); [|done].
  by destruct (Z.of_nat (length (split_lines t)) - 1 =? 0).
Qed.

Lemma getDeltaList_loop l : forall r c ds,
  (foldl getDeltaList_step (r, c, ds) l).2 = ds ++ deltas_from (Pos r c) l.
Proof.
  induction l as [|[op t] l IH]; intros r c ds.
  - simpl. by rewrite app_nil_r.
  - cbn [foldl deltas_from fst snd]. rewrite getDeltaList_step_eq. cbv zeta.
    destruct (op =? 0).
    { rewrite IH. by destruct (text_end (Pos r c) t). }
    destruct (op =? -1).
    { rewrite IH, <- app_assoc. done. }
    destruct (op =? 1); [|apply IH].
    rewrite IH, <- app_assoc. by destruct (text_end (Pos r c) t).
Qed.

Lemma getDeltaList_deltas diff_main v1 v2 :
  getDeltaList diff_main v1 v2 = deltas_from (Pos 0 0) (diff_main v1 v2).
Proof. unfold getDeltaList. by rewrite getDeltaList_loop. Qed.

Lemma split_lines_nonempty t : split_lines t <> [].
Proof.
  induction t as [|c t IH]; simpl; [done|].
  destruct (Ascii.eqb c CR).
  - destruct t as [|c' t']; [done|]. by destruct (Ascii.eqb c' LF).
  - destruct (Ascii.eqb c LF); [done|]. by destruct (split_lines t).
Qed.

Lemma split_lines_length t : (0 < length (split_lines t))%nat.
Proof.
  pose proof (split_lines_nonempty t). destruct (split_lines t); simpl; [done|lia].
Qed.

Lemma text_end_le p t :
  0 <= row p -> 0 <= column p ->
  pos_le p (text_end p t) /\ 0 <= row (text_end p t) /\ 0 <= column (text_end p t).
Proof.
  intros Hr Hc. unfold text_end, pos_le. simpl.
  pose proof (split_lines_length t).
  destruct (Z.eqb_spec (Z.of_nat (length (split_lines t)) - 1) 0); lia.
Qed.

Lemma deltas_from_ranges l : forall p d,
  0 <= row p -> 0 <= column p -> d ∈ deltas_from p l ->
  pos_le (PositionTracker.d_start d) (PositionTracker.d_end d) /\
  0 <= row (PositionTracker.d_start d) /\
  0 <= column (PositionTracker.d_start d) /\
  (PositionTracker.sign d = 1 \/ PositionTracker.sign d = -1).
Proof.
  induction l as [|[op t] l IH]; intros p d Hr Hc Hd; simpl in Hd.
  - by apply elem_of_nil in Hd.
  - destruct (text_end_le p t Hr Hc) as (Hle & Hr' & Hc').
    assert (Hchunk : forall b, d = chunk_delta b p t ->
              pos_le (PositionTracker.d_start d) (PositionTracker.d_end d) /\
              0 <= row (PositionTracker.d_start d) /\
              0 <= column (PositionTracker.d_start d) /\
              (PositionTracker.sign d = 1 \/ PositionTracker.sign d = -1)).
    { intros b ->. unfold PositionTracker.d_start, PositionTracker.d_end. simpl.
      repeat split; try done. unfold PositionTracker.sign. simpl.
      destruct b, (Z.of_nat (length (split_lines t)) - 1 =? 0); auto. }
    destruct (op =? 0); [by apply (IH (text_end p t))|].
    destruct (op =? -1).
    { apply elem_of_cons in Hd as [Hd|Hd];
        [by apply (Hchunk false) | by apply (IH p)]. }
    destruct (op =? 1); [|by apply (IH p)].
    apply elem_of_cons in Hd as [Hd|Hd];
      [by apply (Hchunk true) | by apply (IH (text_end p t))].
Qed.

(** X11.  Every delta of the list is a proper edit: its range starts at a
    non-negative row and column and does not end before it starts, which
    is what the position tracker expects of a delta. *)
Theorem getDeltaList_ranges (diff_main : string -> string -> list chunk)
    (v1 v2 : string) (d : delta) :
  d ∈ getDeltaList diff_main v1 v2 ->
  pos_le (PositionTracker.d_start d) (PositionTracker.d_end d) /\
  0 <= row (PositionTracker.d_start d) /\
  0 <= column (PositionTracker.d_start d).
Proof.
  rewrite getDeltaList_deltas. intros Hd.
  destruct (deltas_from_ranges (diff_main v1 v2) (Pos 0 0) d)
    as (H1 & H2 & H3 & _); simpl;
    [lia|lia|done|done].
Qed.

(** *** The deltas and the chunks of the diff *)

(** A text without carriage returns. *)
Fixpoint no_cr (t : string) : bool :=
  match t with
  | EmptyString => true
  | String c rest => negb (Ascii.eqb c CR) && no_cr rest
  end.

(** The chunks that are edits: removals and insertions. *)
Definition edits_of (l : list chunk) : list chunk :=
  filter (fun c => c.1 = -1 \/ c.1 = 1) l.

Lemma concat_cons_split (x : string) (t : string) :
  String.concat (String LF EmptyString) (x :: split_lines t)
  = (x +:+ String LF (String.concat (String LF EmptyString) (split_lines t))).
Proof.
  pose proof (split_lines_nonempty t). simpl.
  destruct (split_lines t); [done|]. done.
Qed.

(** Joining the lines of a text without carriage returns gives the text
    back. *)
Lemma join_split_lines t : no_cr t = true -> join_lines (split_lines t) = t.
Proof.
  unfold join_lines. change (String "010" EmptyString) with (String LF EmptyString).
  induction t as [|c t IH]; [done|]. simpl. intros Hn.
  apply andb_true_iff in Hn as [Hc Hn]. apply negb_true_iff in Hc. rewrite Hc.
  specialize (IH Hn).
  destruct (Ascii.eqb c LF) eqn:Hlf.
  - apply Ascii.eqb_eq in Hlf as ->. rewrite concat_cons_split, IH. done.
  - pose proof (split_lines_nonempty t).
    destruct (split_lines t) as [|l ls] eqn:Hs; [done|].
    revert IH. simpl. destruct ls; intros <-; done.
Qed.

Lemma delta_text_chunk b p t :
  no_cr t = true -> delta_text (chunk_delta b p t) = Some t.
Proof.
  intros Hn. unfold delta_text, chunk_delta. simpl.
  destruct (Z.of_nat (length (split_lines t)) - 1 =? 0); simpl; [done|].
  by rewrite join_split_lines.
Qed.

Lemma sign_chunk b p t :
  PositionTracker.sign (chunk_delta b p t) = if b then 1 else -1.
Proof.
  unfold PositionTracker.sign, chunk_delta. simpl.
  by destruct b, (Z.of_nat (length (split_lines t)) - 1 =? 0).
Qed.

(** The text the updater reads in the delta of a chunk: the chunk itself
    when it is on one line, its lines joined by line feeds otherwise. *)
Lemma delta_text_chunk_lines b p t :
  delta_text (chunk_delta b p t)
  = Some (if (Z.of_nat (length (split_lines t)) - 1 =? 0)%Z then t
          else join_lines (split_lines t)).
Proof.
  unfold delta_text, chunk_delta. simpl.
  by destruct (Z.of_nat (length (split_lines t)) - 1 =? 0)%Z.
Qed.

(** X12.  The deltas are the edits of the diff, in order, whatever the
    diff: one delta for each removed and each inserted chunk and none for
    a chunk that is kept; the tracker reads the delta of an inserted chunk
    as an insertion and that of a removed chunk as a removal; the text the
    updater reads in the delta is the chunk itself when the chunk is on
    one line and its lines joined by line feeds otherwise, which is the
    text of the chunk whenever that chunk holds no carriage return. *)
Theorem getDeltaList_chunks (diff_main : string -> string -> list chunk)
    (v1 v2 : string) :
  Forall2 (fun d c =>
             PositionTracker.sign d = c.1 /\
             delta_text d
             = Some (if (Z.of_nat (length (split_lines c.2)) - 1 =? 0)%Z then c.2
                     else join_lines (split_lines c.2)) /\
             (no_cr c.2 = true -> delta_text d = Some c.2))
          (getDeltaList diff_main v1 v2) (edits_of (diff_main v1 v2)).
Proof.
  rewrite getDeltaList_deltas. generalize (Pos 0 0).
  induction (diff_main v1 v2) as [|[op t] l IH]; intros p; [constructor|].
  unfold edits_of in *. simpl.
  destruct (Z.eqb_spec op 0) as [->|H0].
  { rewrite filter_cons_False by (simpl; lia). apply IH. }
  destruct (Z.eqb_spec op (-1)) as [->|H1].
  { rewrite filter_cons_True by (simpl; lia). constructor; [|apply IH].
    simpl. split; [apply (sign_chunk false)|].
    split; [apply delta_text_chunk_lines | apply delta_text_chunk]. }
  destruct (Z.eqb_spec op 1) as [->|H2].
  { rewrite filter_cons_True by (simpl; lia). constructor; [|apply IH].
    simpl. split; [apply (sign_chunk true)|].
    split; [apply delta_text_chunk_lines | apply delta_text_chunk]. }
  rewrite filter_cons_False by (simpl; lia). apply IH.
Qed.

(** The position reached from [p] by reading [t] character by
    character: a line feed starts a new row. *)
Fixpoint advance (p : pos) (t : string) : pos :=
  match t with
  | EmptyString => p
  | String c rest =>
    if Ascii.eqb c LF then advance (Pos (row p + 1) 0) rest
    else advance (Pos (row p) (column p + 1)) rest
  end.

Lemma advance_app t1 : forall p t2,
  advance p (t1 +:+ t2) = advance (advance p t1) t2.
Proof.
  induction t1 as [|c t1 IH]; intros p t2; simpl; [done|].
  by destruct (Ascii.eqb c LF).
Qed.

Lemma last_cons_nonempty {A} (x : A) (l : list A) (dft : A) :
  l <> [] -> List.last (x :: l) dft = List.last l dft.
Proof. destruct l; [done|]. done. Qed.

(** The loop's arithmetic on the split lines reaches the same position. *)
Lemma text_end_advance t : forall p,
  no_cr t = true -> text_end p t = advance p t.
Proof.
  induction t as [|c t IH]; intros p Hn.
  - unfold text_end. simpl. destruct p as [r c]. simpl. f_equal; lia.
  - simpl in Hn. apply andb_true_iff in Hn as [Hc Hn].
    apply negb_true_iff in Hc.
    pose proof (split_lines_nonempty t) as Hne.
    pose proof (split_lines_length t) as Hlen.
    simpl advance. destruct (Ascii.eqb c LF) eqn:Hlf.
    + rewrite <- (IH (Pos (row p + 1) 0) Hn). unfold text_end. simpl.
      rewrite Hc, Hlf. rewrite last_cons_nonempty by done.
      cbn [length]. 
      destruct (Z.eqb_spec (Z.of_nat (S (length (split_lines t))) - 1) 0); [lia|].
      destruct (Z.eqb_spec (Z.of_nat (length (split_lines t)) - 1) 0);
        f_equal; lia.
    + rewrite <- (IH (Pos (row p) (column p + 1)) Hn). unfold text_end. simpl.
      rewrite Hc, Hlf.
      destruct (split_lines t) as [|l ls] eqn:Hs; [done|].
      cbn [length].
      destruct ls as [|l' ls].
      * simpl. f_equal; lia.
      * rewrite !last_cons_nonempty by done. cbn [length].
        destruct (Z.eqb_spec (Z.of_nat (S (S (length ls))) - 1) 0); [lia|].
        done.
Qed.

(** The text built so far: the chunks that are kept or inserted. *)
Fixpoint new_text (l : list chunk) : string :=
  match l with
  | [] => EmptyString
  | c :: l' =>
    if (c.1 =? 0) || (c.1 =? 1) then c.2 +:+ new_text l' else new_text l'
  end.

Lemma deltas_from_app l1 : forall p l2,
  Forall (fun c => no_cr c.2 = true) l1 ->
  deltas_from p (l1 ++ l2)
  = deltas_from p l1 ++ deltas_from (advance p (new_text l1)) l2.
Proof.
  induction l1 as [|[op t] l1 IH]; intros p l2 Hall; [done|].
  apply Forall_cons in Hall as [Ht Hall]. simpl in Ht. simpl.
  rewrite (text_end_advance t p Ht).
  destruct (Z.eqb_spec op 0) as [->|H0].
  { simpl. rewrite advance_app. by apply IH. }
  destruct (Z.eqb_spec op (-1)) as [->|H1].
  { simpl. f_equal. by apply IH. }
  destruct (Z.eqb_spec op 1) as [->|H2].
  { simpl. rewrite advance_app. f_equal. by apply IH. }
  simpl. by apply IH.
Qed.

Lemma deltas_from_length l : forall p,
  length (deltas_from p l) = length (edits_of l).
Proof.
  unfold edits_of. induction l as [|[op t] l IH]; intros p; [done|]. simpl.
  destruct (Z.eqb_spec op 0) as [->|H0].
  { rewrite filter_cons_False by (simpl; lia). apply IH. }
  destruct (Z.eqb_spec op (-1)) as [->|H1].
  { rewrite filter_cons_True by (simpl; lia). simpl. f_equal. apply IH. }
  destruct (Z.eqb_spec op 1) as [->|H2].
  { rewrite filter_cons_True by (simpl; lia). simpl. f_equal. apply IH. }
  rewrite filter_cons_False by (simpl; lia). apply IH.
Qed.

(** X13.  The range of a delta is the span of its chunk: for chunks
    without carriage returns, the delta of an edit starts at the position
    where the text kept and inserted before it ends, counted from row 0,
    column 0 with a new row at every line feed, and ends where its own
    text ends from there. *)
Theorem getDeltaList_positions (diff_main : string -> string -> list chunk)
    (v1 v2 : string) (before after : list chunk) (op : Z) (t : string) :
  diff_main v1 v2 = before ++ (op, t) :: after ->
  op = -1 \/ op = 1 ->
  Forall (fun c => no_cr c.2 = true) before -> no_cr t = true ->
  exists d,
    getDeltaList diff_main v1 v2 !! length (edits_of before) = Some d /\
    PositionTracker.d_start d = advance (Pos 0 0) (new_text before) /\
    PositionTracker.d_end d = advance (Pos 0 0) (new_text before +:+ t).
Proof.
  intros Hdiff Hop Hall Ht. rewrite getDeltaList_deltas, Hdiff.
  rewrite deltas_from_app by done.
  rewrite lookup_app_r by (rewrite deltas_from_length; lia).
  rewrite deltas_from_length, Nat.sub_diag. simpl.
  set (p := advance (Pos 0 0) (new_text before)).
  assert (Hhead : exists b rest,
            (if op =? 0 then deltas_from (text_end p t) after
             else if op =? -1 then chunk_delta false p t :: deltas_from p after
             else if op =? 1
                  then chunk_delta true p t :: deltas_from (text_end p t) after
                  else deltas_from p after) = chunk_delta b p t :: rest).
  { destruct Hop as [-> | ->]; simpl; eauto. }
  destruct Hhead as (b & rest & ->). exists (chunk_delta b p t).
  split; [done|]. split; [done|].
  unfold PositionTracker.d_end. simpl.
  by rewrite text_end_advance, advance_app.
Qed.

(** A diff: [ab] is kept, [c] removed, two lines inserted, [z] kept. *)
Definition ex_diff : list chunk :=
  [(0, "ab"); (-1, "c"); (1, String "x" (String LF "y")); (0, "z")].
Definition ex_v2 : string := String "a" (String "b" (String "x" (String LF "yz"))).

(** A diff of a document with a carriage return in a kept chunk and in an
    inserted one: the carriage return of the inserted chunk ends a line
    of the delta, and the text read back has a line feed alone. *)
Definition ex_diff_crlf : list chunk :=
  [(0, String "a" (String CR (String LF "b")));
   (1, String "x" (String CR (String LF "y")));
   (-1, "z")].

Example ex_diff_crlf_deltas :
  map (fun d => (PositionTracker.sign d, delta_text d, d_range d))
      (getDeltaList (fun _ _ => ex_diff_crlf) "" "")
  = [(1, Some (String "x" (String LF "y")), Range (Pos 1 1) (Pos 2 1));
     (-1, Some "z", Range (Pos 2 1) (Pos 2 2))].
Proof. vm_compute. reflexivity. Qed.

Lemma getDeltaList_positions_witness :
  exists d,
    getDeltaList (fun _ _ => ex_diff) "abcz" ex_v2
      !! length (edits_of [(0, "ab"); (-1, "c")]) = Some d /\
    PositionTracker.d_start d
    = advance (Pos 0 0) (new_text [(0, "ab"); (-1, "c")]) /\
    PositionTracker.d_end d
    = advance (Pos 0 0)
        (new_text [(0, "ab"); (-1, "c")] +:+ String "x" (String LF "y")).
Proof.
  apply (getDeltaList_positions (fun _ _ => ex_diff) "abcz" ex_v2
           [(0, "ab"); (-1, "c")] [(0, "z")] 1 (String "x" (String LF "y"))).
  - reflexivity.
  - right. reflexivity.
  - repeat constructor.
  - reflexivity.
Defined.

(** The two deltas of that diff. *)
Example ex_diff_deltas :
  getDeltaList (fun _ _ => ex_diff) "abcz" ex_v2
  = [Delta (Range (Pos 0 2) (Pos 0 3)) "removeText" (Some "c") None;
     Delta (Range (Pos 0 2) (Pos 1 1)) "insertLines" None (Some ["x"; "y"])].
Proof. reflexivity. Qed.

(** ** Scanning the document against its saved state: [scanDocument] *)

(** The session with the two more fields that [scanDocument] uses: the
    tree of the saved text, [session.savedDom], and the saved text,
    [session.c9doc.meta.$savedValue] ([None] when it is undefined). *)
Record saved_session := SavedSession {
  ss_session : session;
  savedDom : option addr;
  savedValue : option string
}.

(** [session.c9doc.meta.$savedValue || value]: an empty saved text is
    falsy. *)
Definition saved_or (sv : option string) (value : string) : string :=
  match sv with
  | Some v => if nonempty v then v else value
  | None => value
  end.

Section Scan.
Context `{Env}.

(** [HTMLSimpleDOM.build(text)] of the tree library: the root of the tree
    of [text], or [null]. *)
Variable simple_build :
  string -> gmap positive node -> option addr * gmap positive node.

(** [if (!session.savedDom) session.savedDom =
    HTMLSimpleDOM.build(savedValue);] *)
Definition ensure_savedDom (ss : saved_session) (h : gmap positive node)
    : option addr * gmap positive node :=
  match savedDom ss with
  | Some d => (Some d, h)
  | None => simple_build (saved_or (savedValue ss) getValue) h
  end.

Definition scanDocument (fuel : nat) (ss : saved_session)
    (h : gmap positive node)
    : option (updateDOM_result * saved_session * gmap positive node) :=
  let value := getValue in
  let saved := saved_or (savedValue ss) value in
  let '(sd, h) := ensure_savedDom ss h in
  if negb (String.eqb saved value) then
    (* session.dom = session.savedDom;
       update = _updateDOM(session.savedDom, session); *)
    '(update, s, h) ← _updateDOM fuel sd (Session sd) None h;
    (* session.dom = update.dom; update.dom = session.savedDom; *)
    Some (MkUpdate (r_errors update) sd (r_edits update)
                   (_wasIncremental update),
          SavedSession (Session (r_dom update)) sd (savedValue ss), h)
  else
    (* session.dom = session.savedDom; update = {dom : session.savedDom}; *)
    Some (MkUpdate None sd None None,
          SavedSession (Session sd) sd (savedValue ss), h).

(** X15.  Scanning a document whose text differs from the saved text
    always parses the whole text, never a part of it.  The tree it returns
    is the tree of the saved text, not the new one; the cached tree of the
    session becomes the new tree and the edits are those from the saved
    tree to the new one.  When the text cannot be parsed there are no
    edits, the errors of the builder are returned, and the session is left
    without a cached tree. *)
Theorem scanDocument_changed (fuel : nat) (ss : saved_session)
    (h h0 hb : gmap positive node) (sd built : option addr)
    (errs : option (list string)) :
  saved_or (savedValue ss) getValue <> getValue ->
  ensure_savedDom ss h = (sd, h0) ->
  build (MkDOMUpdater false JUndefined getValue 0 None sd) (Session sd) h0
  = (built, errs, hb) ->
  scanDocument fuel ss h
  = Some (MkUpdate errs sd (domdiff hb sd <$> built)
                   (match built with Some _ => Some false | None => None end),
          SavedSession (Session built) sd (savedValue ss), hb) /\
  (built = None -> exists e es, errs = Some (e :: es)).
Proof.
  intros Hne Hsd Hb. split.
  - unfold scanDocument. rewrite Hsd.
    assert (String.eqb (saved_or (savedValue ss) getValue) getValue = false)
      as -> by (by apply String.eqb_neq).
    simpl. unfold _updateDOM, new_DOMUpdater. simpl.
    unfold update. simpl. rewrite Hb.
    destruct built as [new|]; simpl; [|done].
    by rewrite decide_True.
  - intros ->. by eapply build_failure.
Qed.

(** Scanning a document whose text is the saved text, or that has
    no saved text, parses nothing but the saved text when its tree is not
    there yet: the cached tree of the session and the tree returned are the
    tree of the saved text, and there are neither edits nor errors. *)
Lemma scanDocument_unchanged (fuel : nat) (ss : saved_session)
    (h h0 : gmap positive node) (sd : option addr) :
  saved_or (savedValue ss) getValue = getValue ->
  ensure_savedDom ss h = (sd, h0) ->
  scanDocument fuel ss h
  = Some (MkUpdate None sd None None,
          SavedSession (Session sd) sd (savedValue ss), h0) /\
  (forall d, savedDom ss = Some d -> sd = Some d /\ h0 = h).
Proof.
  intros He Hsd. split.
  - unfold scanDocument. rewrite Hsd, He, String.eqb_refl. done.
  - intros d Hd. unfold ensure_savedDom in Hsd. rewrite Hd in Hsd.
    by injection Hsd as <- <-.
Qed.

End Scan.

Lemma scanDocument_changed_witness :
  scanDocument (H := ex_env) (fun _ h => (None, h)) 4
    (SavedSession (Session None) (Some 1%positive) (Some "<div></div>")) ex_heap2
  = Some (MkUpdate (Some (@nil string)) (Some 1%positive)
            (domdiff ex_heap2 (Some 1%positive) <$> Some 10%positive)
            (Some false),
          SavedSession (Session (Some 10%positive)) (Some 1%positive)
            (Some "<div></div>"), ex_heap2) /\
  (Some 10%positive = None -> exists e es, Some (@nil string) = Some (e :: es)).
Proof.
  apply (scanDocument_changed (H := ex_env) (fun _ h => (None, h)) 4
           (SavedSession (Session None) (Some 1%positive) (Some "<div></div>"))
           ex_heap2 ex_heap2 ex_heap2 (Some 1%positive) (Some 10%positive)
           (Some (@nil string))).
  - discriminate.
  - reflexivity.
  - reflexivity.
Defined.

(** ** More on the reconciler: parent links and the map of the walk *)

(** The order in which the walk enters the nodes in its map: an element
    after the nodes below it. *)
Fixpoint postorder (s : shape) : list addr :=
  match s with
  | Shape a ks => concat (map postorder ks) ++ [a]
  end.

(** [nodeMap[node.tagID] = node], with the identifier the node has in
    [h]. *)
Definition index_node (h : gmap positive node) (m : gmap string addr)
    (b : addr) : gmap string addr :=
  match h !! b with
  | Some nb => <[key_of (tagID nb) := b]> m
  | None => m
  end.

(** Below [k] every child points to the element that holds it. *)
Definition parents_in (hf : gmap positive node) (k : shape) : Prop :=
  forall e en ch c, e ∈ addrs k -> hf !! e = Some en ->
    children en = Some ch -> c ∈ ch ->
    exists cn, hf !! c = Some cn /\ parent cn = Some e.

Definition linked (n : node) : jsval * option addr * option (list addr) :=
  (tagID n, parent n, children n).

Definition agree_links (l : list addr) (h h' : gmap positive node) : Prop :=
  forall b, b ∈ l -> linked <$> (h !! b) = linked <$> (h' !! b).

Lemma agree_links_lookup l h h' b n' :
  agree_links l h h' -> b ∈ l -> h' !! b = Some n' ->
  exists n, h !! b = Some n /\ tagID n = tagID n' /\
    parent n = parent n' /\ children n = children n'.
Proof.
  intros Hag Hb Hn'. specialize (Hag b Hb). rewrite Hn' in Hag.
  destruct (h !! b) as [n|]; [|discriminate]. injection Hag as ? ? ?. eauto.
Qed.

Lemma agree_links_parent l h h' b :
  agree_links l h h' -> b ∈ l ->
  parent <$> (h !! b) = parent <$> (h' !! b).
Proof.
  intros Hag Hb. specialize (Hag b Hb).
  destruct (h !! b) as [n|], (h' !! b) as [n'|]; simpl in *;
    try discriminate; [|done].
  injection Hag as _ Hp _. by rewrite Hp.
Qed.

Lemma agree_links_tagID l h h' b :
  agree_links l h h' -> b ∈ l ->
  tagID <$> (h !! b) = tagID <$> (h' !! b).
Proof.
  intros Hag Hb. specialize (Hag b Hb).
  destruct (h !! b) as [n|], (h' !! b) as [n'|]; simpl in *;
    try discriminate; [|done].
  injection Hag as Ht _ _. by rewrite Ht.
Qed.

Lemma agree_links_eq l (h h' : gmap positive node) :
  (forall b, b ∈ l -> h !! b = h' !! b) -> agree_links l h h'.
Proof. intros Heq b Hb. by rewrite Heq. Qed.

Lemma agree_links_sym l h h' : agree_links l h h' -> agree_links l h' h.
Proof. intros Hag b Hb. symmetry. by apply Hag. Qed.

Lemma parents_in_frame hf hf' k :
  repr hf k -> agree_links (addrs k) hf hf' ->
  parents_in hf k -> parents_in hf' k.
Proof.
  intros Hr Hag Hp e en' ch c He Hen' Hch Hc.
  destruct (agree_links_lookup _ _ _ _ _ Hag He Hen') as (en & Hen & _ & _ & Hce).
  rewrite Hch in Hce.
  assert (Hcin : c ∈ addrs k) by (eapply children_in_addrs; eauto).
  destruct (Hp e en ch c He Hen Hce Hc) as (cn & Hcn & Hpar).
  pose proof (Hag c Hcin) as Hagc. rewrite Hcn in Hagc.
  destruct (hf' !! c) as [cn'|]; [|discriminate]. injection Hagc as _ Hpp _.
  exists cn'. split; [done|]. congruence.
Qed.

Lemma index_agree l : forall h h' m,
  (forall b, b ∈ l -> tagID <$> (h !! b) = tagID <$> (h' !! b)) ->
  foldl (index_node h) m l = foldl (index_node h') m l.
Proof.
  induction l as [|b l IH]; intros h h' m Hag; simpl; [done|].
  assert (Hb : index_node h m b = index_node h' m b).
  { unfold index_node. pose proof (Hag b ltac:(left)) as Hb.
    destruct (h !! b), (h' !! b); simpl in Hb; try discriminate; [|done].
    by injection Hb as ->. }
  rewrite Hb. apply IH. intros c Hc. apply Hag. by right.
Qed.

Lemma elem_of_concat_postorder b ks :
  b ∈ concat (map postorder ks) <-> exists k, k ∈ ks /\ b ∈ postorder k.
Proof.
  rewrite list_elem_of_In, in_concat. split.
  - intros (l & Hl & Hb). apply in_map_iff in Hl as (k & <- & Hk).
    exists k. by rewrite !list_elem_of_In.
  - intros (k & Hk & Hb). exists (postorder k).
    rewrite <- !list_elem_of_In. split; [|done].
    apply list_elem_of_In, in_map, list_elem_of_In, Hk.
Qed.

Lemma elem_of_postorder s : forall b, b ∈ postorder s <-> b ∈ addrs s.
Proof.
  induction s as [a ks IH] using shape_ind'. intros b. simpl.
  rewrite elem_of_app, list_elem_of_singleton, elem_of_cons.
  rewrite elem_of_concat_postorder, elem_of_concat_addrs.
  rewrite Forall_forall in IH. split.
  - intros [(k & Hk & Hb)| ->]; [right|by left]. exists k. split; [done|].
    by apply IH.
  - intros [->|(k & Hk & Hb)]; [by right|left]. exists k. split; [done|].
    by apply IH.
Qed.

(** The entries of the map after the nodes [l] have been entered. *)
Lemma index_lookup_some h l : forall m key b,
  foldl (index_node h) m l !! key = Some b ->
  m !! key = Some b \/
  (b ∈ l /\ exists nb, h !! b = Some nb /\ key_of (tagID nb) = key).
Proof.
  induction l as [|c l IH]; intros m key b; simpl; [auto|].
  intros Hl. apply IH in Hl as [Hl|[Hin Hk]].
  - unfold index_node in Hl. destruct (h !! c) as [n|] eqn:Hc; [|by left].
    destruct (decide (key_of (tagID n) = key)) as [<-|Hne].
    + rewrite lookup_insert_eq in Hl. injection Hl as <-. right.
      split; [left|]. eauto.
    + rewrite lookup_insert_ne in Hl by done. by left.
  - right. split; [by right | done].
Qed.

Lemma index_lookup_mono h l : forall m key,
  is_Some (m !! key) -> is_Some (foldl (index_node h) m l !! key).
Proof.
  induction l as [|c l IH]; intros m key Hm; simpl; [done|].
  apply IH. unfold index_node. destruct (h !! c) as [n|]; [|done].
  destruct (decide (key_of (tagID n) = key)) as [<-|Hne].
  - rewrite lookup_insert_eq. eauto.
  - by rewrite lookup_insert_ne.
Qed.

Lemma index_lookup_in h l : forall m b nb,
  b ∈ l -> h !! b = Some nb ->
  is_Some (foldl (index_node h) m l !! key_of (tagID nb)).
Proof.
  induction l as [|c l IH]; intros m b nb Hb Hnb; simpl.
  - by apply elem_of_nil in Hb.
  - apply elem_of_cons in Hb as [->|Hb]; [|by eapply IH].
    apply index_lookup_mono. unfold index_node. rewrite Hnb.
    rewrite lookup_insert_eq. eauto.
Qed.

Section ReconcilerLinks.
Context `{Env}.
Variable sid : jsval.

(** What a visit of the subtree [k] does to the parent links and to the
    map. *)
Definition post_links (k : shape) (st st' : process_state) : Prop :=
  parents_in (p_heap st') k /\
  parent <$> (p_heap st' !! root k) = parent <$> (p_heap st !! root k) /\
  p_nodeMap st'
  = foldl (index_node (p_heap st')) (p_nodeMap st) (postorder k).

Definition visits_links
    (rec : addr -> process_state -> option process_state) (k : shape) : Prop :=
  forall st st', repr (p_heap st) k ->
    (exists n, p_heap st !! root k = Some n /\ isElement n = true) ->
    rec (root k) st = Some st' -> post_links k st st'.

(** One child. *)
Lemma processChild_links rec a k done st st2 en :
  visits_links rec k ->
  processChildren rec a done [root k] st = Some st2 ->
  p_heap st !! a = Some en -> a <> root k ->
  repr (p_heap st) k ->
  parents_in (p_heap st2) k /\
  (exists cn, p_heap st2 !! root k = Some cn /\ parent cn = Some a) /\
  p_nodeMap st2
  = foldl (index_node (p_heap st2)) (p_nodeMap st) (postorder k).
Proof.
  intros Hrec Hrun Ha Hac Hrk.
  destruct (repr_root _ _ Hrk) as [cn0 Hc0].
  set (c := root k) in *.
  simpl in Hrun. unfold modify in Hrun. rewrite Hc0 in Hrun. simpl in Hrun.
  set (h1 := <[c := set_parent (Some a) cn0]> (p_heap st)) in *.
  assert (Hc1 : h1 !! c = Some (set_parent (Some a) cn0))
    by (unfold h1; apply lookup_insert_eq).
  rewrite Hc1 in Hrun. simpl in Hrun.
  assert (Hl1 : links_eq (p_heap st) h1)
    by (eapply links_eq_insert; [done|by destruct cn0]).
  replace (isElement (set_parent (Some a) cn0)) with (isElement cn0) in Hrun
    by (by destruct cn0).
  destruct (isElement cn0) eqn:Hel.
  - destruct (rec c (MkProcess h1 (p_nodeMap st) (p_root st)))
      as [st'|] eqn:Hr; [|discriminate]. simpl in Hrun. injection Hrun as ->.
    assert (Hr1 : repr h1 k) by (by eapply repr_links).
    assert (He1 : exists n, h1 !! root k = Some n /\ isElement n = true).
    { exists (set_parent (Some a) cn0). split; [done|by destruct cn0]. }
    destruct (Hrec (MkProcess h1 (p_nodeMap st) (p_root st)) st2 Hr1 He1 Hr)
      as (Hp & Hpar & Hm).
    split; [done|]. split; [|done]. simpl in Hpar. fold c in Hpar.
    rewrite Hc1 in Hpar. simpl in Hpar.
    destruct (p_heap st2 !! c) as [cn|]; [|discriminate].
    injection Hpar as Hpar. eauto.
  - assert (Hk : k = Shape c []) by (by eapply repr_text_shape).
    unfold node_update, modify in Hrun. rewrite Hc1 in Hrun. simpl in Hrun.
    set (cn1 := set_signature (signature_of h1 c) (set_parent (Some a) cn0)) in *.
    set (h2 := <[c := cn1]> h1) in *.
    destruct (h2 !! a) as [en2|]; [|discriminate]. simpl in Hrun.
    destruct (mapM (fun b => tagID <$> h2 !! b) done) as [ids|];
      [|discriminate]. simpl in Hrun.
    assert (Hc2 : h2 !! c = Some cn1) by (unfold h2; apply lookup_insert_eq).
    rewrite Hc2 in Hrun. simpl in Hrun. injection Hrun as <-. simpl.
    set (id := getTextNodeID (tagID en2) ids).
    split; [|split].
    + rewrite Hk. intros e en0 ch c0 He Hen0 Hch. simpl in He.
      apply elem_of_cons in He as [->|He]; [|by apply elem_of_nil in He].
      rewrite lookup_insert_eq in Hen0. injection Hen0 as <-.
      unfold isElement in Hel. destruct cn0; simpl in *. by rewrite Hch in Hel.
    + exists (set_tagID id cn1). rewrite lookup_insert_eq. split; [done|].
      by destruct cn0.
    + rewrite Hk. simpl. unfold index_node. rewrite lookup_insert_eq. done.
Qed.

(** The loop over the children. *)
Lemma processChildren_links rec a : forall kt kd st en st',
  Forall (visits sid rec) kt -> Forall (visits_links rec) kt ->
  p_heap st !! a = Some en ->
  a ∉ concat (map addrs (kd ++ kt)) ->
  NoDup (concat (map addrs (kd ++ kt))) ->
  Forall (repr (p_heap st)) kt ->
  (forall b, b ∈ map root kd -> is_Some (p_heap st !! b)) ->
  processChildren rec a (map root kd) (map root kt) st = Some st' ->
  Forall (fun k => parents_in (p_heap st') k /\
            exists cn, p_heap st' !! root k = Some cn /\ parent cn = Some a) kt /\
  p_nodeMap st'
  = foldl (index_node (p_heap st')) (p_nodeMap st) (concat (map postorder kt)).
Proof.
  induction kt as [|k kt IH]; intros kd st en st' Hv Hvl Ha Hnotin Hnd Hr Hkd Hrun.
  - simpl in Hrun. injection Hrun as <-. split; [constructor|done].
  - inversion Hv as [|? ? Hvk Hvt]; subst.
    inversion Hvl as [|? ? Hvlk Hvlt]; subst.
    inversion Hr as [|? ? Hrk Hrt]; subst.
    destruct (processChild_spec sid rec a k kd kt st en Hvk Ha Hnotin Hnd Hrk Hkd)
      as (st2 & Heq & Hf & Hl & _).
    assert (Hkin : forall b, b ∈ addrs k -> b ∈ concat (map addrs (kd ++ k :: kt))).
    { intros b Hb. apply elem_of_concat_addrs. exists k. split; [|done].
      apply elem_of_app. right. left. }
    assert (Hak : a ∉ addrs k) by (intros Hin; apply Hnotin; auto).
    assert (Hac : a <> root k).
    { intros ->. apply Hak. apply root_in_addrs. }
    assert (Hstep : processChildren rec a (map root kd) [root k] st = Some st2).
    { rewrite (Heq []). done. }
    destruct (processChild_links rec a k (map root kd) st st2 en Hvlk Hstep Ha Hac Hrk)
      as (Hp2 & Hpar2 & Hm2).
    simpl in Hrun. change (root k :: map root kt) with (root k :: map root kt) in Hrun.
    assert (Hrun2 : processChildren rec a (map root (kd ++ [k])) (map root kt) st2
                    = Some st').
    { rewrite map_app. simpl. rewrite <- (Heq (map root kt)). exact Hrun. }
    assert (Ha2 : p_heap st2 !! a = Some en) by (by rewrite Hf).
    assert (Hnotin2 : a ∉ concat (map addrs ((kd ++ [k]) ++ kt)))
      by (by rewrite <- app_assoc).
    assert (Hnd2 : NoDup (concat (map addrs ((kd ++ [k]) ++ kt))))
      by (by rewrite <- app_assoc).
    assert (Hr2 : Forall (repr (p_heap st2)) kt).
    { eapply Forall_impl; [exact Hrt|]. intros s0. by apply repr_links. }
    assert (Hkd2 : forall b, b ∈ map root (kd ++ [k]) -> is_Some (p_heap st2 !! b)).
    { intros b Hb. eapply links_eq_some; [exact Hl|].
      rewrite map_app in Hb. apply elem_of_app in Hb as [Hb|Hb]; [auto|].
      simpl in Hb. apply list_elem_of_singleton in Hb as ->. by apply repr_root. }
    destruct (IH (kd ++ [k]) st2 en st' Hvt Hvlt Ha2 Hnotin2 Hnd2 Hr2 Hkd2 Hrun2)
      as (Hall & Hm).
    destruct (processChildren_spec sid rec a kt (kd ++ [k]) st2 en
                Hvt Ha2 Hnotin2 Hnd2 Hr2 Hkd2)
      as (st'' & Hrun'' & Hf'' & _).
    rewrite Hrun2 in Hrun''. injection Hrun'' as <-.
    assert (Hsame : forall b, b ∈ addrs k -> p_heap st' !! b = p_heap st2 !! b).
    { intros b Hb. apply Hf''. intros Hin.
      rewrite map_app, concat_app in Hnd. apply NoDup_app in Hnd as (_ & _ & Hnd).
      simpl in Hnd. apply NoDup_app in Hnd as (_ & Hdisj & _).
      by apply (Hdisj b). }
    split.
    + constructor; [|exact Hall]. split.
      * eapply parents_in_frame; [by eapply repr_links| |exact Hp2].
        apply agree_links_eq. intros b Hb. symmetry. by apply Hsame.
      * destruct Hpar2 as (cn & Hcn & Hpar). exists cn. split; [|done].
        rewrite Hsame; [done|apply root_in_addrs].
    + rewrite Hm, Hm2. simpl. rewrite foldl_app. f_equal.
      apply index_agree. intros b Hb. apply elem_of_postorder in Hb.
      by rewrite Hsame.
Qed.

Lemma NoDup_kid k ks :
  k ∈ ks -> NoDup (concat (map addrs ks)) -> NoDup (addrs k).
Proof.
  induction ks as [|k0 ks IHks]; intros Hk Hnd; [by apply elem_of_nil in Hk|].
  simpl in Hnd. apply NoDup_app in Hnd as (H1 & _ & H2).
  apply elem_of_cons in Hk as [->|Hk]; auto.
Qed.

(** An element and all below it. *)
Lemma processElement_links s : forall fuel,
  NoDup (addrs s) -> (height s < fuel)%nat ->
  visits_links (_processElement fuel sid) s.
Proof.
  induction s as [a ks IH] using shape_ind'.
  intros fuel Hnd Hfuel st st' Hr (n & Hn & Hel) Hrun.
  destruct fuel as [|fuel]; [lia|]. simpl in Hfuel, Hn, Hrun.
  pose proof Hr as Hr0.
  apply repr_inv in Hr as (n0 & Hn0 & Hch & _ & Hks).
  rewrite Hn in Hn0. injection Hn0 as <-. rewrite Hn in Hrun. simpl in Hrun.
  unfold isElement in Hel. destruct (children n) as [ch|] eqn:Hc; [|discriminate].
  simpl in Hch. subst ch.
  set (id := default JUndefined (attributes n !! reserved_attribute)) in *.
  set (n' := set_attributes (delete reserved_attribute (attributes n))
               (set_tagID id n)) in *.
  replace (children n') with (Some (map root ks)) in Hrun by (by destruct n).
  simpl in Hrun.
  set (st0 := MkProcess (<[a := n']> (p_heap st)) (p_nodeMap st) (p_root st)) in *.
  apply NoDup_cons in Hnd as [Hnotin Hnd].
  assert (Hl0 : links_eq (p_heap st) (p_heap st0)).
  { eapply links_eq_insert; [done|]. by destruct n. }
  assert (Hv : Forall (visits sid (_processElement fuel sid)) ks).
  { rewrite Forall_forall. intros k Hk st1 Hrk Hek.
    apply processElement_spec; try done.
    - by eapply NoDup_kid.
    - apply height_kid in Hk. lia. }
  assert (Hvl : Forall (visits_links (_processElement fuel sid)) ks).
  { rewrite Forall_forall in *. intros k Hk. apply IH; [done| |].
    - by eapply NoDup_kid.
    - apply height_kid in Hk. lia. }
  assert (Ha0 : p_heap st0 !! a = Some n') by (simpl; apply lookup_insert_eq).
  assert (Hr1 : Forall (repr (p_heap st0)) ks).
  { eapply Forall_impl; [exact Hks|]. intros s0. by apply repr_links. }
  assert (Hkd0 : forall b, b ∈ map root (@nil shape) -> is_Some (p_heap st0 !! b)).
  { intros b Hb. by apply elem_of_nil in Hb. }
  destruct (processChildren_spec sid (_processElement fuel sid) a ks [] st0 n'
              Hv Ha0 Hnotin Hnd Hr1 Hkd0)
    as (st1 & Hrun1 & Hf1 & Hl1 & _).
  simpl in Hrun1. rewrite Hrun1 in Hrun. simpl in Hrun.
  destruct (processChildren_links (_processElement fuel sid) a ks [] st0 n' st1
              Hv Hvl Ha0 Hnotin Hnd Hr1 Hkd0 Hrun1)
    as (Hall & Hm1).
  assert (Ha1 : p_heap st1 !! a = Some n').
  { rewrite Hf1 by done. exact Ha0. }
  unfold node_update, modify in Hrun. rewrite Ha1 in Hrun. simpl in Hrun.
  rewrite lookup_insert_eq in Hrun. simpl in Hrun.
  set (n'' := set_signature (signature_of (p_heap st1) a) n') in *.
  set (h2 := <[a := n'']> (p_heap st1)) in *.
  injection Hrun as <-. unfold post_links. simpl.
  assert (Hother2 : forall b, b <> a -> h2 !! b = p_heap st1 !! b).
  { intros b Hb. unfold h2. by rewrite lookup_insert_ne. }
  assert (Hkid : forall k, k ∈ ks -> a ∉ addrs k).
  { intros k Hk Hin. apply Hnotin. apply elem_of_concat_addrs. eauto. }
  assert (Hag : forall k, k ∈ ks -> agree_links (addrs k) (p_heap st1) h2).
  { intros k Hk. apply agree_links_eq. intros b Hb. rewrite Hother2; [done|].
    intros ->. by apply (Hkid k). }
  rewrite Forall_forall in Hall.
  split; [|split].
  - intros e en ch c He Hen Hche Hcin. simpl in He.
    apply elem_of_cons in He as [->|He].
    + unfold h2 in Hen. rewrite lookup_insert_eq in Hen. injection Hen as <-.
      assert (ch = map root ks) as ->.
      { unfold n'', n' in Hche. simpl in Hche. rewrite Hc in Hche. congruence. }
      apply list_elem_of_In, in_map_iff in Hcin as (k & <- & Hk).
      apply list_elem_of_In in Hk.
      destruct (Hall k Hk) as (_ & cn & Hcn & Hpar). exists cn. split; [|done].
      rewrite Hother2; [done|]. intros E. apply (Hkid k Hk). rewrite <- E.
      apply root_in_addrs.
    + apply elem_of_concat_addrs in He as (k & Hk & He).
      destruct (Hall k Hk) as (Hp & _).
      assert (Hrk : repr (p_heap st1) k).
      { rewrite Forall_forall in Hr1. eapply repr_links; [exact Hl1|]. auto. }
      eapply (parents_in_frame _ _ k Hrk (Hag k Hk) Hp); eauto.
  - unfold h2. rewrite lookup_insert_eq, Hn. simpl. by destruct n.
  - rewrite foldl_app. simpl. unfold index_node at 1. unfold h2 at 1.
    rewrite lookup_insert_eq. f_equal. rewrite Hm1. simpl.
    apply index_agree. intros b Hb.
    apply elem_of_concat_postorder in Hb as (k & Hk & Hb).
    apply elem_of_postorder in Hb. rewrite Hother2; [done|].
    intros ->. by apply (Hkid k).
Qed.

(** The whole walk. *)
Lemma processBrowserSimpleDOM_links (fuel : nat) (h : gmap positive node)
    (s : shape) (rn : node) :
  repr h s -> NoDup (addrs s) ->
  h !! root s = Some rn -> isElement rn = true -> (height s < fuel)%nat ->
  exists r h' n' m,
    _processBrowserSimpleDOM fuel (root s) sid h = Some (r, h') /\
    r ∈ addrs s /\ h' !! r = Some n' /\ nodeMap n' = Some m /\
    m = foldl (index_node h') ∅ (postorder s) /\
    parents_in h' s /\
    parent <$> (h' !! root s) = Some (parent rn).
Proof.
  intros Hr Hnd Hrn Hel Hfuel.
  destruct (processElement_spec sid s fuel (MkProcess h ∅ None))
    as (st' & Hrun & Hf & Hl & Hd & Hroot); simpl; eauto.
  destruct (processElement_links s fuel Hnd Hfuel (MkProcess h ∅ None) st')
    as (Hp & Hpar & Hm); simpl; eauto.
  simpl in *.
  set (r := default (root s) (p_root st')).
  assert (Hrin : r ∈ addrs s).
  { unfold r. destruct Hroot as [[-> _]|(a & n' & -> & Ha & _)]; simpl;
      [apply root_in_addrs | done]. }
  assert (Hsome : is_Some (p_heap st' !! r)).
  { eapply links_eq_some; [exact Hl|]. by eapply repr_in_heap. }
  destruct Hsome as [rn' Hrn'].
  set (h' := <[r := set_nodeMap (Some (p_nodeMap st')) rn']> (p_heap st')).
  assert (Hag : agree_links (addrs s) (p_heap st') h').
  { intros b Hb. unfold h'. destruct (decide (r = b)) as [<-|Hne].
    - rewrite lookup_insert_eq, Hrn'. by destruct rn'.
    - by rewrite lookup_insert_ne. }
  exists r, h', (set_nodeMap (Some (p_nodeMap st')) rn'), (p_nodeMap st').
  split; [|split; [done|split; [|split; [done|split; [|split]]]]].
  - unfold _processBrowserSimpleDOM. rewrite Hrun. simpl. fold r.
    unfold modify. by rewrite Hrn'.
  - unfold h'. apply lookup_insert_eq.
  - rewrite Hm. apply index_agree. intros b Hb. apply elem_of_postorder in Hb.
    by eapply agree_links_tagID.
  - eapply parents_in_frame; [|exact Hag|exact Hp]. by eapply repr_links.
  - rewrite Hrn in Hpar. simpl in Hpar. rewrite <- Hpar. symmetry.
    eapply agree_links_parent; [exact Hag|apply root_in_addrs].
Qed.

(** X16.  After the reconciler has walked the tree of an observed document,
    every node below the observed root points to the element that holds it
    among its children; the parent link of the observed root itself is left
    as it was. *)
Theorem reconciler_parent_links (fuel : nat) (h : gmap positive node)
    (s : shape) (rn : node) :
  repr h s -> NoDup (addrs s) ->
  h !! root s = Some rn -> isElement rn = true -> (height s < fuel)%nat ->
  exists r h',
    _processBrowserSimpleDOM fuel (root s) sid h = Some (r, h') /\
    (forall e en ch c, e ∈ addrs s -> h' !! e = Some en ->
       children en = Some ch -> c ∈ ch ->
       exists cn, h' !! c = Some cn /\ parent cn = Some e) /\
    (exists rn', h' !! root s = Some rn' /\ parent rn' = parent rn).
Proof.
  intros Hr Hnd Hrn Hel Hfuel.
  destruct (processBrowserSimpleDOM_links fuel h s rn Hr Hnd Hrn Hel Hfuel)
    as (r & h' & n' & m & Hrun & _ & _ & _ & _ & Hp & Hpar).
  exists r, h'. split; [done|]. split; [exact Hp|].
  destruct (h' !! root s) as [rn'|]; [|discriminate]. injection Hpar as Hpar.
  eauto.
Qed.

(** X17.  The map that the reconciler stores on the comparison root is the
    map of the whole walk: the nodes of the observed tree, entered under
    the key of their identifier in the order of the walk, an element after
    the nodes below it, a later node taking the place of an earlier one
    with the same key.  Every entry leads to a node of the tree that
    carries the key, and every node of the tree, text run or element,
    inside or outside the comparison root, has the key of its identifier
    in the map. *)
Theorem reconciler_nodeMap (fuel : nat) (h : gmap positive node)
    (s : shape) (rn : node) :
  repr h s -> NoDup (addrs s) ->
  h !! root s = Some rn -> isElement rn = true -> (height s < fuel)%nat ->
  exists r h' n' m,
    _processBrowserSimpleDOM fuel (root s) sid h = Some (r, h') /\
    h' !! r = Some n' /\ nodeMap n' = Some m /\
    m = foldl (index_node h') ∅ (postorder s) /\
    (forall key b, m !! key = Some b ->
       b ∈ addrs s /\ exists nb, h' !! b = Some nb /\ key_of (tagID nb) = key) /\
    (forall b nb, b ∈ addrs s -> h' !! b = Some nb ->
       exists b', m !! key_of (tagID nb) = Some b' /\ b' ∈ addrs s).
Proof.
  intros Hr Hnd Hrn Hel Hfuel.
  destruct (processBrowserSimpleDOM_links fuel h s rn Hr Hnd Hrn Hel Hfuel)
    as (r & h' & n' & m & Hrun & _ & Hn' & Hnm & Hm & _ & _).
  exists r, h', n', m. split; [done|]. split; [done|]. split; [done|].
  split; [done|].
  assert (Hsome : forall key b, m !! key = Some b ->
            b ∈ addrs s /\ exists nb, h' !! b = Some nb /\ key_of (tagID nb) = key).
  { intros key b Hb. rewrite Hm in Hb.
    apply index_lookup_some in Hb as [Hb|[Hin Hk]].
    - by rewrite lookup_empty in Hb.
    - split; [by apply elem_of_postorder|done]. }
  split; [done|].
  intros b nb Hb Hnb.
  assert (Hbp : b ∈ postorder s) by (by apply elem_of_postorder).
  destruct (index_lookup_in h' (postorder s) ∅ b nb Hbp Hnb) as [b' Hb'].
  rewrite <- Hm in Hb'. exists b'. split; [done|].
  by destruct (Hsome _ _ Hb').
Qed.

End ReconcilerLinks.

Lemma reconciler_parent_links_witness :
  exists r h',
    _processBrowserSimpleDOM (H := ex_env) 5 (root ex_browser_shape) (JNum 5)
      ex_browser = Some (r, h') /\
    (forall e en ch c, e ∈ addrs ex_browser_shape -> h' !! e = Some en ->
       children en = Some ch -> c ∈ ch ->
       exists cn, h' !! c = Some cn /\ parent cn = Some e) /\
    (exists rn', h' !! root ex_browser_shape = Some rn' /\
       parent rn' = parent (ex_browser_node "html" ∅ (Some [2%positive]))).
Proof.
  apply (reconciler_parent_links (H := ex_env) (JNum 5) 5 ex_browser
           ex_browser_shape (ex_browser_node "html" ∅ (Some [2%positive]))).
  - exact ex_browser_repr.
  - exact ex_browser_nodup.
  - reflexivity.
  - reflexivity.
  - simpl. lia.
Defined.

Lemma reconciler_nodeMap_witness :
  exists r h' n' m,
    _processBrowserSimpleDOM (H := ex_env) 5 (root ex_browser_shape) (JNum 5)
      ex_browser = Some (r, h') /\
    h' !! r = Some n' /\ nodeMap n' = Some m /\
    m = foldl (index_node h') ∅ (postorder ex_browser_shape) /\
    (forall key b, m !! key = Some b ->
       b ∈ addrs ex_browser_shape /\
       exists nb, h' !! b = Some nb /\ key_of (tagID nb) = key) /\
    (forall b nb, b ∈ addrs ex_browser_shape -> h' !! b = Some nb ->
       exists b', m !! key_of (tagID nb) = Some b' /\
         b' ∈ addrs ex_browser_shape).
Proof.
  apply (reconciler_nodeMap (H := ex_env) (JNum 5) 5 ex_browser
           ex_browser_shape (ex_browser_node "html" ∅ (Some [2%positive]))).
  - exact ex_browser_repr.
  - exact ex_browser_nodup.
  - reflexivity.
  - reflexivity.
  - simpl. lia.
Defined.

(** ** More on the swap: the old subtree after it *)

Lemma heap_rel_tagID fc fp h h' :
  heap_rel (fields_rel fc fp) h h' -> proj_eq tagID h h'.
Proof.
  intros Hrel a. specialize (Hrel a).
  destruct (h !! a), (h' !! a); simpl; try tauto.
  destruct Hrel as (-> & _). done.
Qed.

Section SpliceOld.
Context `{Env}.

(** The map that the swap leaves on the old subtree is the one
    [_buildNodeMap] makes of it before the deletions are handled. *)
Lemma splice_old_map fuel prev old new p i h h' :
  splice fuel prev old new p i h = Some h' -> old <> prev ->
  exists h4 m,
    buildNodeMap_walk fuel h4 old ∅ = Some m /\
    proj_eq tagID h h4 /\
    (forall a, a <> p -> children <$> (h !! a) = children <$> (h4 !! a)) /\
    nodeMap <$> (h' !! old) = Some (Some m).
Proof.
  unfold splice. intros Hs Hop.
  destruct (modify old (set_parent None) h) as [h1|] eqn:E1; [|discriminate].
  simpl in Hs.
  destruct (modify new (set_parent (Some p)) h1) as [h2|] eqn:E2; [|discriminate].
  simpl in Hs.
  destruct (h2 !! p) as [pn|] eqn:Ep; [|discriminate]. simpl in Hs.
  destruct (children pn) as [ch|] eqn:Ech; [|discriminate]. simpl in Hs.
  set (h3 := <[p := set_children (Some (<[i:=new]> ch)) pn]> h2) in *.
  destruct (h3 !! prev) as [prevn|] eqn:Eprev; [|discriminate]. simpl in Hs.
  destruct (nodeMap prevn) as [prevMap|] eqn:Epm; [|discriminate]. simpl in Hs.
  destruct (h3 !! new) as [newn|] eqn:Enew; [|discriminate]. simpl in Hs.
  set (h4 := <[prev := _]> h3) in *.
  destruct (_buildNodeMap fuel old h4) as [h5|] eqn:E5; [|discriminate].
  simpl in Hs.
  destruct (h5 !! prev) as [prevn5|] eqn:Eprev5; [|discriminate]. simpl in Hs.
  destruct (nodeMap prevn5) as [prevMap5|]; [|discriminate]. simpl in Hs.
  destruct (h5 !! old) as [oldn5|] eqn:Eold5; [|discriminate]. simpl in Hs.
  destruct (nodeMap oldn5) as [oldMap5|] eqn:Eom5; [|discriminate]. simpl in Hs.
  destruct (h5 !! new) as [newn5|]; [|discriminate]. simpl in Hs.
  destruct (match nodeMap newn5 with
            | Some m => Some m
            | None => if decide (oldMap5 = ∅) then Some ∅ else None
            end) as [newMap5|]; [|discriminate]. simpl in Hs.
  set (h6 := <[prev := _]> h5) in *.
  assert (H1 : heap_rel (fields_rel keep
                 (fun a q => if decide (a = old) then None else q)) h h1).
  { eapply heap_rel_modify; [exact E1| |].
    - intros n. unfold fields_rel, keep. rewrite decide_True by done. by destruct n.
    - intros b m Hb. unfold fields_rel, keep. by rewrite decide_False. }
  assert (H2 : heap_rel (fields_rel keep
                 (fun a q => if decide (a = new) then Some p else q)) h1 h2).
  { eapply heap_rel_modify; [exact E2| |].
    - intros n. unfold fields_rel, keep. rewrite decide_True by done. by destruct n.
    - intros b m Hb. unfold fields_rel, keep. by rewrite decide_False. }
  assert (H3 : heap_rel (fields_rel (swap_children p new i) keep) h2 h3).
  { eapply heap_rel_insert; [exact Ep| |].
    - unfold fields_rel, keep, swap_children. rewrite decide_True by done.
      rewrite Ech. by destruct pn.
    - intros b m Hb. unfold fields_rel, keep, swap_children.
      by rewrite decide_False. }
  assert (H4 : heap_rel (fields_rel keep keep) h3 h4).
  { eapply heap_rel_insert_keep; [exact Eprev|].
    unfold fields_rel, keep. by destruct prevn. }
  unfold _buildNodeMap in E5.
  destruct (buildNodeMap_walk fuel h4 old ∅) as [m|] eqn:Ew; [|discriminate].
  simpl in E5. unfold modify in E5.
  destruct (h4 !! old) as [oldn4|] eqn:Eold4; [|discriminate].
  injection E5 as <-.
  exists h4, m. split; [done|]. split; [|split].
  - eapply proj_eq_trans; [by eapply heap_rel_tagID|].
    eapply proj_eq_trans; [by eapply heap_rel_tagID|].
    eapply proj_eq_trans; [by eapply heap_rel_tagID|].
    by eapply heap_rel_tagID.
  - intros a Hap. specialize (H1 a). specialize (H2 a). specialize (H3 a).
    specialize (H4 a).
    destruct (h !! a) as [n0|], (h1 !! a) as [n1|], (h2 !! a) as [n2|],
      (h3 !! a) as [n3|], (h4 !! a) as [n4|]; try tauto. simpl. f_equal.
    unfold fields_rel, keep, swap_children in *.
    destruct H1 as (_&_&_&_&_&_&_&?&_), H2 as (_&_&_&_&_&_&_&?&_),
      H3 as (_&_&_&_&_&_&_&?&_), H4 as (_&_&_&_&_&_&_&?&_).
    rewrite decide_False in * by done. congruence.
  - rewrite <- (update_signatures_nodeMap _ _ _ _ Hs old).
    unfold h6. rewrite lookup_insert_ne by done.
    rewrite lookup_insert_eq. done.
Qed.

(** X10.  After the swap the old subtree is detached and indexed: its
    root has no parent, and its [nodeMap] is a fresh map of the old subtree
    alone: every entry leads to a node of the old subtree that carries a
    truthy identifier with that key, and every such node has its key in the
    map. *)
Theorem splice_detaches_old (fuel : nat) (prev old new p : addr) (i : nat)
    (h : gmap positive node) (oldn newn pn : node) (ch : list addr)
    (prevn : node) (prevMap newMap : gmap string addr) (so : shape)
    (l : list addr) :
  h !! old = Some oldn -> h !! new = Some newn ->
  h !! p = Some pn -> children pn = Some ch ->
  h !! prev = Some prevn -> nodeMap prevn = Some prevMap ->
  nodeMap newn = Some newMap ->
  old <> prev -> new <> prev -> new <> old -> p <> old -> p <> new ->
  root so = old -> repr h so -> p ∉ addrs so -> (height so < fuel)%nat ->
  parent_chain h (Some p) l -> old ∉ l -> new ∉ l -> (length l < fuel)%nat ->
  exists h' oldn' m,
    splice fuel prev old new p i h = Some h' /\
    h' !! old = Some oldn' /\ parent oldn' = None /\ nodeMap oldn' = Some m /\
    (forall k a, m !! k = Some a -> a ∈ addrs so /\ has_key h a k) /\
    (forall a k, a ∈ addrs so -> has_key h a k -> is_Some (m !! k)).
Proof.
  intros Hold Hnew Hp Hch Hprev Hpm Hnm Hop Hnp Hno Hpo Hpn Hroot Hrepr Hpso
    Hfuel Hchain Hol Hnl Hlen.
  destruct (splice_run fuel prev old new p i h oldn newn pn ch prevn prevMap
              newMap so l Hold Hnew Hp Hch Hprev Hpm Hnm Hop Hnp Hno Hpo Hpn
              Hroot Hrepr Hpso Hfuel Hchain Hol Hnl Hlen)
    as (h' & _ & Hrun & _).
  destruct (splice_old_map _ _ _ _ _ _ _ _ Hrun Hop)
    as (h4 & m & Hwalk & Htag & Hchild & Hmap).
  pose proof (splice_effect _ _ _ _ _ _ _ _ Hrun old) as Hrel.
  rewrite Hold in Hrel.
  destruct (h' !! old) as [oldn'|] eqn:Hold'; [|done].
  simpl in Hmap. injection Hmap as Hmap.
  exists h', oldn', m. split; [done|]. split; [done|]. split.
  { destruct Hrel as (_&_&_&_&_&_&_&_&Hpar). rewrite Hpar.
    unfold swap_parent. rewrite decide_False by done.
    by rewrite decide_True. }
  split; [done|].
  assert (Hrepr4 : repr h4 so).
  { eapply repr_agree; [|exact Hrepr]. intros a Ha. apply Hchild. by intros ->. }
  assert (Hm : m = foldl (enter h) ∅ (addrs so)).
  { rewrite <- Hroot in Hwalk.
    rewrite (buildNodeMap_walk_spec so fuel h4 ∅ Hrepr4 Hfuel) in Hwalk.
    injection Hwalk as <-. symmetry. apply enter_agree. intros a _. apply Htag. }
  subst m. split.
  - intros k a Hl. apply enter_lookup_some in Hl as [Hl|Hl]; [|done].
    by rewrite lookup_empty in Hl.
  - intros a k Ha Hk. apply enter_lookup. right. eauto.
Qed.

End SpliceOld.

Lemma splice_detaches_old_witness :
  exists h' oldn' m,
    splice (H := ex_env) 4 1 2 10 1 0 ex_shifted = Some h' /\
    h' !! 2%positive = Some oldn' /\ parent oldn' = None /\
    nodeMap oldn' = Some m /\
    (forall k a, m !! k = Some a ->
       a ∈ addrs ex_old_shape /\ has_key ex_shifted a k) /\
    (forall a k, a ∈ addrs ex_old_shape -> has_key ex_shifted a k ->
       is_Some (m !! k)).
Proof.
  apply (splice_detaches_old (H := ex_env) 4 1 2 10 1 0 ex_shifted
           ex_old_node ex_new_root ex_prev_node [2%positive; 3%positive]
           ex_prev_node ex_prev_map ex_new_map ex_old_shape [1%positive]).
  - vm_compute. reflexivity.
  - vm_compute. reflexivity.
  - vm_compute. reflexivity.
  - reflexivity.
  - vm_compute. reflexivity.
  - reflexivity.
  - reflexivity.
  - discriminate.
  - discriminate.
  - discriminate.
  - discriminate.
  - discriminate.
  - reflexivity.
  - unfold ex_old_shape. solve_repr.
  - apply (bool_decide_unpack _). vm_compute. exact I.
  - simpl. lia.
  - eapply chain_step; [vm_compute; reflexivity|]. apply chain_end.
  - apply (bool_decide_unpack _). vm_compute. exact I.
  - apply (bool_decide_unpack _). vm_compute. exact I.
  - simpl. lia.
Defined.

(** ** The deltas applied to the saved tree *)

(** The loop of [syncTagIds] that brings the positions of the saved tree
    up to date: [getDeltaList(savedValue, value).forEach(function(delta)
    { updatePositions(session.savedDom, delta); })]. *)
Definition sync_positions (fuel : nat) (savedDom : addr)
    (deltas : list delta) (h : gmap positive node)
    : option (gmap positive node) :=
  foldl (fun acc d => h ← acc; PositionTracker.updatePositions d fuel savedDom h)
        (Some h) deltas.

Lemma deltas_from_insertions l : forall p d,
  Forall (fun c : chunk => c.1 = 0 \/ c.1 = 1) l ->
  d ∈ deltas_from p l -> PositionTracker.sign d = 1.
Proof.
  induction l as [|[op t] l IH]; intros p d Hall Hd; simpl in Hd.
  - by apply elem_of_nil in Hd.
  - apply Forall_cons in Hall as [Hop Hall]. simpl in Hop.
    destruct (Z.eqb_spec op 0); [by eapply IH|].
    destruct (Z.eqb_spec op (-1)); [lia|].
    destruct (Z.eqb_spec op 1); [|lia].
    apply elem_of_cons in Hd as [->|Hd]; [|by eapply IH].
    apply sign_chunk.
Qed.

Lemma sync_positions_nested s fuel : forall (deltas : list delta)
    (h : gmap positive node),
  repr h s -> NoDup (addrs s) -> nested h s -> (height s < fuel)%nat ->
  Forall (fun d => pos_le (PositionTracker.d_start d) (PositionTracker.d_end d)
                   /\ PositionTracker.sign d = 1) deltas ->
  exists h', sync_positions fuel (root s) deltas h = Some h' /\
    repr h' s /\ nested h' s.
Proof.
  unfold sync_positions.
  induction deltas as [|d deltas IH]; intros h Hr Hnd Hne Hfuel Hall; simpl.
  - eauto.
  - apply Forall_cons in Hall as [[Hrange Hins] Hall].
    unfold PositionTracker.updatePositions at 2.
    rewrite (walk_correct d Hrange s fuel h) by done. simpl.
    apply IH; try done.
    + eapply repr_links; [apply shift_heap_links | done].
    + by apply nested_shift_ins.
Qed.

(** X14.  When the diff of the saved text and the current text removes
    nothing, the position updates for its deltas, taken one after the
    other, all terminate on a nested tree, and the tree they leave has the
    same nodes and is nested again. *)
Theorem sync_positions_insertions
    (diff_main : string -> string -> list chunk) (v1 v2 : string)
    (s : shape) (fuel : nat) (h : gmap positive node) :
  repr h s -> NoDup (addrs s) -> nested h s -> (height s < fuel)%nat ->
  Forall (fun c : chunk => c.1 = 0 \/ c.1 = 1) (diff_main v1 v2) ->
  exists h',
    sync_positions fuel (root s) (getDeltaList diff_main v1 v2) h = Some h' /\
    repr h' s /\ nested h' s.
Proof.
  intros Hr Hnd Hne Hfuel Hall. apply sync_positions_nested; try done.
  rewrite getDeltaList_deltas. apply Forall_forall. intros d Hd. split.
  - destruct (deltas_from_ranges (diff_main v1 v2) (Pos 0 0) d) as (H1 & _);
      simpl; [lia|lia|done|done].
  - by eapply deltas_from_insertions.
Qed.

(** Two insertions into the one-line document. *)
Definition ex_diff_ins : list chunk :=
  [(0, "<div>"); (1, "ab"); (0, "<p>hi</p>"); (1, "c"); (0, "xy</div>")].

Lemma sync_positions_insertions_witness :
  exists h',
    sync_positions 4 (root ex_shape)
      (getDeltaList (fun _ _ => ex_diff_ins) "<div><p>hi</p>xy</div>"
         "<div>ab<p>hi</p>cxy</div>") ex_heap = Some h' /\
    repr h' ex_shape /\ nested h' ex_shape.
Proof.
  apply (sync_positions_insertions (fun _ _ => ex_diff_ins)
           "<div><p>hi</p>xy</div>" "<div>ab<p>hi</p>cxy</div>"
           ex_shape 4 ex_heap).
  - exact ex_repr.
  - exact ex_nodup.
  - exact ex_nested.
  - simpl. lia.
  - unfold ex_diff_ins.
    repeat (apply List.Forall_cons; [simpl; lia|]). apply List.Forall_nil.
Defined.

Lemma getDeltaList_ranges_witness :
  pos_le
    (PositionTracker.d_start
       (Delta (Range (Pos 0 2) (Pos 1 1)) "insertLines" None (Some ["x"; "y"])))
    (PositionTracker.d_end
       (Delta (Range (Pos 0 2) (Pos 1 1)) "insertLines" None (Some ["x"; "y"]))) /\
  0 <= row (PositionTracker.d_start
       (Delta (Range (Pos 0 2) (Pos 1 1)) "insertLines" None (Some ["x"; "y"]))) /\
  0 <= column (PositionTracker.d_start
       (Delta (Range (Pos 0 2) (Pos 1 1)) "insertLines" None (Some ["x"; "y"]))).
Proof.
  apply (getDeltaList_ranges (fun _ _ => ex_diff) "abcz" ex_v2).
  rewrite ex_diff_deltas. right. left.
Defined.

(** ** More on the classifier: texts put together *)

Lemma isDangerousEdit_app (a b : string) :
  isDangerousEdit (a +:+ b) = isDangerousEdit a || isDangerousEdit b.
Proof.
  induction a as [|c a IH]; simpl; [done|]. by rewrite IH, orb_assoc.
Qed.

(** X18.  The classifier looks at characters one by one: a text put
    together from two texts is dangerous exactly when one of the two is,
    and the text that the constructor makes of the lines of a delta, joined
    by line feeds, is dangerous exactly when one of the lines is. *)
Theorem isDangerousEdit_lines (lines : list string) :
  isDangerousEdit (join_lines lines) = existsb isDangerousEdit lines /\
  (forall a b : string,
     isDangerousEdit (a +:+ b) = isDangerousEdit a || isDangerousEdit b).
Proof.
  split; [|apply isDangerousEdit_app].
  unfold join_lines. induction lines as [|x xs IH]; [done|].
  destruct xs as [|y ys].
  - simpl. by rewrite orb_false_r.
  - change (String.concat (String "010" EmptyString) (x :: y :: ys))
      with (x +:+ String "010" EmptyString
              +:+ String.concat (String "010" EmptyString) (y :: ys)).
    rewrite !isDangerousEdit_app, IH. simpl. done.
Qed.

(** ** More on the swap: the parent links of the whole heap *)

(** Every child points to the node that holds it among its children. *)
Definition parents_ok (h : gmap positive node) : Prop :=
  forall e en ch c, h !! e = Some en -> children en = Some ch -> c ∈ ch ->
    exists cn, h !! c = Some cn /\ parent cn = Some e.

Lemma indexOf_lookup l x i : indexOf l x = Some i -> l !! i = Some x.
Proof.
  revert i. induction l as [|y l IH]; intros i; simpl; [discriminate|].
  case_decide as Hy; [intros [= <-]; by subst|].
  destruct (indexOf l x) as [j|]; [|discriminate]. intros [= <-]. simpl. auto.
Qed.

Section ParentLinks.
Context `{Env}.

Lemma splice_new_some fuel prev old new p i h h' :
  splice fuel prev old new p i h = Some h' -> is_Some (h !! new).
Proof.
  unfold splice, modify. intros Hs.
  destruct (h !! old) as [oldn|] eqn:Ho; [|discriminate]. simpl in Hs.
  destruct (decide (old = new)) as [->|Hne].
  - eauto.
  - rewrite lookup_insert_ne in Hs by done.
    destruct (h !! new); [eauto|discriminate].
Qed.

(** X19.  [update] keeps the parent links in order: when, in the heap the
    builder leaves, every child points to the node that holds it, no
    children array holds a node twice and the new subtree is nobody's child
    yet, then after [update], swap or no swap, every child again points to
    the node that holds it. *)
Theorem update_keeps_parent_links (fuel : nat) (u : DOMUpdater) (s : session)
    (h h1 : gmap positive node) (new : addr)
    (errs errs' : option (list string)) (res : option update_result)
    (s' : session) (h' : gmap positive node) :
  build u s h = (Some new, errs, h1) ->
  update fuel u s h = Some (res, errs', s', h') ->
  parents_ok h1 ->
  (forall e en ch, h1 !! e = Some en -> children en = Some ch ->
     NoDup ch /\ new ∉ ch) ->
  parents_ok h'.
Proof.
  intros Hb Hu Hok Hch. unfold update in Hu. rewrite Hb in Hu.
  destruct (truthy (changedTagID u)); [|by injection Hu as <- <- <- <-].
  destruct (previousDOM u) as [prev|]; [|discriminate]. simpl in Hu.
  destruct (h1 !! prev) as [prevn|]; [|discriminate]. simpl in Hu.
  destruct (nodeMap prevn) as [prevMap|]; [|discriminate]. simpl in Hu.
  destruct (prevMap !! key_of (changedTagID u)) as [old|]; [|discriminate].
  simpl in Hu.
  destruct (h1 !! old) as [oldn|] eqn:Hold; [|discriminate]. simpl in Hu.
  destruct (parent oldn) as [p|] eqn:Hpar; [|by injection Hu as <- <- <- <-].
  destruct (h1 !! p) as [pn|] eqn:Hp; [|discriminate]. simpl in Hu.
  destruct (children pn) as [ch|] eqn:Hpch; [|discriminate]. simpl in Hu.
  destruct (indexOf ch old) as [i|] eqn:Hi; [|by injection Hu as <- <- <- <-].
  destruct (splice fuel prev old new p i h1) as [h2|] eqn:Hs; [|discriminate].
  simpl in Hu. injection Hu as <- <- <- <-.
  pose proof (splice_effect _ _ _ _ _ _ _ _ Hs) as Hrel.
  destruct (splice_new_some _ _ _ _ _ _ _ _ Hs) as [newn Hnew].
  apply indexOf_lookup in Hi.
  destruct (Hch p pn ch Hp Hpch) as [Hnd Hnewch].
  assert (Hno : new <> old).
  { intros ->. apply Hnewch. by eapply list_elem_of_lookup_2. }
  (* a node other than the two roots keeps its parent *)
  assert (Hkeep : forall c cn, c <> old -> c <> new -> h1 !! c = Some cn ->
            exists cn', h2 !! c = Some cn' /\ parent cn' = parent cn).
  { intros c cn Hco Hcn Hc. specialize (Hrel c). rewrite Hc in Hrel.
    destruct (h2 !! c) as [cn'|]; [|done]. exists cn'. split; [done|].
    destruct Hrel as (_&_&_&_&_&_&_&_&Hp'). rewrite Hp'.
    unfold swap_parent. by rewrite !decide_False. }
  intros e en' ch' c He' Hch' Hc.
  pose proof (Hrel e) as Hrele. rewrite He' in Hrele.
  destruct (h1 !! e) as [en|] eqn:He; [|done].
  destruct Hrele as (_&_&_&_&_&_&_&Hce&_). unfold swap_children in Hce.
  destruct (decide (e = p)) as [->|Hep].
  - rewrite Hp in He. injection He as <-. rewrite Hpch in Hce. simpl in Hce.
    rewrite Hch' in Hce. injection Hce as ->.
    apply list_elem_of_lookup in Hc as [j Hj].
    apply list_lookup_insert_Some in Hj as [(-> & <- & _)|(Hji & Hj)].
    + pose proof (Hrel new) as Hreln. rewrite Hnew in Hreln.
      destruct (h2 !! new) as [newn'|]; [|done]. exists newn'. split; [done|].
      destruct Hreln as (_&_&_&_&_&_&_&_&Hp'). rewrite Hp'.
      unfold swap_parent. by rewrite decide_True.
    + assert (Hco : c <> old).
      { intros ->. apply Hji. by eapply NoDup_lookup. }
      assert (Hcn : c <> new).
      { intros ->. apply Hnewch. by eapply list_elem_of_lookup_2. }
      destruct (Hok p pn ch c Hp Hpch) as (cn & Hcn1 & Hcp);
        [by eapply list_elem_of_lookup_2|].
      destruct (Hkeep c cn Hco Hcn Hcn1) as (cn' & ? & Hpp). exists cn'.
      split; [done|]. congruence.
  - rewrite Hch' in Hce. symmetry in Hce.
    destruct (Hok e en ch' c He Hce Hc) as (cn & Hcn1 & Hcp).
    assert (Hco : c <> old).
    { intros ->. rewrite Hold in Hcn1. injection Hcn1 as <-. congruence. }
    assert (Hcn : c <> new).
    { intros ->. by destruct (Hch e en ch' He Hce) as [_ Hn]. }
    destruct (Hkeep c cn Hco Hcn Hcn1) as (cn' & ? & Hpp). exists cn'.
    split; [done|]. congruence.
Qed.

End ParentLinks.

(** The boolean tests of the two conditions, for concrete heaps. *)
Definition parents_okb (h : gmap positive node) : bool :=
  forallb (fun en : positive * node =>
             match children en.2 with
             | None => true
             | Some ch =>
               forallb (fun c => match h !! c with
                                 | Some cn => bool_decide (parent cn = Some en.1)
                                 | None => false
                                 end) ch
             end) (map_to_list h).

Definition kids_okb (new : addr) (h : gmap positive node) : bool :=
  forallb (fun en : positive * node =>
             match children en.2 with
             | None => true
             | Some ch => bool_decide (NoDup ch) && bool_decide (new ∉ ch)
             end) (map_to_list h).

Lemma parents_okb_spec h : parents_okb h = true -> parents_ok h.
Proof.
  unfold parents_okb. rewrite forallb_forall. intros Hall e en ch c He Hch Hc.
  specialize (Hall (e, en)). simpl in Hall. rewrite Hch in Hall.
  rewrite forallb_forall in Hall.
  assert (Hin : In (e, en) (map_to_list h))
    by (by apply list_elem_of_In, elem_of_map_to_list).
  specialize (Hall Hin c). apply list_elem_of_In in Hc. specialize (Hall Hc).
  destruct (h !! c) as [cn|]; [|discriminate]. exists cn. split; [done|].
  by apply bool_decide_eq_true in Hall.
Qed.

Lemma kids_okb_spec new h :
  kids_okb new h = true ->
  forall e en ch, h !! e = Some en -> children en = Some ch ->
    NoDup ch /\ new ∉ ch.
Proof.
  unfold kids_okb. rewrite forallb_forall. intros Hall e en ch He Hch.
  specialize (Hall (e, en)). simpl in Hall. rewrite Hch in Hall.
  assert (Hin : In (e, en) (map_to_list h))
    by (by apply list_elem_of_In, elem_of_map_to_list).
  specialize (Hall Hin). apply andb_true_iff in Hall as [H1 H2].
  apply bool_decide_eq_true in H1, H2. done.
Qed.

Lemma ex_parents_ok : parents_ok ex_shifted.
Proof. apply parents_okb_spec. vm_compute. reflexivity. Qed.

Lemma ex_kids_ok :
  forall e en ch, ex_shifted !! e = Some en -> children en = Some ch ->
    NoDup ch /\ 10%positive ∉ ch.
Proof. apply kids_okb_spec. vm_compute. reflexivity. Qed.

Lemma update_keeps_parent_links_witness : parents_ok ex_spliced.
Proof.
  apply (update_keeps_parent_links (H := ex_env) 4
           (MkDOMUpdater true (JNum 2) "<p>hi</p>" 3 (Some (Pos 0 3))
              (Some 1%positive))
           ex_session ex_shifted ex_shifted 10 (Some []) (Some [])
           (Some (MkResult 1 (Some 2%positive) 10)) ex_session ex_spliced).
  - reflexivity.
  - exact ex_update_run.
  - exact ex_parents_ok.
  - exact ex_kids_ok.
Defined.

(** ** More on the position tracker: removals *)

(** No boundary of the element [n] is inside the removed range: its start
    is not strictly between the two ends of the range, and its end is not
    at the start of the range or between the two. *)
Definition clear_of (d : delta) (n : node) : Prop :=
  ~ (pos_lt (PositionTracker.d_start d) (startPos n) /\
     pos_lt (startPos n) (PositionTracker.d_end d)) /\
  ~ (pos_le (PositionTracker.d_start d) (endPos n) /\
     pos_lt (endPos n) (PositionTracker.d_end d)).

Section TrackerRemoval.
Import PositionTracker.
Variable d : delta.
Hypothesis Hrange : pos_le (d_start d) (d_end d).
Hypothesis Hdel : sign d = -1.

(** What a removal does to a boundary outside the removed range. *)
Definition del_move (p : pos) : pos :=
  if comparePoints (d_end d) p <=? 0 then update d p else p.

Definition outside (p : pos) : Prop :=
  pos_le p (d_start d) \/ pos_le (d_end d) p.

Lemma new_start_del n : new_start d n = del_move (startPos n).
Proof. unfold new_start, del_move. by rewrite Hdel. Qed.

Lemma new_end_del n : clear_of d n -> new_end d n = del_move (endPos n).
Proof.
  intros [_ Hc]. unfold new_end, del_move. rewrite Hdel. simpl.
  destruct (comparePoints (d_start d) (endPos n) <=? 0) eqn:C1;
    [apply cmp_le in C1 | apply cmp_le_false in C1];
    (destruct (comparePoints (d_end d) (endPos n) <=? 0) eqn:C2;
     [apply cmp_le in C2 | apply cmp_le_false in C2]); try done.
  - tauto.
  - exfalso. unfold pos_le, pos_lt in *. lia.
Qed.

Lemma clear_of_outside n :
  clear_of d n -> outside (startPos n) /\ outside (endPos n).
Proof.
  intros [H1 H2]. unfold outside, pos_le, pos_lt in *. split; lia.
Qed.

Lemma del_move_mono p q :
  outside p -> outside q -> pos_le p q -> pos_le (del_move p) (del_move q).
Proof.
  unfold del_move, outside. intros Hp Hq Hpq.
  destruct (comparePoints (d_end d) p <=? 0) eqn:Cp;
    [apply cmp_le in Cp | apply cmp_le_false in Cp];
    (destruct (comparePoints (d_end d) q <=? 0) eqn:Cq;
     [apply cmp_le in Cq | apply cmp_le_false in Cq]);
    rewrite ?update_del by done;
    unfold pos_le, pos_lt in *; simpl;
    repeat match goal with
           | |- context [?a =? ?b] => destruct (Z.eqb_spec a b)
           end; simpl; lia.
Qed.

Lemma nested_shift_del s : forall (h : gmap positive node) (l : list addr),
  (forall a, a ∈ addrs s -> a ∈ l) -> repr h s -> nested h s ->
  (forall a n, a ∈ addrs s -> h !! a = Some n -> isElement n = true ->
     clear_of d n) ->
  nested (shift_heap d l h) s.
Proof.
  induction s as [a ks IH] using shape_ind'. intros h l Hl Hr Hn Hclear.
  inversion Hn as [a0 n ks0 Ha Hse Hk Hks]; subst.
  apply repr_inv in Hr as (n0 & Hn0 & Hch & Hnil & Hrks).
  rewrite Ha in Hn0. injection Hn0 as <-.
  assert (Hshift : forall b nb, b ∈ addrs (Shape a ks) -> h !! b = Some nb ->
            shift_heap d l h !! b = Some (shift_node d nb)).
  { intros b nb Hb Hnb. rewrite lookup_shift_heap, Hnb. simpl.
    by rewrite decide_True by auto. }
  assert (Hel : forall nb, isElement (shift_node d nb) = isElement nb).
  { intros nb. unfold shift_node. destruct (isElement nb) eqn:E; [|done].
    unfold isElement in *. by destruct nb. }
  assert (Hain : a ∈ addrs (Shape a ks)) by apply (root_in_addrs (Shape a ks)).
  apply (nested_intro _ a (shift_node d n) ks).
  - by apply Hshift.
  - rewrite Hel. intros He. unfold shift_node. rewrite He. simpl.
    pose proof (Hclear a n Hain Ha He) as Hc.
    rewrite new_start_del, new_end_del by done.
    destruct (clear_of_outside n Hc). apply del_move_mono; auto.
  - rewrite Forall_forall in *. intros k Hk' nk' Hnk' Hek'.
    assert (Hin : root k ∈ addrs (Shape a ks))
      by (eapply kid_addrs; eauto using root_in_addrs).
    rewrite lookup_shift_heap in Hnk'.
    destruct (h !! root k) as [nk|] eqn:Hnk; [|discriminate]. simpl in Hnk'.
    rewrite decide_True in Hnk' by auto. injection Hnk' as <-.
    rewrite Hel in Hek'. destruct (Hk k Hk' nk Hnk Hek') as [H1 H2].
    unfold shift_node. rewrite Hek'.
    destruct (isElement n) eqn:He.
    + simpl. pose proof (Hclear a n Hain Ha He) as Hc.
      pose proof (Hclear (root k) nk Hin Hnk Hek') as Hck.
      rewrite !new_start_del, !new_end_del by done.
      destruct (clear_of_outside n Hc), (clear_of_outside nk Hck).
      split; by apply del_move_mono.
    + exfalso. unfold isElement in He.
      destruct (children n) eqn:Hc; [done|]. rewrite Hnil in Hk' by done.
      by apply elem_of_nil in Hk'.
  - rewrite Forall_forall in *. intros k Hk'. apply IH; auto.
    + intros b Hb. apply Hl. eapply kid_addrs; eauto.
    + intros b nb Hb. apply Hclear. eapply kid_addrs; eauto.
Qed.

End TrackerRemoval.

(** X20.  A removal keeps a nested tree nested when no boundary of an
    element is inside the removed range: after the tracker has run, every
    element still starts no later than it ends and still lies within the
    span of its parent. *)
Theorem removal_keeps_nesting (d : delta) (h : gmap positive node)
    (s : shape) (fuel : nat) :
  repr h s -> NoDup (addrs s) -> nested h s ->
  pos_le (PositionTracker.d_start d) (PositionTracker.d_end d) ->
  PositionTracker.sign d = -1 ->
  (forall a n, a ∈ addrs s -> h !! a = Some n -> isElement n = true ->
     clear_of d n) ->
  (height s < fuel)%nat ->
  exists h', PositionTracker.updatePositions d fuel (root s) h = Some h' /\
    repr h' s /\ nested h' s.
Proof.
  intros Hr Hnd Hne Hrange Hdel Hclear Hfuel.
  exists (shift_heap d (addrs s) h). split; [|split].
  - unfold PositionTracker.updatePositions.
    by rewrite (walk_correct d Hrange s fuel h).
  - eapply repr_links; [apply shift_heap_links | done].
  - by apply nested_shift_del.
Qed.

Lemma removal_keeps_nesting_witness :
  exists h', PositionTracker.updatePositions ex_remove 4 (root ex_shape) ex_heap
             = Some h' /\
    repr h' ex_shape /\ nested h' ex_shape.
Proof.
  apply (removal_keeps_nesting ex_remove ex_heap ex_shape 4).
  - exact ex_repr.
  - exact ex_nodup.
  - exact ex_nested.
  - unfold pos_le, PositionTracker.d_start, PositionTracker.d_end, ex_remove.
    simpl. lia.
  - reflexivity.
  - intros a n Ha Hn _.
    assert (Hcases : a = 1%positive \/ a = 2%positive \/ a = 4%positive
                     \/ a = 3%positive).
    { unfold ex_shape in Ha. simpl in Ha. set_solver. }
    unfold clear_of, pos_le, pos_lt, PositionTracker.d_start,
      PositionTracker.d_end, ex_remove.
    destruct Hcases as [->|[->|[->| ->]]]; vm_compute in Hn;
      injection Hn as <-; simpl; lia.
  - simpl. lia.
Defined.

(** ** More on the walk up the parents *)

Lemma parents_in_kid h a ks k :
  k ∈ ks -> parents_in h (Shape a ks) -> parents_in h k.
Proof.
  intros Hk Hp e en ch c He. apply Hp. eapply kid_addrs; eauto.
Qed.

(** In a tree whose children point to their parents the chain of parents
    of a node runs up the tree and leaves it at the root. *)
Lemma tree_chain s : forall (h : gmap positive node) (o : option addr)
    (l0 : list addr) (rn : node),
  repr h s -> parents_in h s ->
  h !! root s = Some rn -> parent rn = o -> parent_chain h o l0 ->
  forall b, b ∈ addrs s ->
    exists l, parent_chain h (Some b) ((b :: l) ++ l0) /\
      (length l < height s)%nat /\ (forall a, a ∈ l -> a ∈ addrs s).
Proof.
  induction s as [a ks IH] using shape_ind'.
  intros h o l0 rn Hr Hp Hrn Hpar Hchain b Hb.
  simpl in Hrn. simpl in Hb. apply elem_of_cons in Hb as [->|Hb].
  - exists []. split; [|split].
    + simpl. econstructor; [exact Hrn|]. by rewrite Hpar.
    + simpl. lia.
    + intros x Hx. by apply elem_of_nil in Hx.
  - apply elem_of_concat_addrs in Hb as (k & Hk & Hb).
    pose proof Hr as Hr0.
    apply repr_inv in Hr as (n & Hn & Hch & Hnil & Hks).
    rewrite Hrn in Hn. injection Hn as <-.
    destruct (children rn) as [ch|] eqn:Hc.
    2:{ rewrite Hnil in Hk by done. by apply elem_of_nil in Hk. }
    simpl in Hch. subst ch.
    assert (Hrk : root k ∈ map root ks).
    { apply list_elem_of_In, in_map, list_elem_of_In, Hk. }
    destruct (Hp a rn (map root ks) (root k)) as (nk & Hnk & Hpk);
      [apply (root_in_addrs (Shape a ks))|done|done|done|].
    rewrite Forall_forall in IH, Hks.
    destruct (IH k Hk h (Some a) (a :: l0) nk (Hks k Hk)
                (parents_in_kid h a ks k Hk Hp) Hnk Hpk) with (b := b)
      as (l & Hl & Hlen & Hin); [|done|].
    { econstructor; [exact Hrn|]. by rewrite Hpar. }
    exists (l ++ [a]). split; [|split].
    + replace ((b :: l ++ [a]) ++ l0) with ((b :: l) ++ a :: l0); [done|].
      simpl. by rewrite <- app_assoc.
    + rewrite length_app. simpl. apply height_kid in Hk. simpl in Hk. lia.
    + intros x Hx. apply elem_of_app in Hx as [Hx|Hx].
      * eapply kid_addrs; eauto.
      * apply list_elem_of_singleton in Hx as ->.
        apply (root_in_addrs (Shape a ks)).
Qed.

(** X21.  In a tree whose children point to their parents and whose root
    has no parent, [_hasAncestorWithID] terminates for every node of the
    tree, after fewer steps than the tree is high; the nodes it visits are
    the parents of the node up to the root, all of the tree, and its
    answer is [true] exactly when one of them carries the identifier.  The
    node itself is not looked at. *)
Theorem hasAncestorWithID_tree (fuel : nat) (h : gmap positive node)
    (s : shape) (rn : node) (b : addr) (id : jsval) :
  repr h s -> parents_in h s ->
  h !! root s = Some rn -> parent rn = None ->
  b ∈ addrs s -> (height s < fuel)%nat ->
  exists l r,
    parent_chain h (Some b) (b :: l) /\
    (forall a, a ∈ l -> a ∈ addrs s) /\ (length l < height s)%nat /\
    _hasAncestorWithID fuel h b id = Some r /\
    (r = true <-> carries_id h l id).
Proof.
  intros Hr Hp Hrn Hpar Hb Hfuel.
  destruct (tree_chain s h None [] rn Hr Hp Hrn Hpar (chain_end h) b Hb)
    as (l & Hchain & Hlen & Hin).
  rewrite app_nil_r in Hchain. exists l.
  inversion Hchain as [|b0 nb l' Hnb Hc]; subst.
  destruct (hasAncestor_loop_spec h (parent nb) l id Hc fuel) as (r & Hrun & Hiff);
    [lia|].
  exists r. split; [done|]. split; [done|]. split; [done|]. split; [|done].
  unfold _hasAncestorWithID. rewrite Hnb. simpl. exact Hrun.
Qed.

Lemma ex_heap_parents : parents_in ex_heap ex_shape.
Proof.
  intros e en ch c _. revert e en ch c. apply parents_okb_spec.
  vm_compute. reflexivity.
Qed.

Lemma hasAncestorWithID_tree_witness :
  exists l r,
    parent_chain ex_heap (Some 4%positive) (4%positive :: l) /\
    (forall a, a ∈ l -> a ∈ addrs ex_shape) /\
    (length l < height ex_shape)%nat /\
    _hasAncestorWithID 4 ex_heap 4 (JNum 1) = Some r /\
    (r = true <-> carries_id ex_heap l (JNum 1)).
Proof.
  apply (hasAncestorWithID_tree 4 ex_heap ex_shape
           (set_nodeMap
              (Some (<["1" := 1%positive]> (<["2" := 2%positive]>
                      (<["2t" := 3%positive]> (<["2.0" := 4%positive]> ∅)))))
              (ex_node (JNum 1) "div" (Pos 0 0) (Pos 0 20)
                 (Some [2%positive; 3%positive]) None))
           4 (JNum 1)).
  - exact ex_repr.
  - exact ex_heap_parents.
  - reflexivity.
  - reflexivity.
  - unfold ex_shape. simpl. set_solver.
  - simpl. lia.
Defined.

(** ** A structural edit on a document that parses *)

Section FullReparse.
Context `{Env}.

(** X22.  An edit whose text holds a dangerous character, on a document
    that the builder can parse: the positions of the cached tree are
    shifted first, the whole text is parsed, and [getUnappliedEditList]
    returns the new tree with the edits from the whole previous tree to the
    new one, not incremental; [session.dom] becomes the new tree, and an
    error list of the builder is noted on the root of the previous tree,
    which is no longer the cached one. *)
Theorem structural_edit_replaces_tree (fuel : nat) (s : shape) (d : delta)
    (t : string) (h : gmap positive node) :
  repr h s -> (height s < fuel)%nat ->
  delta_text d = Some t -> isDangerousEdit t = true ->
  exists h1,
    PositionTracker.updatePositions d fuel (root s) h = Some h1 /\
    forall new errs h2 dn,
      build (MkDOMUpdater false JUndefined getValue 0 None (Some (root s)))
            (Session (Some (root s))) h1 = (Some new, errs, h2) ->
      h2 !! root s = Some dn ->
      getUnappliedEditList fuel (Session (Some (root s))) (Some d) h
      = Some (MkUpdate errs (Some new)
                (Some (domdiff h2 (Some (root s)) new)) (Some false),
              Session (Some new),
              match errs with
              | Some e => <[root s := set_errors (Some e) dn]> h2
              | None => h2
              end).
Proof.
  intros Hr Hfuel Ht Hd.
  destruct (walk_total d s fuel h Hr Hfuel) as [h1 Hw].
  exists h1. unfold PositionTracker.updatePositions. rewrite Hw. simpl.
  split; [done|]. intros new errs h2 dn Hb Hdn.
  unfold getUnappliedEditList, _updateDOM, new_DOMUpdater. simpl.
  rewrite Ht. simpl. unfold PositionTracker.updatePositions. rewrite Hw. simpl.
  rewrite Hd, andb_false_r. simpl.
  unfold update. rewrite Hb. simpl. rewrite decide_True by done. simpl.
  destruct errs as [e|]; simpl; [|done].
  unfold modify. by rewrite Hdn.
Qed.

End FullReparse.

Lemma ex_repr2 : repr ex_heap2 ex_shape.
Proof. unfold ex_shape. solve_repr. Qed.

Lemma structural_edit_replaces_tree_witness :
  exists h1,
    PositionTracker.updatePositions ex_dangerous 4 (root ex_shape) ex_heap2
    = Some h1 /\
    forall new errs h2 dn,
      build (Env := ex_env)
            (MkDOMUpdater false JUndefined getValue 0 None (Some (root ex_shape)))
            (Session (Some (root ex_shape))) h1 = (Some new, errs, h2) ->
      h2 !! root ex_shape = Some dn ->
      getUnappliedEditList 4 (Session (Some (root ex_shape)))
        (Some ex_dangerous) ex_heap2
      = Some (MkUpdate errs (Some new)
                (Some (domdiff h2 (Some (root ex_shape)) new)) (Some false),
              Session (Some new),
              match errs with
              | Some e => <[root ex_shape := set_errors (Some e) dn]> h2
              | None => h2
              end).
Proof.
  apply (structural_edit_replaces_tree (H := ex_env) 4 ex_shape ex_dangerous "<"
           ex_heap2).
  - exact ex_repr2.
  - simpl. lia.
  - reflexivity.
  - reflexivity.
Defined.

(** On the small document the builder yields the tree at address 10. *)
Example ex_structural_edit :
  exists h',
    getUnappliedEditList (H := ex_env) 4 (Session (Some 1%positive))
      (Some ex_dangerous) ex_heap2
    = Some (MkUpdate (Some []) (Some 10%positive) (Some []) (Some false),
            Session (Some 10%positive), h') /\
    errors <$> h' !! 1%positive = Some (Some []) /\
    errors <$> h' !! 10%positive = Some None.
Proof. eexists. split; [vm_compute; reflexivity|]. vm_compute. done. Qed.
